(** * KeyArray: a shallow embedding of KeyPool, KeyArrayBase and KeyArray

    The three C++ classes of the repository are embedded as Rocq records
    and functions:

    - [KeyPool]      (include/KeyPool.hpp)      : the id allocator;
    - [KeyArrayBase] (include/KeyArrayBase.hpp) : the validity-tracked slot
      array built on a [KeyPool];
    - [KeyArray]     (include/KeyArray.hpp)     : the derived class with a
      key offset, the incremental resizer, the overflow queue and the text
      snapshot.

    Conventions.
    - C++ [int] is modelled as [Z].  Signed overflow is undefined in C++
      and is not modelled: the arithmetic of the code is written as it is,
      over unbounded integers, and a function of the embedding is the
      function of the code as long as the integers it computes are
      within [INT_MIN, INT_MAX].  Where a property reaches that bound
      ([nextKey++] after the key [INT_MAX], [maxKey *= 2]) it carries
      the range as a hypothesis.  [size_t] ([elementCount]) is a 64-bit
      unsigned integer and its wrap-around is written out ([wrap64]).
    - [hasKey] is [virtual].  [KeyArrayBase::remove] and
      [KeyArrayBase::at] call it unqualified, so on a [KeyArray] object
      they run [KeyArray::hasKey]: the embedding passes them the [hasKey]
      of the object ([Base.remove_with], [Base.at_with]).
    - [std::vector] is a [list]; [v[i]] outside the vector is undefined
      behaviour in C++ and is an outcome of its own ([Undefined], [UB]).
    - [std::stack] is a list whose head is the top; [std::queue] is a list
      whose head is the front.
    - A C++ exception is the outcome [Throw e s], where [s] is the state
      of the object at the moment of the throw: what was mutated before
      the throw stays mutated.
    - The two loops whose bound is not a vector length (the completion
      loop of [insert], the loops of [loadFromFile]) take a number of
      iterations; [OutOfFuel] is the outcome of a loop that needs more,
      and [copy_loop_terminates] and [loadFromFile_total] show that the
      numbers given are enough.
    - Not modelled: memory exhaustion ([std::bad_alloc]), exceptions of
      [T] itself, the output operators, and the iterators [begin]/[end]
      (writes through them change slot values only). *)

From Stdlib Require Import ZArith Bool String Ascii.
From Stdlib Require Import DecimalString DecimalPos.
From stdpp Require Import base tactics option list numbers strings.

Local Open Scope Z_scope.

(** ** Failures *)

(** The exceptions of the code, by the place that throws them. *)
Inductive exn : Type :=
| PoolExhausted   (* runtime_error "KeyPool is empty. No available keys." *)
| KeyNotFound     (* out_of_range thrown by KeyArrayBase (remove, at) *)
| InvalidKey      (* out_of_range / invalid_argument thrown by KeyArray *)
| ResizeNotReady  (* runtime_error thrown by switchToResizedData *)
| NoMoreKeys      (* out_of_range "No more keys available" of KeyPool::pop *)
| LengthError     (* std::length_error of vector::resize / vector(n), n < 0 *)
| IOFailure.      (* the snapshot file cannot be opened *)

(** Result of a [const] member function. *)
Inductive result (A : Type) : Type :=
| Val (a : A)
| Exn (e : exn)
| UB.
Arguments Val {A} a.
Arguments Exn {A} e.
Arguments UB {A}.

(** Result of a mutating member function on an object of type [St]:
    it returns, it throws, it runs into undefined behaviour, or its loop
    was given too few iterations. *)
Inductive outcome (St A : Type) : Type :=
| Ok (s : St) (a : A)
| Throw (e : exn) (s : St)
| Undefined
| OutOfFuel.
Arguments Ok {St A} s a.
Arguments Throw {St A} e s.
Arguments Undefined {St A}.
Arguments OutOfFuel {St A}.

(** The state an outcome leaves the object in, when it leaves one. *)
Definition final_state {St A} (o : outcome St A) : option St :=
  match o with
  | Ok s _ => Some s
  | Throw _ s => Some s
  | Undefined | OutOfFuel => None
  end.

(** ** Vectors indexed by [int] *)

(** [v[i]] read: [None] is an access outside the vector. *)
Definition vget {A} (v : list A) (i : Z) : option A :=
  if i <? 0 then None else v !! Z.to_nat i.

(** [v[i] = x]: [None] is an access outside the vector. *)
Definition vset {A} (v : list A) (i : Z) (x : A) : option (list A) :=
  if (0 <=? i) && (i <? Z.of_nat (length v))
  then Some (<[Z.to_nat i := x]> v)
  else None.

(** [v.resize(n, x)]: a negative [int] converted to [size_t] exceeds
    [max_size()] and throws [std::length_error]; the elements already
    there are kept. *)
Definition vresize {A} (v : list A) (n : Z) (x : A) : option (list A) :=
  if n <? 0 then None
  else Some (take (Z.to_nat n) v ++ replicate (Z.to_nat n - length v) x).

(** [std::vector<T>(n, x)] *)
Definition vmake {A} (n : Z) (x : A) : option (list A) :=
  if n <? 0 then None else Some (replicate (Z.to_nat n) x).

(** [size_t] arithmetic *)
Definition wrap64 (z : Z) : Z := z mod 2 ^ 64.

(** The range of [int] *)
Definition INT_MIN : Z := - 2 ^ 31.
Definition INT_MAX : Z := 2 ^ 31 - 1.

(** ** KeyPool *)

Module KeyPool.

Record t : Type := mk {
  nextKey : Z;          (* the next available key to assign *)
  maxKey : Z;           (* the maximum key that can be assigned *)
  pool : list Z         (* stack of recycled keys, top first *)
}.

(** [KeyPool(int maxInclusive = 99)] *)
Definition make1 (maxInclusive : Z) : t :=
  {| nextKey := 0; maxKey := maxInclusive; pool := [] |}.

Definition default : t := make1 99.

(** [KeyPool(int value1, int value2)] *)
Definition make (value1 value2 : Z) : t :=
  if value1 >? value2
  then {| nextKey := value2; maxKey := value1; pool := [] |}
  else {| nextKey := value1; maxKey := value2; pool := [] |}.

(** [pop]: [None] is the [std::out_of_range] of an exhausted pool, which
    leaves the pool as it was.  [nextKey++] is the increment of the code
    when [nextKey < INT_MAX]; at [INT_MAX] the code overflows. *)
Definition pop (p : t) : option (Z * t) :=
  match pool p with
  | value :: rest =>
      Some (value, {| nextKey := nextKey p; maxKey := maxKey p; pool := rest |})
  | [] =>
      if nextKey p >? maxKey p then None
      else Some (nextKey p,
                 {| nextKey := nextKey p + 1; maxKey := maxKey p; pool := [] |})
  end.

Definition push (value : Z) (p : t) : t :=
  if (value >=? nextKey p) && (value <=? maxKey p)
  then {| nextKey := nextKey p; maxKey := maxKey p; pool := value :: pool p |}
  else p.

Definition empty (p : t) : bool :=
  match pool p with
  | [] => nextKey p >? maxKey p
  | _ :: _ => false
  end.

(** [maxKey *= 2] is the product of the code when it lies within
    [int]. *)
Definition increaseMaxValue (p : t) : t :=
  {| nextKey := nextKey p; maxKey := maxKey p * 2; pool := pool p |}.

Definition reset (newStart newEnd : Z) (p : t) : t :=
  if newStart >? newEnd
  then {| nextKey := newEnd; maxKey := newStart; pool := [] |}
  else {| nextKey := newStart; maxKey := newEnd; pool := [] |}.

Definition getCurrentValue (p : t) : Z := nextKey p.
Definition getMaxValue (p : t) : Z := maxKey p.

End KeyPool.

(** ** KeyArrayBase<T> *)

Module Base.
Section WithT.

Context {T : Type}.
(** [T0] is the value-initialised [T()], with which [resize(n)] and
    [vector(n)] fill new slots; [T] has [operator==] for [contains]. *)
Context (T0 : T) `{!EqDecision T}.

Record t : Type := mk {
  lastKey : Z;            (* the highest key allowed (inclusive) *)
  elementCount : Z;       (* size_t: number of active elements *)
  data : list T;          (* std::vector<T> *)
  valid : list bool;      (* std::vector<bool> *)
  pool : KeyPool.t
}.

(** [KeyArrayBase(int limitKey = 100)].  [None]: [resize] threw, no
    object is built. *)
Definition make (limitKey : Z) : option t :=
  let lastKey := limitKey - 1 in
  match vresize [] (lastKey + 1) T0, vresize [] (lastKey + 1) false with
  | Some d, Some v =>
      Some {| lastKey := lastKey; elementCount := 0; data := d; valid := v;
              pool := KeyPool.make 0 lastKey |}
  | _, _ => None
  end.

Definition insert (value : T) (s : t) : outcome t Z :=
  if KeyPool.empty (pool s) then Throw PoolExhausted s
  else
    match KeyPool.pop (pool s) with
    | None => Throw NoMoreKeys s
    | Some (key, p) =>
        match vset (data s) key value, vset (valid s) key true with
        | Some d, Some v =>
            Ok {| lastKey := lastKey s;
                  elementCount := wrap64 (elementCount s + 1);
                  data := d; valid := v; pool := p |} key
        | _, _ => Undefined
        end
    end.

Definition hasKey (key : Z) (s : t) : result bool :=
  if (key >=? 0) && (key <=? lastKey s)
  then match vget (valid s) key with
       | Some b => Val b
       | None => UB
       end
  else Val false.

(** [hasKey] is [virtual], and [remove] and [at] call it unqualified:
    the call runs the [hasKey] of the class of the object.  In the bodies
    of [remove] and [at] below, [hasKey_v] is that function.  On a
    [KeyArrayBase] object it is [hasKey] above ([remove], [at_],
    [assign_at]); on a [KeyArray] object it is [KeyArray::hasKey], see
    [KeyArray.remove] and [KeyArray.at_]. *)
Definition remove_with (hasKey_v : Z -> result bool) (key : Z) (s : t)
  : outcome t unit :=
  match hasKey_v key with
  | UB => Undefined
  | Exn e => Throw e s
  | Val false => Throw KeyNotFound s
  | Val true =>
      match vset (valid s) key false with
      | None => Undefined
      | Some v =>
          Ok {| lastKey := lastKey s;
                elementCount := wrap64 (elementCount s - 1);
                data := data s; valid := v;
                pool := KeyPool.push key (pool s) |} tt
      end
  end.

Definition remove (key : Z) (s : t) : outcome t unit :=
  remove_with (fun k => hasKey k s) key s.

(** The loop of [contains]: [n] iterations left, at index [i]. *)
Fixpoint contains_from (value : T) (s : t) (n : nat) (i : Z) : result bool :=
  match n with
  | O => Val false
  | S n' =>
      match vget (valid s) i with
      | None => UB
      | Some false => contains_from value s n' (i + 1)
      | Some true =>
          match vget (data s) i with
          | None => UB
          | Some x =>
              if decide (x = value) then Val true
              else contains_from value s n' (i + 1)
          end
      end
  end.

Definition contains (value : T) (s : t) : result bool :=
  contains_from value s (Z.to_nat (lastKey s + 1)) 0.

Definition at_with (hasKey_v : Z -> result bool) (key : Z) (s : t)
  : result T :=
  match hasKey_v key with
  | UB => UB
  | Exn e => Exn e
  | Val false => Exn KeyNotFound
  | Val true =>
      match vget (data s) key with
      | Some x => Val x
      | None => UB
      end
  end.

Definition at_ (key : Z) (s : t) : result T :=
  at_with (fun k => hasKey k s) key s.

(** [at(key) = x]: an assignment through the reference that the
    non-const [at] returns. *)
Definition assign_at_with (hasKey_v : Z -> result bool) (key : Z) (x : T)
    (s : t) : outcome t unit :=
  match at_with hasKey_v key s with
  | UB => Undefined
  | Exn e => Throw e s
  | Val _ =>
      match vset (data s) key x with
      | None => Undefined
      | Some d =>
          Ok {| lastKey := lastKey s; elementCount := elementCount s;
                data := d; valid := valid s; pool := pool s |} tt
      end
  end.

Definition assign_at (key : Z) (x : T) (s : t) : outcome t unit :=
  assign_at_with (fun k => hasKey k s) key x s.

Definition size (s : t) : Z := elementCount s.
Definition empty (s : t) : bool := elementCount s =? 0.

Definition clear (s : t) : outcome t unit :=
  match vmake (lastKey s + 1) T0, vmake (lastKey s + 1) false with
  | Some d, Some v =>
      Ok {| lastKey := lastKey s; elementCount := 0; data := d; valid := v;
            pool := KeyPool.make 0 (lastKey s) |} tt
  | _, _ => Throw LengthError s
  end.

End WithT.
Arguments t : clear implicits.
End Base.

(** ** KeyArray<T> *)

Module KeyArray.
Section WithT.

Context {T : Type}.
Context (T0 : T) `{!EqDecision T}.

(** The derived class: the base sub-object and the members of
    [KeyArray] itself. *)
Record t : Type := mk {
  base : Base.t T;
  offset : Z;
  name : string;
  resizingEnabled : bool;
  copyInProgress : bool;
  copyIndex : Z;
  newData : list T;
  newValid : list bool;
  newPool : KeyPool.t;
  queueEnabled : bool;
  overflowQueue : list T          (* std::queue<T>, front first *)
}.

Definition set_base (x : Base.t T) (s : t) : t :=
  mk x (offset s) (name s) (resizingEnabled s) (copyInProgress s)
     (copyIndex s) (newData s) (newValid s) (newPool s) (queueEnabled s)
     (overflowQueue s).
Definition set_offset (x : Z) (s : t) : t :=
  mk (base s) x (name s) (resizingEnabled s) (copyInProgress s)
     (copyIndex s) (newData s) (newValid s) (newPool s) (queueEnabled s)
     (overflowQueue s).
Definition set_name (x : string) (s : t) : t :=
  mk (base s) (offset s) x (resizingEnabled s) (copyInProgress s)
     (copyIndex s) (newData s) (newValid s) (newPool s) (queueEnabled s)
     (overflowQueue s).
Definition set_resizingEnabled (x : bool) (s : t) : t :=
  mk (base s) (offset s) (name s) x (copyInProgress s)
     (copyIndex s) (newData s) (newValid s) (newPool s) (queueEnabled s)
     (overflowQueue s).
Definition set_copyInProgress (x : bool) (s : t) : t :=
  mk (base s) (offset s) (name s) (resizingEnabled s) x
     (copyIndex s) (newData s) (newValid s) (newPool s) (queueEnabled s)
     (overflowQueue s).
Definition set_copyIndex (x : Z) (s : t) : t :=
  mk (base s) (offset s) (name s) (resizingEnabled s) (copyInProgress s)
     x (newData s) (newValid s) (newPool s) (queueEnabled s)
     (overflowQueue s).
Definition set_newData (x : list T) (s : t) : t :=
  mk (base s) (offset s) (name s) (resizingEnabled s) (copyInProgress s)
     (copyIndex s) x (newValid s) (newPool s) (queueEnabled s)
     (overflowQueue s).
Definition set_newValid (x : list bool) (s : t) : t :=
  mk (base s) (offset s) (name s) (resizingEnabled s) (copyInProgress s)
     (copyIndex s) (newData s) x (newPool s) (queueEnabled s)
     (overflowQueue s).
Definition set_newPool (x : KeyPool.t) (s : t) : t :=
  mk (base s) (offset s) (name s) (resizingEnabled s) (copyInProgress s)
     (copyIndex s) (newData s) (newValid s) x (queueEnabled s)
     (overflowQueue s).
Definition set_queueEnabled (x : bool) (s : t) : t :=
  mk (base s) (offset s) (name s) (resizingEnabled s) (copyInProgress s)
     (copyIndex s) (newData s) (newValid s) (newPool s) x
     (overflowQueue s).
Definition set_overflowQueue (x : list T) (s : t) : t :=
  mk (base s) (offset s) (name s) (resizingEnabled s) (copyInProgress s)
     (copyIndex s) (newData s) (newValid s) (newPool s) (queueEnabled s)
     x.

(** The fields of the base sub-object, as [this->lastKey] and the like. *)
Definition lastKey (s : t) : Z := Base.lastKey (base s).
Definition data (s : t) : list T := Base.data (base s).
Definition valid (s : t) : list bool := Base.valid (base s).
Definition pool (s : t) : KeyPool.t := Base.pool (base s).

(** A call [KeyArrayBase<T>::f(...)] on the base sub-object. *)
Definition on_base {A} (f : Base.t T -> outcome (Base.t T) A) (s : t)
  : outcome t A :=
  match f (base s) with
  | Ok b a => Ok (set_base b s) a
  | Throw e b => Throw e (set_base b s)
  | Undefined => Undefined
  | OutOfFuel => OutOfFuel
  end.

(** *** Constructors *)

Definition of_base (b : Base.t T) (offset : Z) (name : string) : t :=
  {| base := b; offset := offset; name := name;
     resizingEnabled := false; copyInProgress := false; copyIndex := 0;
     newData := []; newValid := []; newPool := KeyPool.default;
     queueEnabled := false; overflowQueue := [] |}.

(** [KeyArray(const std::string& name = "")] *)
Definition make_named (name : string) : option t :=
  b ← Base.make T0 100; Some (of_base b 0 name).

(** [KeyArray(int limitKey, const std::string& name = "")] *)
Definition make_limit (limitKey : Z) (name : string) : option t :=
  b ← Base.make T0 limitKey; Some (of_base b 0 name).

(** [KeyArray(int a, int b, const std::string& name = "")] *)
Definition make_range (a b : Z) (name : string) : option t :=
  b' ← Base.make T0 (Z.max a b - Z.min a b);
  Some (of_base b' (Z.min a b) name).

(** *** Dynamic resizing *)

(** The block shared by [enableDynamicResizing] and
    [switchToResizedData]: size the shadow vectors and build the shadow
    pool.  [newData.resize] runs first; when it throws, nothing of the
    block has happened. *)
Definition prepare_shadow (s : t) : outcome t unit :=
  let currentSize := lastKey s + 1 - offset s in
  let newLastKey := offset s + currentSize * 2 - 1 in
  match vresize (newData s) (newLastKey + 1) T0 with
  | None => Throw LengthError s
  | Some nd =>
      match vresize (newValid s) (newLastKey + 1) false with
      | None => Throw LengthError (set_newData nd s)
      | Some nv =>
          Ok (set_newPool
                (KeyPool.make (lastKey s + 1 - offset s) (newLastKey - offset s))
                (set_newValid nv (set_newData nd s))) tt
      end
  end.

Definition enableDynamicResizing (s : t) : outcome t unit :=
  if resizingEnabled s then Ok s tt
  else
    let s1 := set_resizingEnabled true s in
    (* Start preparing new storage only if copy hasn't started yet *)
    if copyIndex s1 =? offset s1 then
      match prepare_shadow s1 with
      | Ok s2 _ => Ok (set_copyInProgress true s2) tt
      | o => o
      end
    else Ok (set_copyInProgress true s1) tt.

Definition purge (s : t) : t :=
  set_copyIndex 0
    (set_copyInProgress false
       (set_newPool KeyPool.default (set_newValid [] (set_newData [] s)))).

Definition disableDynamicResizing (purgeData : bool) (s : t) : t :=
  let s1 := set_resizingEnabled false s in
  if purgeData then purge s1 else s1.

Definition isDynamicResizingEnabled (s : t) : bool := resizingEnabled s.

Definition continueCopyStep (s : t) : outcome t unit :=
  if negb (resizingEnabled s) || negb (copyInProgress s) then Ok s tt
  else
    let finish (s' : t) : outcome t unit :=
      (* Mark copy as complete *)
      if copyIndex s' >? lastKey s'
      then Ok (set_copyInProgress false s') tt
      else Ok s' tt in
    if copyIndex s <=? lastKey s then
      match vget (valid s) (copyIndex s) with
      | None => Undefined
      | Some false => finish (set_copyIndex (copyIndex s + 1) s)
      | Some true =>
          match vget (data s) (copyIndex s) with
          | None => Undefined
          | Some x =>
              match vset (newData s) (copyIndex s) x,
                    vset (newValid s) (copyIndex s) true with
              | Some nd, Some nv =>
                  finish (set_copyIndex (copyIndex s + 1)
                            (set_newValid nv (set_newData nd s)))
              | _, _ => Undefined
              end
          end
      end
    else finish s.

Definition switchToResizedData (s : t) : outcome t unit :=
  if negb (resizingEnabled s) || copyInProgress s then Throw ResizeNotReady s
  else
    (* Replace internal data arrays; update key range *)
    let b := {| Base.lastKey := Z.of_nat (length (newData s)) - 1;
                Base.elementCount := Base.elementCount (base s);
                Base.data := newData s;
                Base.valid := newValid s;
                Base.pool := newPool s |} in
    (* Reset old copying-related fields *)
    let s1 := set_copyIndex 0
                (set_newPool KeyPool.default
                   (set_newValid [] (set_newData [] (set_base b s)))) in
    (* Prepare next resize round if dynamic resizing remains enabled *)
    if resizingEnabled s1 then
      match prepare_shadow s1 with
      | Ok s2 _ => Ok (set_copyIndex 0 (set_copyInProgress true s2)) tt
      | o => o
      end
    else Ok s1 tt.

(** *** Insertion *)

(** [while (copyInProgress) continueCopyStep();] with the number of
    iterations bounded by [fuel]. *)
Fixpoint copy_loop (fuel : nat) (s : t) : outcome t unit :=
  if copyInProgress s then
    match fuel with
    | O => OutOfFuel
    | S fuel' =>
        match continueCopyStep s with
        | Ok s' _ => copy_loop fuel' s'
        | o => o
        end
    end
  else Ok s tt.

(** Iterations after which the loop of [insert] has stopped: one per
    slot from the cursor to the last key, and at least one. *)
Definition copy_fuel (s : t) : nat :=
  S (Z.to_nat (lastKey s + 1 - copyIndex s)).

(** [insert] from [int actualKey = KeyArrayBase<T>::insert(value);] on. *)
Definition insert_tail (value : T) (s : t) : outcome t Z :=
  match on_base (Base.insert value) s with
  | Ok s1 actualKey =>
      if resizingEnabled s1 then
        match vset (newData s1) actualKey value,
              vset (newValid s1) actualKey true with
        | Some nd, Some nv =>
            let s2 := set_newValid nv (set_newData nd s1) in
            if copyInProgress s2 then
              match continueCopyStep s2 with
              | Ok s3 _ => Ok s3 (actualKey + offset s3)
              | Throw e s3 => Throw e s3
              | Undefined => Undefined
              | OutOfFuel => OutOfFuel
              end
            else Ok s2 (actualKey + offset s2)
        | _, _ => Undefined
        end
      else Ok s1 (actualKey + offset s1)
  | Throw e s1 => Throw e s1
  | Undefined => Undefined
  | OutOfFuel => OutOfFuel
  end.

(** The branch of [insert] taken on exhaustion when resizing is
    enabled: complete the copy, switch, then insert. *)
Definition insert_resize (value : T) (s : t) : outcome t Z :=
  match copy_loop (copy_fuel s) s with
  | Ok s1 _ =>
      match switchToResizedData s1 with
      | Ok s2 _ => insert_tail value s2
      | Throw e s2 => Throw e s2
      | Undefined => Undefined
      | OutOfFuel => OutOfFuel
      end
  | Throw e s1 => Throw e s1
  | Undefined => Undefined
  | OutOfFuel => OutOfFuel
  end.

Definition insert (value : T) (s : t) : outcome t Z :=
  if KeyPool.empty (pool s) then
    if resizingEnabled s then insert_resize value s
    else if queueEnabled s then
      (* indicator that value was added to queue *)
      Ok (set_overflowQueue (overflowQueue s ++ [value]) s) (-1)
    else Throw PoolExhausted s
  else insert_tail value s.

(** *** Removal, lookup, access *)

Definition out_of_range (key : Z) (s : t) : bool :=
  (key <? offset s) || (key >? lastKey s + offset s).

(** [KeyArray::hasKey], the override of the virtual [hasKey]; its own
    call of the base version is qualified. *)
Definition hasKey (key : Z) (s : t) : result bool :=
  if out_of_range key s then Val false
  else Base.hasKey (key - offset s) (base s).

(** [KeyArrayBase<T>::remove(actualKey)] is a qualified call, but the
    [hasKey(key)] inside it is a virtual call on a [KeyArray]: it runs
    [KeyArray::hasKey] above on the key that [remove] has already
    shifted by the offset. *)
Definition remove (key : Z) (s : t) : outcome t unit :=
  if out_of_range key s then Throw InvalidKey s
  else
    let actualKey := key - offset s in
    match on_base (Base.remove_with (fun k => hasKey k s) actualKey) s with
    | Ok s1 _ =>
        if resizingEnabled s1 then
          match vset (newValid s1) actualKey false with
          | Some nv => Ok (set_newValid nv s1) tt
          | None => Undefined
          end
        else Ok s1 tt
    | o => o
    end.

Definition contains (value : T) (s : t) : result bool :=
  Base.contains value (base s).

(** As in [remove], the [hasKey] inside [KeyArrayBase<T>::at] is
    [KeyArray::hasKey], called on the shifted key. *)
Definition at_ (key : Z) (s : t) : result T :=
  if out_of_range key s then Exn InvalidKey
  else Base.at_with (fun k => hasKey k s) (key - offset s) (base s).

(** [at(key) = x] *)
Definition assign_at (key : Z) (x : T) (s : t) : outcome t unit :=
  if out_of_range key s then Throw InvalidKey s
  else
    on_base (Base.assign_at_with (fun k => hasKey k s) (key - offset s) x) s.

Definition size (s : t) : Z := Base.size (base s).
Definition empty (s : t) : bool := Base.empty (base s).

(** *** Clear *)

Definition clear (s : t) : outcome t unit :=
  match on_base (Base.clear T0) s with
  | Ok s1 _ =>
      Ok (set_copyIndex 0
            (set_copyInProgress false
               (set_newPool KeyPool.default
                  (set_newValid []
                     (set_newData [] (set_overflowQueue [] s1)))))) tt
  | o => o
  end.

(** *** Overflow queue *)

Definition enableQueue (s : t) : t := set_queueEnabled true s.
Definition disableQueue (s : t) : t := set_queueEnabled false s.
Definition clearQueue (s : t) : t := set_overflowQueue [] s.
Definition getQueueSize (s : t) : Z := Z.of_nat (length (overflowQueue s)).
Definition getQueue (s : t) : list T := overflowQueue s.

(** *** Metadata *)

Definition setName (newName : string) (s : t) : t := set_name newName s.
Definition getName (s : t) : string := name s.
Definition getOffset (s : t) : Z := offset s.
Definition getMaxKeyBound (s : t) : Z := offset s + lastKey s.

Definition swap (key1 key2 : Z) (s : t) : outcome t unit :=
  match hasKey key1 s with
  | UB => Undefined
  | Exn e => Throw e s
  | Val false => Throw InvalidKey s
  | Val true =>
      match hasKey key2 s with
      | UB => Undefined
      | Exn e => Throw e s
      | Val false => Throw InvalidKey s
      | Val true =>
          match vget (data s) (key1 - offset s),
                vget (data s) (key2 - offset s) with
          | Some x1, Some x2 =>
              match vset (data s) (key1 - offset s) x2 with
              | Some d1 =>
                  match vset d1 (key2 - offset s) x1 with
                  | Some d2 =>
                      Ok (set_base
                            {| Base.lastKey := lastKey s;
                               Base.elementCount := Base.elementCount (base s);
                               Base.data := d2;
                               Base.valid := valid s;
                               Base.pool := pool s |} s) tt
                  | None => Undefined
                  end
              | None => Undefined
              end
          | _, _ => Undefined
          end
      end
  end.

End WithT.
Arguments t : clear implicits.
End KeyArray.

(** ** The text snapshot ([saveToFile], [loadFromFile]) for [KeyArray<int>]

    [saveToFile] copies the overflow queue into a [std::queue<int>], so
    the pair of functions is the one of [KeyArray<int>].  The file is its
    content, a string; opening it is taken to succeed ([IOFailure] is the
    outcome otherwise, before anything is read or written). *)

Module Snapshot.

Local Open Scope string_scope.

Definition nl : string := String (ascii_of_nat 10) EmptyString.

(** [os << int] *)
Definition show_int (z : Z) : string := NilEmpty.string_of_int (Z.to_int z).

Definition show_bool (b : bool) : string := if b then "true" else "false".

(** The loop over the slots of [saveToFile]: [n] iterations left, at
    index [i]. *)
Fixpoint save_entries (s : KeyArray.t Z) (n : nat) (i : Z) : result string :=
  match n with
  | O => Val EmptyString
  | S n' =>
      match vget (KeyArray.valid s) i with
      | None => UB
      | Some false => save_entries s n' (i + 1)
      | Some true =>
          match vget (KeyArray.data s) i with
          | None => UB
          | Some x =>
              match save_entries s n' (i + 1) with
              | Val rest =>
                  Val (show_int (i + KeyArray.offset s) ++ " " ++ show_int x
                       ++ nl ++ rest)
              | r => r
              end
          end
      end
  end.

Fixpoint save_queue (q : list Z) : string :=
  match q with
  | [] => EmptyString
  | x :: q' => show_int x ++ nl ++ save_queue q'
  end.

Definition saveToFile (s : KeyArray.t Z) : result string :=
  match save_entries s (Z.to_nat (KeyArray.lastKey s + 1)) 0 with
  | Val entries =>
      Val ("version: 2.0" ++ nl
           ++ "name: "
           ++ match KeyArray.name s with
              | EmptyString => "(unnamed)"
              | name => name
              end ++ nl
           ++ "offset: " ++ show_int (KeyArray.offset s) ++ nl
           ++ "lastKey: " ++ show_int (KeyArray.lastKey s) ++ nl
           ++ "dynamicResizing: " ++ show_bool (KeyArray.resizingEnabled s) ++ nl
           ++ "queueEnabled: " ++ show_bool (KeyArray.queueEnabled s) ++ nl
           ++ "queueSize: "
           ++ show_int (Z.of_nat (length (KeyArray.overflowQueue s))) ++ nl
           ++ "entries:" ++ nl
           ++ entries
           ++ "queueEntries:" ++ nl
           ++ (if KeyArray.queueEnabled s
               then save_queue (KeyArray.overflowQueue s)
               else EmptyString))
  | r => r
  end.

(** *** Formatted input

    An input stream is what is left to read, or [None] once [failbit]
    is set: the loader never clears it, and every extraction on a
    failed stream does nothing. An extraction returns the value it
    assigns to its target, [None] when the target is left as it was. *)
Definition istream : Type := option string.

Definition is_space (c : ascii) : bool :=
  let n := nat_of_ascii c in
  ((n =? 32) || ((9 <=? n) && (n <=? 13)))%nat.

Fixpoint skipws (s : string) : string :=
  match s with
  | String c s' => if is_space c then skipws s' else s
  | EmptyString => EmptyString
  end.

(** [std::getline(file, line)], the line itself being dropped. *)
Fixpoint drop_line (s : string) : string :=
  match s with
  | String c s' => if (nat_of_ascii c =? 10)%nat then s' else drop_line s'
  | EmptyString => EmptyString
  end.

Definition getline (st : istream) : istream :=
  match st with
  | Some (String c s') => Some (drop_line (String c s'))
  | _ => None
  end.

(** The characters up to the next white space, and the rest. *)
Fixpoint split_word (s : string) : string * string :=
  match s with
  | String c s' =>
      if is_space c then (EmptyString, s)
      else let '(w, r) := split_word s' in (String c w, r)
  | EmptyString => (EmptyString, EmptyString)
  end.

(** [file >> std::string] *)
Definition read_word (st : istream) : option string * istream :=
  match st with
  | None => (None, None)
  | Some s =>
      match skipws s with
      | EmptyString => (None, None)
      | s' => let '(w, r) := split_word s' in (Some w, Some r)
      end
  end.

Definition digit (c : ascii) : option Z :=
  let n := nat_of_ascii c in
  if ((48 <=? n) && (n <=? 57))%nat then Some (Z.of_nat n - 48) else None.

(** The digits at the head of [s], accumulated in base ten onto [acc];
    the flag tells whether there was one. *)
Fixpoint read_digits (acc : Z) (seen : bool) (s : string) : Z * bool * string :=
  match s with
  | String c s' =>
      match digit c with
      | Some d => read_digits (acc * 10 + d) true s'
      | None => (acc, seen, s)
      end
  | EmptyString => (acc, seen, s)
  end.

(** [file >> int]: an optional sign and decimal digits; without a
    digit the target receives [0] and the stream fails.  The value is
    the one of the numeral: a numeral beyond the range of [int], which
    [os << int] never writes and on which the library stores the nearest
    bound and fails the stream, is read here as it stands. *)
Definition read_int (st : istream) : option Z * istream :=
  match st with
  | None => (None, None)
  | Some s =>
      match skipws s with
      | EmptyString => (None, None)
      | String c s' =>
          let '(neg, body) :=
            if (nat_of_ascii c =? 45)%nat then (true, s')
            else if (nat_of_ascii c =? 43)%nat then (false, s')
            else (false, String c s') in
          let '(v, seen, r) := read_digits 0 false body in
          if seen then (Some (if neg then - v else v), Some r)
          else (Some 0, None)
      end
  end.

(** [file >> std::boolalpha >> bool] *)
Definition read_bool (st : istream) : option bool * istream :=
  match st with
  | None => (None, None)
  | Some s =>
      match skipws s with
      | EmptyString => (None, None)
      | s' =>
          if String.prefix "true" s' then (Some true, Some (String.substring 4 (String.length s' - 4) s'))
          else if String.prefix "false" s' then (Some false, Some (String.substring 5 (String.length s' - 5) s'))
          else (Some false, None)
      end
  end.

Definition assign {A} (v : option A) (old : A) : A :=
  match v with Some x => x | None => old end.

(** The loop over the entries of [loadFromFile].  [value] is the local
    [T value;], indeterminate ([None]) until an extraction assigns it. *)
Fixpoint load_entries (fuel : nat) (st : istream) (value : option Z)
    (s : KeyArray.t Z) : outcome (KeyArray.t Z) istream :=
  match fuel with
  | O => OutOfFuel
  | S fuel' =>
      match read_int st with
      | (_, None) => Ok s None
      | (None, Some st1) => Ok s (Some st1)
      | (Some key, Some st1) =>
          if (key =? -1)%Z then Ok s (Some st1)   (* separator *)
          else
            let '(v, st2) := read_int (Some st1) in
            let value' := match v with Some x => Some x | None => value end in
            let actualIndex := key - KeyArray.offset s in
            if ((actualIndex >=? 0)
                && (actualIndex <? Z.of_nat (length (KeyArray.data s))))%Z
            then
              match value' with
              | None => Undefined
              | Some x =>
                  match vset (KeyArray.data s) actualIndex x,
                        vset (KeyArray.valid s) actualIndex true with
                  | Some d, Some vl =>
                      load_entries fuel' st2 value'
                        (KeyArray.set_base
                           {| Base.lastKey := KeyArray.lastKey s;
                              Base.elementCount :=
                                wrap64 (Base.elementCount (KeyArray.base s) + 1);
                              Base.data := d; Base.valid := vl;
                              Base.pool := KeyArray.pool s |} s)
                  | _, _ => Undefined
                  end
              end
            else load_entries fuel' st2 value' s
      end
  end.

(** [while (file >> key) overflowQueue.push(key);] *)
Fixpoint load_queue (fuel : nat) (st : istream) (s : KeyArray.t Z)
  : outcome (KeyArray.t Z) unit :=
  match fuel with
  | O => OutOfFuel
  | S fuel' =>
      match read_int st with
      | (Some key, Some st1) =>
          load_queue fuel' (Some st1)
            (KeyArray.set_overflowQueue (KeyArray.overflowQueue s ++ [key]) s)
      | _ => Ok s tt
      end
  end.

Definition loadFromFile (file : string) (s : KeyArray.t Z)
  : outcome (KeyArray.t Z) unit :=
  let fuel := S (String.length file) in
  let st := getline (Some file) in                       (* version: 2.0 *)
  let '(_, st) := read_word st in
  let '(v, st) := read_word st in
  let s := KeyArray.set_name (assign v (KeyArray.name s)) s in
  let '(_, st) := read_word st in
  let '(v, st) := read_int st in
  let s := KeyArray.set_offset (assign v (KeyArray.offset s)) s in
  let '(_, st) := read_word st in
  let '(v, st) := read_int st in
  let lastKey := assign v (KeyArray.lastKey s) in
  let with_base d vl n p :=
    KeyArray.set_base
      {| Base.lastKey := lastKey; Base.elementCount := n;
         Base.data := d; Base.valid := vl; Base.pool := p |} s in
  let effectiveSize := lastKey + 1 in
  match vresize (KeyArray.data s) effectiveSize 0 with
  | None =>
      Throw LengthError
        (with_base (KeyArray.data s) (KeyArray.valid s)
           (Base.elementCount (KeyArray.base s)) (KeyArray.pool s))
  | Some d =>
      match vresize (KeyArray.valid s) effectiveSize false with
      | None =>
          Throw LengthError
            (with_base d (KeyArray.valid s)
               (Base.elementCount (KeyArray.base s)) (KeyArray.pool s))
      | Some vl =>
          let s :=
            with_base d vl 0
              (KeyPool.reset (KeyArray.offset s) lastKey (KeyArray.pool s)) in
          let '(_, st) := read_word st in
          let '(v, st) := read_bool st in
          let s := KeyArray.set_resizingEnabled
                     (assign v (KeyArray.resizingEnabled s)) s in
          let '(_, st) := read_word st in
          let '(v, st) := read_bool st in
          let s := KeyArray.set_queueEnabled
                     (assign v (KeyArray.queueEnabled s)) s in
          let '(_, st) := read_word st in
          let '(_, st) := read_int st in                 (* queueSize *)
          let '(_, st) := read_word st in                (* entries: *)
          match load_entries fuel st None s with
          | Ok s st =>
              let '(_, st) := read_word st in            (* queueEntries: *)
              load_queue fuel st s
          | Throw e s => Throw e s
          | Undefined => Undefined
          | OutOfFuel => OutOfFuel
          end
      end
  end.

End Snapshot.

(** * Vocabulary of the properties *)

(** The same outcome, with the state it leaves mapped by [f]. *)
Definition outcome_map {St A} (f : St -> St) (o : outcome St A) : outcome St A :=
  match o with
  | Ok s a => Ok (f s) a
  | Throw e s => Throw e (f s)
  | Undefined => Undefined
  | OutOfFuel => OutOfFuel
  end.

(** The integers [lo, lo+1, ..., lo+n-1]. *)
Fixpoint zrange (lo : Z) (n : nat) : list Z :=
  match n with
  | O => []
  | S n' => lo :: zrange (lo + 1) n'
  end.

(** The number of [true] flags of a validity vector. *)
Fixpoint count_true (l : list bool) : Z :=
  match l with
  | [] => 0
  | b :: l' => (if b then 1 else 0) + count_true l'
  end.

(** [n] calls of [pop] in a row: the keys they return, in order, and
    the pool they leave; [None] when one of them throws. *)
Fixpoint pop_n (n : nat) (p : KeyPool.t) : option (list Z * KeyPool.t) :=
  match n with
  | O => Some ([], p)
  | S n' =>
      match KeyPool.pop p with
      | None => None
      | Some (k, p') =>
          match pop_n n' p' with
          | None => None
          | Some (ks, p'') => Some (k :: ks, p'')
          end
      end
  end.

Module BaseRun.
Section WithT.

Context {T : Type}.

(** Inserting the values of a list one after the other; the keys
    returned, in order. *)
Fixpoint insert_all (vs : list T) (s : Base.t T) : outcome (Base.t T) (list Z) :=
  match vs with
  | [] => Ok s []
  | v :: vs' =>
      match Base.insert v s with
      | Ok s1 k =>
          match insert_all vs' s1 with
          | Ok s2 ks => Ok s2 (k :: ks)
          | o => o
          end
      | Throw e s1 => Throw e s1
      | Undefined => Undefined
      | OutOfFuel => OutOfFuel
      end
  end.

(** A later use of the store: inserts and removals in any order. *)
Inductive op : Type :=
| Insert (v : T)
| Remove (key : Z).

(** The keys that the inserts of a run return.  A call that throws
    leaves the store in the state of the throw and the run goes on. *)
Fixpoint returned_keys (ops : list op) (s : Base.t T) : list Z :=
  match ops with
  | [] => []
  | Insert v :: ops' =>
      match Base.insert v s with
      | Ok s' k => k :: returned_keys ops' s'
      | Throw _ s' => returned_keys ops' s'
      | _ => []
      end
  | Remove key :: ops' =>
      match Base.remove key s with
      | Ok s' _ | Throw _ s' => returned_keys ops' s'
      | _ => []
      end
  end.

(** A store that only ever issued fresh ids: the ids below the
    frontier [n] are live, nothing is on the recycle stack. *)
Definition filled (limit n : Z) (s : Base.t T) : Prop :=
  Base.lastKey s = limit - 1
  /\ Base.pool s = {| KeyPool.nextKey := n; KeyPool.maxKey := limit - 1; KeyPool.pool := [] |}
  /\ Z.of_nat (length (Base.data s)) = limit
  /\ Z.of_nat (length (Base.valid s)) = limit
  /\ forall i, 0 <= i < n -> vget (Base.valid s) i = Some true.


(** What keeps [i] from being issued again: it is below the frontier
    and not on the recycle stack. *)
Definition retired (i : Z) (s : Base.t T) : Prop :=
  i < KeyPool.nextKey (Base.pool s) /\ i ∉ KeyPool.pool (Base.pool s).

(** The number of [insert] calls of a run. *)
Fixpoint count_inserts (ops : list op) : nat :=
  match ops with
  | [] => O
  | Insert _ :: ops' => S (count_inserts ops')
  | Remove _ :: ops' => count_inserts ops'
  end.

(** The sizes of a slot store of at least one slot: both vectors have
    [lastKey + 1] slots, the pool is bounded by [lastKey], its recycle
    stack is empty, and no slot at or beyond the frontier is valid. *)
Definition sound (s : Base.t T) : Prop :=
  0 <= Base.lastKey s
  /\ Z.of_nat (length (Base.data s)) = Base.lastKey s + 1
  /\ Z.of_nat (length (Base.valid s)) = Base.lastKey s + 1
  /\ KeyPool.pool (Base.pool s) = []
  /\ 0 <= KeyPool.nextKey (Base.pool s)
  /\ KeyPool.maxKey (Base.pool s) = Base.lastKey s
  /\ (forall k, KeyPool.nextKey (Base.pool s) <= k ->
                vget (Base.valid s) k <> Some true).


End WithT.
End BaseRun.

Module Run.
Section WithT.

Context {T : Type}.
Context (T0 : T) `{!EqDecision T}.

(** The mutating public member functions of [KeyArray<T>], with the
    exception of [loadFromFile], which is [Snapshot.loadFromFile] and is
    not an operation of the runs below.  [AssignAt] is an assignment
    through the reference returned by [at]; [AssignQueue] is any change
    made through the reference returned by [getQueue()]. *)
Inductive op : Type :=
| Insert (v : T)
| Remove (key : Z)
| AssignAt (key : Z) (x : T)
| Clear
| EnableDynamicResizing
| DisableDynamicResizing (purgeData : bool)
| ContinueCopyStep
| SwitchToResizedData
| EnableQueue
| DisableQueue
| ClearQueue
| AssignQueue (q : list T)
| SetName (n : string)
| Swap (key1 key2 : Z).

Definition forget {A} (o : outcome (KeyArray.t T) A) : outcome (KeyArray.t T) unit :=
  match o with
  | Ok s _ => Ok s tt
  | Throw e s => Throw e s
  | Undefined => Undefined
  | OutOfFuel => OutOfFuel
  end.

Definition step (o : op) (s : KeyArray.t T) : outcome (KeyArray.t T) unit :=
  match o with
  | Insert v => forget (KeyArray.insert T0 v s)
  | Remove key => KeyArray.remove key s
  | AssignAt key x => KeyArray.assign_at key x s
  | Clear => KeyArray.clear T0 s
  | EnableDynamicResizing => KeyArray.enableDynamicResizing T0 s
  | DisableDynamicResizing b => Ok (KeyArray.disableDynamicResizing b s) tt
  | ContinueCopyStep => KeyArray.continueCopyStep s
  | SwitchToResizedData => KeyArray.switchToResizedData T0 s
  | EnableQueue => Ok (KeyArray.enableQueue s) tt
  | DisableQueue => Ok (KeyArray.disableQueue s) tt
  | ClearQueue => Ok (KeyArray.clearQueue s) tt
  | AssignQueue q => Ok (KeyArray.set_overflowQueue q s) tt
  | SetName n => Ok (KeyArray.setName n s) tt
  | Swap key1 key2 => KeyArray.swap key1 key2 s
  end.

(** A run of operations.  The object outlives an exception, in the
    state of the throw; undefined behaviour ends the run. *)
Fixpoint run (ops : list op) (s : KeyArray.t T) : option (KeyArray.t T) :=
  match ops with
  | [] => Some s
  | o :: ops' =>
      match final_state (step o s) with
      | Some s' => run ops' s'
      | None => None
      end
  end.

(** Inserting the values of a list one after the other; the keys
    returned, in order. *)
Fixpoint insert_all (vs : list T) (s : KeyArray.t T)
  : outcome (KeyArray.t T) (list Z) :=
  match vs with
  | [] => Ok s []
  | v :: vs' =>
      match KeyArray.insert T0 v s with
      | Ok s1 k =>
          match insert_all vs' s1 with
          | Ok s2 ks => Ok s2 (k :: ks)
          | o => o
          end
      | Throw e s1 => Throw e s1
      | Undefined => Undefined
      | OutOfFuel => OutOfFuel
      end
  end.

(** The number of logical keys [k] in [lo, lo + n) with [hasKey(k)]. *)
Fixpoint count_keys (s : KeyArray.t T) (lo : Z) (n : nat) : Z :=
  match n with
  | O => 0
  | S n' =>
      (match KeyArray.hasKey lo s with Val true => 1 | _ => 0 end)
      + count_keys s (lo + 1) n'
  end.

(** What the operations that do not deal with the queue leave alone. *)
Definition same_queue (s s' : KeyArray.t T) : Prop :=
  KeyArray.overflowQueue s' = KeyArray.overflowQueue s
  /\ KeyArray.queueEnabled s' = KeyArray.queueEnabled s.

(** The shadow store is in step with the active one (offset [0],
    resizing enabled): every live slot below the copy cursor has its
    value and its validity in the shadow; a copy that is no longer in
    progress has passed the last key; the shadow pool has an empty
    recycle stack and hands out only ids beyond the last key. *)
Definition synced (s : KeyArray.t T) : Prop :=
  KeyArray.resizingEnabled s = true
  /\ KeyArray.offset s = 0
  /\ 0 <= KeyArray.copyIndex s
  /\ (KeyArray.copyInProgress s = false -> KeyArray.lastKey s < KeyArray.copyIndex s)
  /\ (forall i x, 0 <= i < KeyArray.copyIndex s ->
        vget (KeyArray.valid s) i = Some true ->
        vget (KeyArray.data s) i = Some x ->
        vget (KeyArray.newValid s) i = Some true
        /\ vget (KeyArray.newData s) i = Some x)
  /\ KeyPool.pool (KeyArray.newPool s) = []
  /\ (forall p, 0 <= p <= KeyArray.lastKey s ->
        p < KeyPool.nextKey (KeyArray.newPool s)).


(** The sizes of a store at offset [0] whose resizer is enabled and which
    was only inserted into since: active vectors of [lastKey + 1] slots
    with at least one slot, shadow vectors of twice that, a pool with an
    empty recycle stack bounded by [lastKey], the shadow pool for the
    ids beyond, and the cursor within the active store. *)
Definition shadow_sized (s : KeyArray.t T) : Prop :=
  KeyArray.resizingEnabled s = true
  /\ KeyArray.offset s = 0
  /\ 0 <= KeyArray.lastKey s
  /\ Z.of_nat (length (KeyArray.data s)) = KeyArray.lastKey s + 1
  /\ Z.of_nat (length (KeyArray.valid s)) = KeyArray.lastKey s + 1
  /\ Z.of_nat (length (KeyArray.newData s)) = 2 * (KeyArray.lastKey s + 1)
  /\ Z.of_nat (length (KeyArray.newValid s)) = 2 * (KeyArray.lastKey s + 1)
  /\ KeyPool.pool (KeyArray.pool s) = []
  /\ 0 <= KeyPool.nextKey (KeyArray.pool s)
  /\ KeyPool.maxKey (KeyArray.pool s) = KeyArray.lastKey s
  /\ KeyArray.newPool s
     = KeyPool.make (KeyArray.lastKey s + 1) (2 * KeyArray.lastKey s + 1)
  /\ 0 <= KeyArray.copyIndex s <= KeyArray.lastKey s + 1.


(** The operations other than enabling the resizer. *)
Definition plain (o : op) : Prop :=
  match o with
  | EnableDynamicResizing => False
  | _ => True
  end.

(** A store at offset [0] whose resizer is off and whose count is the
    number of valid flags: vectors of [lastKey + 1] slots, a capacity
    within [int], an empty recycle stack, and no valid slot at or beyond
    the frontier. *)
Definition counted (s : KeyArray.t T) : Prop :=
  KeyArray.resizingEnabled s = false
  /\ 0 <= KeyArray.lastKey s < 2 ^ 31
  /\ Z.of_nat (length (KeyArray.data s)) = KeyArray.lastKey s + 1
  /\ Z.of_nat (length (KeyArray.valid s)) = KeyArray.lastKey s + 1
  /\ KeyPool.pool (KeyArray.pool s) = []
  /\ 0 <= KeyPool.nextKey (KeyArray.pool s)
  /\ KeyPool.maxKey (KeyArray.pool s) = KeyArray.lastKey s
  /\ (forall k, KeyPool.nextKey (KeyArray.pool s) <= k ->
                vget (KeyArray.valid s) k <> Some true)
  /\ KeyArray.size s = count_true (KeyArray.valid s)
  /\ KeyArray.offset s = 0.

(** The slot vectors have [lastKey + 1] slots each, and the two shadow
    vectors have one length. *)
Definition shaped (s : KeyArray.t T) : Prop :=
  Z.of_nat (length (KeyArray.data s)) = KeyArray.lastKey s + 1
  /\ Z.of_nat (length (KeyArray.valid s)) = KeyArray.lastKey s + 1
  /\ length (KeyArray.newData s) = length (KeyArray.newValid s).



(** A store whose resizer is off and whose pool gives slots of the
    vectors only: at least one slot, vectors of [lastKey + 1] slots, a
    frontier that is not negative, a bound that is at most the last key,
    and recycled ids within [0, lastKey]. *)
Definition slotted (s : KeyArray.t T) : Prop :=
  KeyArray.resizingEnabled s = false
  /\ 0 <= KeyArray.lastKey s
  /\ Z.of_nat (length (KeyArray.data s)) = KeyArray.lastKey s + 1
  /\ Z.of_nat (length (KeyArray.valid s)) = KeyArray.lastKey s + 1
  /\ 0 <= KeyPool.nextKey (KeyArray.pool s)
  /\ KeyPool.maxKey (KeyArray.pool s) <= KeyArray.lastKey s
  /\ Forall (fun k => 0 <= k <= KeyArray.lastKey s)
        (KeyPool.pool (KeyArray.pool s)).

(** The operations other than [clear], [clearQueue] and a change that
    the caller makes through the reference returned by [getQueue()]. *)
Definition keeps_queue (o : op) : Prop :=
  match o with
  | Clear | ClearQueue | AssignQueue _ => False
  | _ => True
  end.


(** A store as one of the three constructors leaves it, with at least
    one slot and at most [2^31]. *)
Definition constructed (s : KeyArray.t T) : Prop :=
  (exists nm, KeyArray.make_named T0 nm = Some s)
  \/ (exists limit nm,
        KeyArray.make_limit T0 limit nm = Some s /\ 1 <= limit <= 2 ^ 31)
  \/ (exists a b nm,
        KeyArray.make_range T0 a b nm = Some s
        /\ 1 <= Z.max a b - Z.min a b <= 2 ^ 31).

(** Sizes that every operation keeps: the validity vector covers the
    keys up to [lastKey], the two shadow vectors have one length, and
    the shadow pool has a key to give. *)
Definition wf (s : KeyArray.t T) : Prop :=
  KeyArray.lastKey s + 1 <= Z.of_nat (length (KeyArray.valid s))
  /\ length (KeyArray.newData s) = length (KeyArray.newValid s)
  /\ KeyPool.empty (KeyArray.newPool s) = false.

End WithT.
End Run.

(** A string without white space: what [file >> std::string] reads
    back as one word. *)
Fixpoint no_space (w : string) : bool :=
  match w with
  | EmptyString => true
  | String c w' => negb (Snapshot.is_space c) && no_space w'
  end.

(** What is left to read on an input stream. *)
Definition remaining (st : Snapshot.istream) : nat :=
  match st with
  | Some s => String.length s
  | None => O
  end.


(** * Concrete stores used as instances *)

Module Examples.

(** [KeyArrayBase<int>(5)] *)
Definition base5 : Base.t Z :=
  {| Base.lastKey := 4; Base.elementCount := 0;
     Base.data := [0; 0; 0; 0; 0];
     Base.valid := [false; false; false; false; false];
     Base.pool := KeyPool.make 0 4 |}.

(** The state an operation leaves, [d] when it leaves none. *)
Definition after {A} (o : outcome (KeyArray.t Z) A) (d : KeyArray.t Z)
  : KeyArray.t Z :=
  match final_state o with
  | Some s => s
  | None => d
  end.

(** [KeyArray<int> a(1); a.insert(7);]: a full store. *)
Definition full1 : KeyArray.t Z :=
  {| KeyArray.base :=
       {| Base.lastKey := 0; Base.elementCount := 1;
          Base.data := [7]; Base.valid := [true];
          Base.pool := {| KeyPool.nextKey := 1; KeyPool.maxKey := 0;
                          KeyPool.pool := [] |} |};
     KeyArray.offset := 0; KeyArray.name := EmptyString;
     KeyArray.resizingEnabled := false; KeyArray.copyInProgress := false;
     KeyArray.copyIndex := 0;
     KeyArray.newData := []; KeyArray.newValid := [];
     KeyArray.newPool := KeyPool.default;
     KeyArray.queueEnabled := false; KeyArray.overflowQueue := [] |}.

(** [full1] after [enableQueue()] *)
Definition full1_queue : KeyArray.t Z := KeyArray.enableQueue full1.

(** [full1] after [enableDynamicResizing()] *)
Definition full1_resizing : KeyArray.t Z :=
  after (KeyArray.enableDynamicResizing 0 full1) full1.

(** [full1_queue] after a further [insert(8)]: the value is queued. *)
Definition buffered1 : KeyArray.t Z :=
  after (KeyArray.insert 0 8 full1_queue) full1_queue.

(** [KeyArray<int> a(-5, 5);] *)
Definition neg_empty : KeyArray.t Z :=
  default full1 (KeyArray.make_range 0 (-5) 5 EmptyString).

(** [neg_empty] filled by ten inserts, then [enableQueue()]. *)
Definition neg_full : KeyArray.t Z :=
  KeyArray.enableQueue
    (after (Run.insert_all 0 [1; 2; 3; 4; 5; 6; 7; 8; 9; 10] neg_empty)
       neg_empty).

(** [KeyArray<int> a(1);] and [KeyArray<int> a(2);] *)
Definition fresh1 : KeyArray.t Z :=
  default full1 (KeyArray.make_limit 0 1 EmptyString).
Definition fresh2 : KeyArray.t Z :=
  default full1 (KeyArray.make_limit 0 2 EmptyString).

(** [fresh2] after [enableDynamicResizing()], then after the inserts of
    [10] and [20], then after the insert of [30], which switches. *)
Definition armed2 : KeyArray.t Z :=
  after (KeyArray.enableDynamicResizing 0 fresh2) fresh2.
Definition filled2 : KeyArray.t Z :=
  after (Run.insert_all 0 [10; 20] armed2) armed2.
Definition switched2 : KeyArray.t Z :=
  after (KeyArray.insert 0 30 filled2) filled2.

(** [KeyArray<int> a(10, 20);] and the same after
    [enableDynamicResizing()]. *)
Definition off10 : KeyArray.t Z :=
  default full1 (KeyArray.make_range 0 10 20 EmptyString).
Definition off10_enabled : KeyArray.t Z :=
  after (KeyArray.enableDynamicResizing 0 off10) off10.

(** [KeyArray<int> a(1, 4);] and the same after [insert(7)], which
    returns the key [1]. *)
Definition off1 : KeyArray.t Z :=
  default full1 (KeyArray.make_range 0 1 4 EmptyString).

(** A run on [fresh2] that disables resizing without purge between the
    copy of slot [0] and its removal. *)
Definition resurrect_ops : list (@Run.op Z) :=
  [Run.EnableDynamicResizing; Run.Insert 10;
   Run.DisableDynamicResizing false; Run.Remove 0;
   Run.EnableDynamicResizing; Run.Insert 20; Run.Insert 30].
Definition resurrected : KeyArray.t Z :=
  default fresh2 (Run.run 0 resurrect_ops fresh2).

(** The content of the file that [saveToFile] writes, the empty file
    when it does not return. *)
Definition file_of (s : KeyArray.t Z) : string :=
  match Snapshot.saveToFile s with
  | Val f => f
  | _ => EmptyString
  end.

(** Snapshots of [full1] and [buffered1], and the stores they load
    into. *)
Definition full1_file : string := file_of full1.
Definition reloaded1 : KeyArray.t Z :=
  after (Snapshot.loadFromFile full1_file full1) full1.
Definition reinserted1 : KeyArray.t Z :=
  after (KeyArray.insert 0 9 reloaded1) reloaded1.
Definition buffered1_file : string := file_of buffered1.
Definition restored1 : KeyArray.t Z :=
  after (Snapshot.loadFromFile buffered1_file fresh1) fresh1.
Definition reloaded_same1 : KeyArray.t Z :=
  after (Snapshot.loadFromFile buffered1_file buffered1) buffered1.

End Examples.

(** The calls of [main] (src/main.cpp), on [KeyArray<std::string>]. *)
Module Driver.

Local Open Scope string_scope.

Definition after {A} (o : outcome (KeyArray.t string) A) (d : KeyArray.t string)
  : KeyArray.t string :=
  match final_state o with
  | Some s => s
  | None => d
  end.

Definition numbered (prefix : string) (n : nat) : list string :=
  map (fun i => prefix ++ Snapshot.show_int (Z.of_nat i)) (seq 0 n).

(** [KeyArray<std::string> arr("MyArray");] *)
Definition arr0 : KeyArray.t string :=
  default (KeyArray.of_base (Base.mk 0 0 [] [] KeyPool.default) 0 EmptyString)
    (KeyArray.make_named EmptyString "MyArray").
Definition arr1 : KeyArray.t string :=
  after (Run.insert_all EmptyString ["apple"; "banana"; "cherry"] arr0) arr0.
Definition arr2 : KeyArray.t string :=
  after (KeyArray.assign_at 1 "blueberry" arr1) arr1.
Definition arr3 : KeyArray.t string := after (KeyArray.swap 0 2 arr2) arr2.
Definition arr4 : KeyArray.t string := after (KeyArray.remove 0 arr3) arr3.
Definition arr5 : KeyArray.t string :=
  after (KeyArray.clear EmptyString arr4) arr4.
Definition arr6 : KeyArray.t string :=
  after (KeyArray.enableDynamicResizing EmptyString arr5) arr5.
Definition arr7 : KeyArray.t string :=
  after (Run.insert_all EmptyString (numbered "item" 150) arr6) arr6.
Definition arr8 : KeyArray.t string :=
  KeyArray.enableQueue (KeyArray.disableDynamicResizing true arr7).
Definition arr9 : KeyArray.t string :=
  after (Run.insert_all EmptyString (numbered "overflow_" 200) arr8) arr8.

End Driver.

(** * Properties *)

(** ** The driver

    The embedding gives what [main] prints as its expected output. *)

Lemma driver_expected_output :
  KeyArray.getName Driver.arr0 = "MyArray"%string
  /\ KeyArray.empty Driver.arr0 = true
  /\ (exists s, Run.insert_all EmptyString
                  ["apple"; "banana"; "cherry"]%string Driver.arr0
                = Ok s [0; 1; 2])
  /\ KeyArray.size Driver.arr1 = 3
  /\ KeyArray.at_ 1 Driver.arr1 = Val "banana"%string
  /\ KeyArray.at_ 1 Driver.arr2 = Val "blueberry"%string
  /\ KeyArray.hasKey 0 Driver.arr2 = Val true
  /\ KeyArray.hasKey 99 Driver.arr2 = Val false
  /\ KeyArray.contains "apple"%string Driver.arr2 = Val true
  /\ KeyArray.at_ 0 Driver.arr3 = Val "cherry"%string
  /\ KeyArray.at_ 2 Driver.arr3 = Val "apple"%string
  /\ KeyArray.size Driver.arr4 = 2
  /\ KeyArray.hasKey 0 Driver.arr4 = Val false
  /\ KeyArray.size Driver.arr5 = 0
  /\ KeyArray.empty Driver.arr5 = true
  /\ KeyArray.size Driver.arr7 = 150
  /\ KeyArray.isDynamicResizingEnabled Driver.arr7 = true
  /\ KeyArray.getQueueSize Driver.arr9 = 150
  /\ KeyArray.getQueueSize (KeyArray.clearQueue Driver.arr9) = 0.
Proof.
  split_and!; try (vm_compute; reflexivity).
  exists Driver.arr1. vm_compute. reflexivity.
Qed.

(** ** Vectors *)

Lemma vset_Some {A} (v v' : list A) i x :
  vset v i x = Some v' ->
  0 <= i < Z.of_nat (length v) /\ v' = <[Z.to_nat i := x]> v.
Proof.
  unfold vset. destruct (0 <=? i) eqn:H0; simpl; [|discriminate].
  destruct (i <? Z.of_nat (length v)) eqn:H1; [|discriminate].
  intros [= <-]. split; [lia | reflexivity].
Qed.

Lemma vset_length {A} (v v' : list A) i x :
  vset v i x = Some v' -> length v' = length v.
Proof. intros [_ ->]%vset_Some. apply length_insert. Qed.

Lemma vset_in_range {A} (v : list A) i x :
  0 <= i < Z.of_nat (length v) -> vset v i x = Some (<[Z.to_nat i := x]> v).
Proof.
  intros H. unfold vset.
  destruct (0 <=? i) eqn:H0; [|lia]. destruct (i <? Z.of_nat (length v)) eqn:H1; [|lia].
  reflexivity.
Qed.

Lemma vget_vset_eq {A} (v v' : list A) i x :
  vset v i x = Some v' -> vget v' i = Some x.
Proof.
  intros [Hi ->]%vset_Some. unfold vget.
  destruct (i <? 0) eqn:H0; [lia|]. apply list_lookup_insert_eq. lia.
Qed.

Lemma vget_vset_ne {A} (v v' : list A) i j x :
  vset v i x = Some v' -> i <> j -> vget v' j = vget v j.
Proof.
  intros [Hi ->]%vset_Some Hne. unfold vget.
  destruct (j <? 0) eqn:H0; [reflexivity|]. apply list_lookup_insert_ne. lia.
Qed.

Lemma vget_Some_range {A} (v : list A) i x :
  vget v i = Some x -> 0 <= i < Z.of_nat (length v).
Proof.
  unfold vget. destruct (i <? 0) eqn:H0; [discriminate|].
  intros H%lookup_lt_Some. lia.
Qed.

Lemma vget_in_range {A} (v : list A) i :
  0 <= i < Z.of_nat (length v) -> is_Some (vget v i).
Proof.
  intros H. unfold vget. destruct (i <? 0) eqn:H0; [lia|].
  apply lookup_lt_is_Some. lia.
Qed.

Lemma vresize_Some {A} (v v' : list A) n x :
  vresize v n x = Some v' -> 0 <= n /\ Z.of_nat (length v') = n.
Proof.
  unfold vresize. destruct (n <? 0) eqn:H0; [discriminate|].
  intros [= <-]. split; [lia|].
  rewrite length_app, length_take, length_replicate. lia.
Qed.

Lemma vresize_nonneg {A} (v : list A) n x :
  0 <= n -> is_Some (vresize v n x).
Proof. intros H. unfold vresize. destruct (n <? 0) eqn:H0; [lia|]. eauto. Qed.

Lemma vmake_Some {A} (v' : list A) n x :
  vmake n x = Some v' -> 0 <= n /\ Z.of_nat (length v') = n.
Proof.
  unfold vmake. destruct (n <? 0) eqn:H0; [discriminate|].
  intros [= <-]. rewrite length_replicate. lia.
Qed.

(** ** KeyPool *)

Lemma push_below_frontier id p :
  id < KeyPool.nextKey p -> KeyPool.push id p = p.
Proof.
  intros H. unfold KeyPool.push.
  destruct (id >=? KeyPool.nextKey p) eqn:E; [lia | reflexivity].
Qed.

Lemma push_spec id p :
  KeyPool.push id p =
    if decide (KeyPool.nextKey p <= id <= KeyPool.maxKey p)
    then {| KeyPool.nextKey := KeyPool.nextKey p;
            KeyPool.maxKey := KeyPool.maxKey p;
            KeyPool.pool := id :: KeyPool.pool p |}
    else p.
Proof.
  unfold KeyPool.push.
  destruct (id >=? KeyPool.nextKey p) eqn:E1, (id <=? KeyPool.maxKey p) eqn:E2;
    simpl; case_decide; try reflexivity; lia.
Qed.

Section BaseProps.
Context {T : Type}.
Implicit Types (s : Base.t T) (v : T).
Import BaseRun.

Lemma insert_filled limit n s v :
  filled limit n s -> 0 <= n < limit ->
  exists s', Base.insert v s = Ok s' n /\ filled limit (n + 1) s'.
Proof.
  intros (HL & HP & HD & HV & Hval) Hn.
  unfold Base.insert. rewrite HP. unfold KeyPool.empty, KeyPool.pop. simpl.
  destruct (n >? limit - 1) eqn:E; [lia|].
  rewrite !vset_in_range by lia.
  eexists; split; [reflexivity|].
  repeat split; simpl; rewrite ?length_insert; try done.
  intros i Hi. destruct (decide (i = n)) as [->|Hne].
  - eapply vget_vset_eq, vset_in_range; lia.
  - erewrite vget_vset_ne; [apply Hval; lia | apply vset_in_range; lia | done].
Qed.

Lemma insert_all_filled limit vs : forall n s,
  filled limit n s -> 0 <= n -> n + Z.of_nat (length vs) <= limit ->
  exists s', BaseRun.insert_all vs s = Ok s' (zrange n (length vs))
             /\ filled limit (n + Z.of_nat (length vs)) s'.
Proof.
  induction vs as [|v vs IH]; intros n s Hf Hn Hle;
    cbn [BaseRun.insert_all length zrange] in *.
  - exists s. split; [done|]. by rewrite Z.add_0_r.
  - rewrite Nat2Z.inj_succ in *.
    destruct (insert_filled limit n s v Hf) as (s1 & -> & Hf1); [lia|].
    destruct (IH (n + 1) s1 Hf1) as (s2 & -> & Hf2); [lia..|].
    exists s2. split; [done|].
    by replace (n + Z.succ (Z.of_nat (length vs)))
      with (n + 1 + Z.of_nat (length vs)) by lia.
Qed.

Lemma make_filled (T0 : T) limit s :
  Base.make T0 limit = Some s -> 1 <= limit -> filled limit 0 s.
Proof.
  unfold Base.make. intros H Hl.
  destruct (vresize [] (limit - 1 + 1) T0) as [d|] eqn:Ed; [|done].
  destruct (vresize [] (limit - 1 + 1) false) as [vl|] eqn:Ev; [|done].
  injection H as <-. apply vresize_Some in Ed as [_ Ed], Ev as [_ Ev].
  repeat split; simpl; try lia.
  unfold KeyPool.make. destruct (0 >? limit - 1) eqn:E; [lia | done].
Qed.

Lemma remove_filled limit n s i :
  filled limit n s -> 0 <= i < n -> n <= limit ->
  exists s', Base.remove i s = Ok s' tt /\ Base.pool s' = Base.pool s.
Proof.
  intros (HL & HP & HD & HV & Hval) Hi Hn.
  unfold Base.remove, Base.remove_with, Base.hasKey. rewrite HL.
  destruct (i >=? 0) eqn:E1; [|lia]. destruct (i <=? limit - 1) eqn:E2; [|lia].
  simpl. rewrite Hval by lia. rewrite vset_in_range by lia.
  eexists; split; [reflexivity|]. simpl.
  apply push_below_frontier. rewrite HP. simpl. lia.
Qed.

Lemma pop_retired i p k p' :
  i < KeyPool.nextKey p -> i ∉ KeyPool.pool p ->
  KeyPool.pop p = Some (k, p') ->
  k <> i /\ i < KeyPool.nextKey p' /\ i ∉ KeyPool.pool p'.
Proof.
  intros Hlt Hnin. unfold KeyPool.pop.
  destruct (KeyPool.pool p) as [|top rest] eqn:E.
  - destruct (KeyPool.nextKey p >? KeyPool.maxKey p); [done|].
    intros [= <- <-]. simpl. repeat split; [lia | lia | apply not_elem_of_nil].
  - intros [= <- <-]. simpl. apply not_elem_of_cons in Hnin as [? ?]. done.
Qed.

Lemma push_retired i key p :
  i < KeyPool.nextKey p -> i ∉ KeyPool.pool p ->
  i < KeyPool.nextKey (KeyPool.push key p) /\ i ∉ KeyPool.pool (KeyPool.push key p).
Proof.
  intros Hlt Hnin. rewrite push_spec. case_decide; simpl; [|done].
  split; [done|]. apply not_elem_of_cons. split; [lia | done].
Qed.

Lemma insert_retired i s v :
  retired i s ->
  match Base.insert v s with
  | Ok s' k => k <> i /\ retired i s'
  | Throw _ s' => retired i s'
  | _ => True
  end.
Proof.
  intros [Hlt Hnin]. unfold Base.insert.
  destruct (KeyPool.empty (Base.pool s)); [done|].
  destruct (KeyPool.pop (Base.pool s)) as [[k p']|] eqn:Ep; [|done].
  destruct (pop_retired _ _ _ _ Hlt Hnin Ep) as (? & ? & ?).
  destruct (vset (Base.data s) k v); [|done].
  destruct (vset (Base.valid s) k true); done.
Qed.

Lemma remove_retired i s key :
  retired i s ->
  match Base.remove key s with
  | Ok s' _ | Throw _ s' => retired i s'
  | _ => True
  end.
Proof.
  intros [Hlt Hnin]. unfold Base.remove, Base.remove_with.
  destruct (Base.hasKey key s) as [[|]| |]; try done.
  destruct (vset (Base.valid s) key false); [|done].
  unfold retired; simpl. by apply push_retired.
Qed.

Lemma returned_keys_retired i ops : forall s,
  retired i s -> i ∉ BaseRun.returned_keys ops s.
Proof.
  induction ops as [|[v|key] ops IH]; intros s Hr; simpl.
  - apply not_elem_of_nil.
  - pose proof (insert_retired i s v Hr) as H.
    destruct (Base.insert v s); try apply not_elem_of_nil.
    + destruct H. apply not_elem_of_cons; split; [done | by apply IH].
    + by apply IH.
  - pose proof (remove_retired i s key Hr) as H.
    destruct (Base.remove key s); try apply not_elem_of_nil; by apply IH.
Qed.

End BaseProps.

(** C1. [push(id)] puts [id] on the recycle stack exactly when
    [frontier <= id <= maxId] and otherwise returns the allocator as it
    was.  Consequently: in a fresh slot store of capacity [limit], the
    inserts of [n <= limit] values return the ids [0 .. n-1]; every such
    id [i] is then below the frontier, removing it succeeds and leaves the
    allocator unchanged (nothing is recycled), and no insert of any later
    run of inserts and removals returns [i]. *)
Theorem keypool_recycling_exact :
  (forall id p,
      KeyPool.push id p =
        if decide (KeyPool.nextKey p <= id <= KeyPool.maxKey p)
        then {| KeyPool.nextKey := KeyPool.nextKey p;
                KeyPool.maxKey := KeyPool.maxKey p;
                KeyPool.pool := id :: KeyPool.pool p |}
        else p)
  /\ (forall (T : Type) (T0 : T) (limit : Z) (vs : list T) (s0 : Base.t T)
             (i : Z) (ops : list BaseRun.op),
         Base.make T0 limit = Some s0 ->
         Z.of_nat (length vs) <= limit ->
         0 <= i < Z.of_nat (length vs) ->
         exists s1 s2,
           BaseRun.insert_all vs s0 = Ok s1 (zrange 0 (length vs))
           /\ i < KeyPool.nextKey (Base.pool s1)
           /\ Base.remove i s1 = Ok s2 tt
           /\ Base.pool s2 = Base.pool s1
           /\ i ∉ BaseRun.returned_keys ops s2).
Proof.
  split; [apply push_spec|].
  intros T T0 limit vs s0 i ops Hmk Hlen Hi.
  apply make_filled in Hmk; [|lia].
  destruct (insert_all_filled limit vs 0 s0 Hmk) as (s1 & Hall & Hf1); [lia..|].
  simpl in Hf1.
  destruct (remove_filled limit _ s1 i Hf1) as (s2 & Hrm & Hpool); [lia..|].
  exists s1, s2. destruct Hf1 as (_ & HP & _).
  repeat split; try done.
  - rewrite HP; simpl; lia.
  - apply returned_keys_retired. split; rewrite Hpool, HP; simpl; [lia | apply not_elem_of_nil].
Qed.

Lemma keypool_recycling_exact_witness :
  exists s1 s2,
    BaseRun.insert_all [10; 20; 30] Examples.base5 = Ok s1 (zrange 0 3)
    /\ 1 < KeyPool.nextKey (Base.pool s1)
    /\ Base.remove 1 s1 = Ok s2 tt
    /\ Base.pool s2 = Base.pool s1
    /\ 1 ∉ BaseRun.returned_keys
             [BaseRun.Insert 40; BaseRun.Remove 2; BaseRun.Insert 50] s2.
Proof.
  apply (proj2 keypool_recycling_exact Z 0 5 [10; 20; 30] Examples.base5 1).
  - reflexivity.
  - simpl. lia.
  - simpl. lia.
Defined.

Section KeyArrayFrame.
Context {T : Type} (T0 : T).
Implicit Types (s : KeyArray.t T) (v : T).
Import KeyArray.
Import Run.

Lemma set_base_id s : set_base (base s) s = s.
Proof. by destruct s. Qed.

Lemma on_base_throw {A} (f : Base.t T -> outcome (Base.t T) A) s e s' :
  (forall b e b', f b = Throw e b' -> b' = b) ->
  on_base f s = Throw e s' -> s' = s.
Proof.
  intros Hf. unfold on_base. destruct (f (base s)) eqn:E; try done.
  intros [= <- <-]. apply Hf in E as ->. apply set_base_id.
Qed.

(** Destructing every [match] and [if] of an unfolded operation. *)
Ltac crunch :=
  repeat (simplify_eq/=; try done;
          match goal with
          | |- context [match ?x with _ => _ end] => destruct x eqn:?
          | H : context [match ?x with _ => _ end] |- _ => destruct x eqn:?
          end);
  simplify_eq/=; try done.


Lemma same_queue_trans s1 s2 s3 :
  same_queue s1 s2 -> same_queue s2 s3 -> same_queue s1 s3.
Proof. intros [? ?] [? ?]. split; congruence. Qed.

Lemma continueCopyStep_queue s s' :
  final_state (continueCopyStep s) = Some s' -> same_queue s s'.
Proof. unfold continueCopyStep, same_queue. intros H. crunch. Qed.

Lemma copy_loop_queue fuel : forall s s',
  final_state (copy_loop fuel s) = Some s' -> same_queue s s'.
Proof.
  induction fuel as [|fuel IH]; intros s s'; simpl.
  - destruct (copyInProgress s); [done|]. by intros [= <-].
  - destruct (copyInProgress s); [|by intros [= <-]].
    destruct (continueCopyStep s) as [s1 []| | |] eqn:E; simpl; try done.
    + intros H. eapply same_queue_trans; [|by apply IH].
      apply continueCopyStep_queue. by rewrite E.
    + intros [= <-]. apply continueCopyStep_queue. by rewrite E.
Qed.

Lemma prepare_shadow_queue s s' :
  final_state (prepare_shadow T0 s) = Some s' -> same_queue s s'.
Proof. unfold prepare_shadow, same_queue. intros H. crunch. Qed.

Lemma switchToResizedData_queue s s' :
  final_state (switchToResizedData T0 s) = Some s' -> same_queue s s'.
Proof.
  unfold switchToResizedData. intros H.
  destruct (negb (resizingEnabled s) || copyInProgress s); [by simplify_eq/=|].
  simpl in H.
  destruct (resizingEnabled s); [|by simplify_eq/=].
  match type of H with context [prepare_shadow T0 ?x] =>
    pose proof (prepare_shadow_queue x) as Hp;
    destruct (prepare_shadow T0 x) as [s2 []| | |] eqn:E end;
    simplify_eq/=; try done.
  - destruct (Hp _ eq_refl). done.
  - destruct (Hp _ eq_refl). done.
Qed.

Lemma insert_tail_queue v s s' :
  final_state (insert_tail v s) = Some s' -> same_queue s s'.
Proof.
  unfold insert_tail, on_base, Base.insert. intros H.
  destruct (KeyPool.empty (Base.pool (base s))); [by simplify_eq/=|].
  destruct (KeyPool.pop (Base.pool (base s))) as [[k p]|]; [|by simplify_eq/=].
  destruct (vset (Base.data (base s)) k v); [|done].
  destruct (vset (Base.valid (base s)) k true); [|done].
  simpl in H.
  destruct (resizingEnabled s); [|by simplify_eq/=].
  destruct (vset (newData s) k v); [|done].
  destruct (vset (newValid s) k true); [|done].
  simpl in H.
  destruct (copyInProgress s); [|by simplify_eq/=].
  match type of H with context [continueCopyStep ?x] =>
    pose proof (continueCopyStep_queue x) as Hp;
    destruct (continueCopyStep x) as [s2 []| | |] eqn:E end;
    simplify_eq/=; try done; by destruct (Hp _ eq_refl).
Qed.

Lemma insert_resize_queue v s s' :
  final_state (insert_resize T0 v s) = Some s' -> same_queue s s'.
Proof.
  unfold insert_resize. intros H.
  pose proof (copy_loop_queue (copy_fuel s) s) as H1.
  destruct (copy_loop (copy_fuel s) s) as [s1 []| | |]; simplify_eq/=; try done; [|by apply H1].
  specialize (H1 _ eq_refl).
  pose proof (switchToResizedData_queue s1) as H2.
  destruct (switchToResizedData T0 s1) as [s2 []| | |]; simplify_eq/=; try done.
  - eapply same_queue_trans; [done|]. eapply same_queue_trans; [by apply H2|].
    by apply insert_tail_queue in H.
  - eapply same_queue_trans; [done|]. by apply H2.
Qed.


(** The operations of the resize path do not read [queueEnabled]. *)
Lemma continueCopyStep_queueEnabled b s :
  continueCopyStep (set_queueEnabled b s)
  = outcome_map (set_queueEnabled b) (continueCopyStep s).
Proof.
  destruct s. unfold continueCopyStep, lastKey, data, valid. cbn.
  repeat case_match; done.
Qed.

Lemma copy_loop_queueEnabled b fuel : forall s,
  copy_loop fuel (set_queueEnabled b s)
  = outcome_map (set_queueEnabled b) (copy_loop fuel s).
Proof.
  induction fuel as [|fuel IH]; intros s; simpl.
  - by destruct (copyInProgress s).
  - destruct (copyInProgress s); [|done].
    rewrite continueCopyStep_queueEnabled.
    destruct (continueCopyStep s) as [s1 []| | |]; simpl; try done.
Qed.

Lemma prepare_shadow_queueEnabled b s :
  prepare_shadow T0 (set_queueEnabled b s)
  = outcome_map (set_queueEnabled b) (prepare_shadow T0 s).
Proof.
  destruct s. unfold prepare_shadow, lastKey. cbn.
  repeat case_match; done.
Qed.

Lemma switchToResizedData_queueEnabled b s :
  switchToResizedData T0 (set_queueEnabled b s)
  = outcome_map (set_queueEnabled b) (switchToResizedData T0 s).
Proof.
  unfold switchToResizedData. simpl.
  destruct (negb (resizingEnabled s) || copyInProgress s); [done|].
  destruct (resizingEnabled s); [|done].
  match goal with |- context [prepare_shadow T0 (set_copyIndex 0 ?x)] =>
    change (set_copyIndex 0 x) with
      (set_queueEnabled b
         (set_copyIndex 0
            (set_newPool KeyPool.default
               (set_newValid [] (set_newData []
                  (set_base
                     {| Base.lastKey := Z.of_nat (length (newData s)) - 1;
                        Base.elementCount := Base.elementCount (base s);
                        Base.data := newData s;
                        Base.valid := newValid s;
                        Base.pool := newPool s |} s)))))) end.
  rewrite prepare_shadow_queueEnabled.
  match goal with |- context [prepare_shadow T0 ?x] =>
    destruct (prepare_shadow T0 x) as [s2 []| | |] end; done.
Qed.

Lemma insert_tail_queueEnabled b v s :
  insert_tail v (set_queueEnabled b s)
  = outcome_map (set_queueEnabled b) (insert_tail v s).
Proof.
  unfold insert_tail, on_base. simpl.
  destruct (Base.insert v (base s)) as [b1 k| | |]; simpl; try done.
  destruct (resizingEnabled s); [|done].
  destruct (vset (newData s) k v); [|done].
  destruct (vset (newValid s) k true); [|done].
  destruct (copyInProgress s); [|done].
  match goal with |- context [continueCopyStep (set_newValid ?nv (set_newData ?nd (set_base ?x (set_queueEnabled b s))))] =>
    change (set_newValid nv (set_newData nd (set_base x (set_queueEnabled b s))))
      with (set_queueEnabled b (set_newValid nv (set_newData nd (set_base x s)))) end.
  rewrite continueCopyStep_queueEnabled.
  match goal with |- context [continueCopyStep ?x] =>
    destruct (continueCopyStep x) as [s2 []| | |] end; done.
Qed.

Lemma insert_resize_queueEnabled b v s :
  insert_resize T0 v (set_queueEnabled b s)
  = outcome_map (set_queueEnabled b) (insert_resize T0 v s).
Proof.
  unfold insert_resize.
  change (copy_fuel (set_queueEnabled b s)) with (copy_fuel s).
  rewrite copy_loop_queueEnabled.
  destruct (copy_loop (copy_fuel s) s) as [s1 []| | |]; simpl; try done.
  rewrite switchToResizedData_queueEnabled.
  destruct (switchToResizedData T0 s1) as [s2 []| | |]; simpl; try done.
  apply insert_tail_queueEnabled.
Qed.

End KeyArrayFrame.

(** ** The virtual [hasKey] at offset [0]

    At offset [0] the key that [remove] and [at] pass on is the key they
    were given, and [KeyArray::hasKey] and [KeyArrayBase::hasKey] agree
    on it: the calls are the ones of the base class. *)

Section Dispatch.
Context {T : Type}.
Implicit Types (s : KeyArray.t T).
Import KeyArray.

Lemma hasKey_shifted_0 key s :
  offset s = 0 -> out_of_range key s = false ->
  hasKey (key - offset s) s = Base.hasKey (key - offset s) (base s).
Proof.
  intros Hoff Hout. unfold hasKey.
  replace (out_of_range (key - offset s) s) with false; [by rewrite Hoff, !Z.sub_0_r|].
  rewrite <- Hout. unfold out_of_range. by rewrite Hoff, !Z.sub_0_r.
Qed.

Lemma remove_offset_0 key s :
  offset s = 0 ->
  remove key s
  = if out_of_range key s then Throw InvalidKey s
    else
      match on_base (Base.remove (key - offset s)) s with
      | Ok s1 _ =>
          if resizingEnabled s1 then
            match vset (newValid s1) (key - offset s) false with
            | Some nv => Ok (set_newValid nv s1) tt
            | None => Undefined
            end
          else Ok s1 tt
      | o => o
      end.
Proof.
  intros Hoff. unfold remove. destruct (out_of_range key s) eqn:Hout; [done|].
  unfold on_base, Base.remove, Base.remove_with.
  by rewrite hasKey_shifted_0.
Qed.

Lemma at_offset_0 key s :
  offset s = 0 ->
  at_ key s
  = if out_of_range key s then Exn InvalidKey
    else Base.at_ (key - offset s) (base s).
Proof.
  intros Hoff. unfold at_. destruct (out_of_range key s) eqn:Hout; [done|].
  unfold Base.at_, Base.at_with. by rewrite hasKey_shifted_0.
Qed.

Lemma assign_at_offset_0 key (x : T) s :
  offset s = 0 ->
  assign_at key x s
  = if out_of_range key s then Throw InvalidKey s
    else on_base (Base.assign_at (key - offset s) x) s.
Proof.
  intros Hoff. unfold assign_at. destruct (out_of_range key s) eqn:Hout; [done|].
  unfold on_base, Base.assign_at, Base.assign_at_with, Base.at_with.
  by rewrite hasKey_shifted_0.
Qed.

End Dispatch.


(** ** Sizes kept by every operation *)

Lemma make_not_empty a b : KeyPool.empty (KeyPool.make a b) = false.
Proof.
  unfold KeyPool.make, KeyPool.empty.
  destruct (a >? b) eqn:E; simpl; lia.
Qed.

Lemma vresize_same_sign {A B} (v : list A) (w : list B) n x y :
  is_Some (vresize v n x) -> is_Some (vresize w n y).
Proof. unfold vresize. destruct (n <? 0); [by intros [? ?] | eauto]. Qed.

Section KeyArrayWf.
Context {T : Type} (T0 : T) `{!EqDecision T}.
Implicit Types (s : KeyArray.t T) (v : T).
Import KeyArray.
Import Run.

Ltac wf_crunch :=
  unfold wf, lastKey, valid in *; simpl in *; intuition (simplify_eq/=; eauto).

Lemma continueCopyStep_wf s s' :
  wf s -> final_state (continueCopyStep s) = Some s' -> wf s'.
Proof.
  unfold continueCopyStep, data. intros Hwf H.
  repeat case_match; simplify_eq/=;
    repeat match goal with
      | H : vset _ _ _ = Some _ |- _ => apply vset_length in H end;
    wf_crunch; congruence.
Qed.

Lemma continueCopyStep_frame s s' :
  final_state (continueCopyStep s) = Some s' ->
  base s' = base s /\ newPool s' = newPool s /\ offset s' = offset s
  /\ resizingEnabled s' = resizingEnabled s
  /\ length (newData s') = length (newData s).
Proof.
  unfold continueCopyStep, data. intros H.
  repeat case_match; simplify_eq/=;
    repeat match goal with
      | H : vset _ _ _ = Some _ |- _ => apply vset_length in H end; done.
Qed.

Lemma copy_loop_wf fuel : forall s s',
  wf s -> final_state (copy_loop fuel s) = Some s' -> wf s'.
Proof.
  induction fuel as [|fuel IH]; intros s s' Hwf; simpl.
  - destruct (copyInProgress s); [done|]. by intros [= <-].
  - destruct (copyInProgress s); [|by intros [= <-]].
    pose proof (continueCopyStep_wf s) as Hs.
    destruct (continueCopyStep s) as [s1 []| | |]; simpl in *; try done.
    + apply IH. by apply Hs.
    + by apply Hs.
Qed.

Lemma copy_loop_frame fuel : forall s s',
  final_state (copy_loop fuel s) = Some s' ->
  base s' = base s /\ newPool s' = newPool s /\ offset s' = offset s
  /\ resizingEnabled s' = resizingEnabled s
  /\ length (newData s') = length (newData s).
Proof.
  induction fuel as [|fuel IH]; intros s s'; simpl.
  - destruct (copyInProgress s); [done|]. by intros [= <-].
  - destruct (copyInProgress s); [|by intros [= <-]].
    pose proof (continueCopyStep_frame s) as Hs.
    destruct (continueCopyStep s) as [s1 []| | |]; simpl in *; try done.
    + intros H%IH. destruct (Hs _ eq_refl) as (? & ? & ? & ? & ?).
      destruct H as (? & ? & ? & ? & ?). repeat split; congruence.
    + by apply Hs.
Qed.

Lemma prepare_shadow_wf s s' :
  wf s -> final_state (prepare_shadow T0 s) = Some s' -> wf s'.
Proof.
  unfold prepare_shadow. intros Hwf H.
  destruct (vresize (newData s) _ T0) as [nd|] eqn:E1; [|by simplify_eq/=].
  destruct (vresize (newValid s) _ false) as [nv|] eqn:E2.
  - simplify_eq/=. apply vresize_Some in E1 as [_ E1], E2 as [_ E2].
    unfold wf in *. simpl. split; [apply Hwf|]. split; [lia|]. apply make_not_empty.
  - exfalso. eapply is_Some_None. rewrite <- E2.
    eapply vresize_same_sign. by rewrite E1.
Qed.

Lemma prepare_shadow_base s s' :
  final_state (prepare_shadow T0 s) = Some s' -> base s' = base s.
Proof. unfold prepare_shadow. intros H. repeat case_match; by simplify_eq/=. Qed.

Lemma switchToResizedData_wf s s' :
  wf s -> final_state (switchToResizedData T0 s) = Some s' -> wf s'.
Proof.
  unfold switchToResizedData. intros Hwf H.
  destruct (negb (resizingEnabled s) || copyInProgress s); [by simplify_eq/=|].
  simpl in H.
  match type of H with context [prepare_shadow T0 ?x] =>
    assert (Hwf1 : wf x) by (unfold wf, lastKey, valid in *; simpl; intuition lia);
    pose proof (prepare_shadow_wf x) as Hp end.
  destruct (resizingEnabled s); [|by simplify_eq/=].
  destruct (prepare_shadow T0 _) as [s2 []| | |]; simplify_eq/=; try done.
  - specialize (Hp _ Hwf1 eq_refl). by destruct s2.
  - by apply Hp.
Qed.

Lemma insert_tail_wf v s s' :
  wf s -> final_state (insert_tail v s) = Some s' -> wf s'.
Proof.
  unfold insert_tail, on_base, Base.insert. intros Hwf H.
  destruct (KeyPool.empty (Base.pool (base s))); [by simplify_eq/=; destruct s|].
  destruct (KeyPool.pop (Base.pool (base s))) as [[k p]|]; [|by simplify_eq/=; destruct s].
  destruct (vset (Base.data (base s)) k v) as [d|] eqn:Ed; [|done].
  destruct (vset (Base.valid (base s)) k true) as [vl|] eqn:Ev; [|done].
  simpl in H. apply vset_length in Ed, Ev.
  destruct (resizingEnabled s).
  - destruct (vset (newData s) k v) as [nd|] eqn:End; [|done].
    destruct (vset (newValid s) k true) as [nv|] eqn:Env; [|done].
    simpl in H. apply vset_length in End, Env.
    match type of H with context [if _ then match continueCopyStep ?x with _ => _ end else _] =>
      assert (Hwf1 : wf x) by (unfold wf, lastKey, valid in *; simpl; intuition congruence);
      pose proof (fun s2 => continueCopyStep_wf x s2 Hwf1) as Hp end.
    destruct (copyInProgress s); [|by injection H as <-].
    destruct (continueCopyStep _) as [s3 []| | |]; simplify_eq/=; try done; by apply Hp.
  - simplify_eq/=. unfold wf, lastKey, valid in *; simpl; intuition congruence.
Qed.

Lemma insert_wf v s s' :
  wf s -> final_state (insert T0 v s) = Some s' -> wf s'.
Proof.
  unfold insert, insert_resize. intros Hwf H.
  destruct (KeyPool.empty (pool s)); [|by eapply insert_tail_wf].
  destruct (resizingEnabled s).
  - pose proof (copy_loop_wf (copy_fuel s) s) as H1.
    destruct (copy_loop _ s) as [s1 []| | |]; simplify_eq/=; try done; [|by apply H1].
    specialize (H1 _ Hwf eq_refl).
    pose proof (switchToResizedData_wf s1) as H2.
    destruct (switchToResizedData T0 s1) as [s2 []| | |]; simplify_eq/=; try done.
    + eapply insert_tail_wf; [|done]. by apply H2.
    + by apply H2.
  - destruct (queueEnabled s); by simplify_eq/=.
Qed.

Lemma remove_wf key s s' :
  wf s -> final_state (remove key s) = Some s' -> wf s'.
Proof.
  unfold remove, on_base, Base.remove_with. intros Hwf H.
  repeat case_match; simplify_eq/=; try (by destruct s);
    repeat match goal with
      | H : vset _ _ _ = Some _ |- _ => apply vset_length in H end;
    unfold wf, lastKey, valid in *; simpl; intuition congruence.
Qed.

Lemma assign_at_wf key x s s' :
  wf s -> final_state (assign_at key x s) = Some s' -> wf s'.
Proof.
  unfold assign_at, on_base, Base.assign_at_with. intros Hwf H.
  repeat case_match; simplify_eq/=; try (by destruct s);
    repeat match goal with
      | H : vset _ _ _ = Some _ |- _ => apply vset_length in H end;
    unfold wf, lastKey, valid in *; simpl; intuition congruence.
Qed.

Lemma clear_wf s s' :
  wf s -> final_state (clear T0 s) = Some s' -> wf s'.
Proof.
  unfold clear, on_base, Base.clear. intros Hwf H.
  repeat case_match; simplify_eq/=; try (by destruct s);
    repeat match goal with
      | H : vmake _ _ = Some _ |- _ => apply vmake_Some in H as [? ?] end;
    unfold wf, lastKey, valid in *; simpl; intuition lia.
Qed.

Lemma enableDynamicResizing_wf s s' :
  wf s -> final_state (enableDynamicResizing T0 s) = Some s' -> wf s'.
Proof.
  unfold enableDynamicResizing. intros Hwf H.
  destruct (resizingEnabled s); [by simplify_eq/=|].
  destruct (copyIndex _ =? offset _); [|by simplify_eq/=].
  pose proof (prepare_shadow_wf (set_resizingEnabled true s) ) as Hp.
  destruct (prepare_shadow T0 _) as [s2 []| | |]; simplify_eq/=; try done.
  - specialize (Hp _ Hwf eq_refl). by destruct s2.
  - by apply Hp.
Qed.

Lemma swap_wf key1 key2 s s' :
  wf s -> final_state (swap key1 key2 s) = Some s' -> wf s'.
Proof.
  unfold swap. intros Hwf H.
  repeat case_match; simplify_eq/=; done.
Qed.

(** Every public operation keeps [wf], also when it throws. *)
Lemma step_wf o s s' :
  wf s -> final_state (step T0 o s) = Some s' -> wf s'.
Proof.
  intros Hwf. destruct o; simpl.
  - intros H. apply (insert_wf v s); [done|].
    by destruct (insert T0 v s).
  - by apply remove_wf.
  - by apply assign_at_wf.
  - by apply clear_wf.
  - by apply enableDynamicResizing_wf.
  - intros [= <-]. unfold disableDynamicResizing.
    destruct purgeData; unfold wf, purge, lastKey, valid in *; simpl; intuition.
  - by apply continueCopyStep_wf.
  - by apply switchToResizedData_wf.
  - by intros [= <-].
  - by intros [= <-].
  - by intros [= <-].
  - by intros [= <-].
  - by intros [= <-].
  - by apply swap_wf.
Qed.

Lemma run_wf ops : forall s s', wf s -> run T0 ops s = Some s' -> wf s'.
Proof.
  induction ops as [|o ops IH]; intros s s' Hwf; simpl.
  - by intros [= <-].
  - destruct (final_state (step T0 o s)) as [s1|] eqn:E; [|done].
    apply IH. by eapply step_wf.
Qed.

Lemma of_base_wf limit b off nm :
  Base.make T0 limit = Some b -> wf (of_base b off nm).
Proof.
  unfold Base.make. intros H.
  destruct (vresize [] (limit - 1 + 1) T0) as [d|] eqn:Ed; [|done].
  destruct (vresize [] (limit - 1 + 1) false) as [vl|] eqn:Ev; [|done].
  injection H as <-. apply vresize_Some in Ev as [_ Ev].
  unfold wf, lastKey, valid. simpl. split; [lia | done].
Qed.

Lemma make_wf s :
  (exists nm, make_named T0 nm = Some s)
  \/ (exists limit nm, make_limit T0 limit nm = Some s)
  \/ (exists a b nm, make_range T0 a b nm = Some s) ->
  wf s.
Proof.
  unfold make_named, make_limit, make_range.
  intros [(nm & H) | [(limit & nm & H) | (a & b & nm & H)]];
    apply bind_Some in H as (b' & Hb & [= <-]); by eapply of_base_wf.
Qed.

End KeyArrayWf.

(** ** Failures, totality of [hasKey], [clear] *)

Lemma pop_not_empty p :
  KeyPool.empty p = false -> is_Some (KeyPool.pop p).
Proof.
  unfold KeyPool.empty, KeyPool.pop.
  destruct (KeyPool.pool p); [|eauto]. intros ->. eauto.
Qed.

Section KeyArrayFailures.
Context {T : Type} (T0 : T) `{!EqDecision T}.
Implicit Types (s : KeyArray.t T) (v : T).
Import KeyArray.
Import Run.

Lemma continueCopyStep_no_throw s e s' : continueCopyStep s <> Throw e s'.
Proof. unfold continueCopyStep. repeat case_match; done. Qed.

Lemma copy_loop_no_throw fuel : forall s e s', copy_loop fuel s <> Throw e s'.
Proof.
  induction fuel as [|fuel IH]; intros s e s'; simpl.
  - by destruct (copyInProgress s).
  - destruct (copyInProgress s); [|done].
    pose proof (continueCopyStep_no_throw s) as Hs.
    destruct (continueCopyStep s) as [s1 []| | |]; first [done | apply IH].
Qed.

Lemma base_insert_throw v (b : Base.t T) e b' :
  Base.insert v b = Throw e b' ->
  e = PoolExhausted /\ KeyPool.empty (Base.pool b) = true /\ b' = b.
Proof.
  unfold Base.insert.
  destruct (KeyPool.empty (Base.pool b)) eqn:E; [by intros [= <- <-]|].
  destruct (pop_not_empty _ E) as [[k p] ->].
  repeat case_match; done.
Qed.

Lemma insert_tail_throw v s e s' :
  insert_tail v s = Throw e s' ->
  e = PoolExhausted /\ KeyPool.empty (pool s) = true /\ s' = s.
Proof.
  unfold insert_tail, on_base.
  destruct (Base.insert v (base s)) as [b k|e1 b| |] eqn:E; try done.
  - destruct (resizingEnabled _); [|done].
    destruct (vset _ k v); [|done]. destruct (vset _ k true); [|done].
    destruct (copyInProgress _); [|done].
    match goal with |- context [continueCopyStep ?x] =>
      pose proof (continueCopyStep_no_throw x) as Hs;
      destruct (continueCopyStep x) as [s3 []|e3 s3| |] end; try done.
    by destruct (Hs e3 s3).
  - intros [= <- <-]. apply base_insert_throw in E as (-> & ? & ->).
    split; [done|]. split; [done|]. apply set_base_id.
Qed.

Lemma prepare_shadow_throw s e s' :
  prepare_shadow T0 s = Throw e s' -> e = LengthError.
Proof.
  unfold prepare_shadow.
  destruct (vresize (newData s) _ T0); [|by intros [= <- _]].
  destruct (vresize (newValid s) _ false); [done | by intros [= <- _]].
Qed.

Lemma switchToResizedData_throw s e s' :
  switchToResizedData T0 s = Throw e s' -> e = ResizeNotReady \/ e = LengthError.
Proof.
  unfold switchToResizedData.
  destruct (negb (resizingEnabled s) || copyInProgress s); [intros [= <- _]; eauto|].
  simpl. destruct (resizingEnabled s); [|done].
  match goal with |- context [prepare_shadow T0 ?x] =>
    pose proof (prepare_shadow_throw x) as Hp;
    destruct (prepare_shadow T0 x) as [s3 []|e3 s3| |] end; try done.
  intros [= <- _]. right. by eapply Hp.
Qed.

Lemma switchToResizedData_pool s s2 :
  switchToResizedData T0 s = Ok s2 tt -> pool s2 = newPool s.
Proof.
  unfold switchToResizedData.
  destruct (negb (resizingEnabled s) || copyInProgress s); [done|]. simpl.
  destruct (resizingEnabled s); [|by intros [= <-]].
  match goal with |- context [prepare_shadow T0 ?x] =>
    pose proof (prepare_shadow_base T0 x) as Hp;
    destruct (prepare_shadow T0 x) as [s3 []| | |] end; try done.
  intros [= <-]. unfold pool. simpl. by rewrite (Hp _ eq_refl).
Qed.

Lemma insert_throw_PoolExhausted v s s' :
  wf s -> insert T0 v s = Throw PoolExhausted s' -> s' = s.
Proof.
  intros (_ & _ & Hnp). unfold insert.
  destruct (KeyPool.empty (pool s)) eqn:Eemp.
  - destruct (resizingEnabled s).
    + unfold insert_resize.
      pose proof (copy_loop_no_throw (copy_fuel s) s) as Hl.
      pose proof (copy_loop_frame (copy_fuel s) s) as Hf.
      destruct (copy_loop _ s) as [s1 []|e1 s1| |]; try done; [|by destruct (Hl e1 s1)].
      destruct (Hf _ eq_refl) as (_ & Hpool & _).
      pose proof (switchToResizedData_pool s1) as Hsw.
      destruct (switchToResizedData T0 s1) as [s2 []|e s2| |] eqn:Esw; try done.
      * intros (_ & Hemp & _)%insert_tail_throw.
        rewrite (Hsw _ eq_refl), Hpool in Hemp. congruence.
      * intros [= -> ->]. by apply switchToResizedData_throw in Esw as [?|?].
    + destruct (queueEnabled s); [done | by intros [= <-]].
  - intros (_ & Hemp & _)%insert_tail_throw. congruence.
Qed.

Lemma hasKey_no_throw key s e : hasKey key s <> Exn e.
Proof. unfold hasKey, Base.hasKey. repeat case_match; done. Qed.

Lemma remove_throw key s e s' :
  remove key s = Throw e s' -> (e = InvalidKey \/ e = KeyNotFound) /\ s' = s.
Proof.
  unfold remove, on_base, Base.remove_with.
  destruct (out_of_range key s); [intros [= <- <-]; eauto|].
  pose proof (hasKey_no_throw (key - offset s) s) as Hn.
  destruct (hasKey (key - offset s) s) as [[|]|e1|] eqn:E; try done.
  - destruct (vset _ _ false); [|done]. simpl.
    destruct (resizingEnabled s); [|done]. by destruct (vset _ _ false).
  - intros [= <- <-]. split; [eauto | apply set_base_id].
  - by destruct (Hn e1).
Qed.

Lemma base_at_throw (h : Z -> result bool) key (b : Base.t T) e :
  (forall k e', h k <> Exn e') ->
  Base.at_with h key b = Exn e -> e = KeyNotFound.
Proof.
  intros Hn. unfold Base.at_with. pose proof (Hn key) as Hk.
  destruct (h key) as [[|]|e1|]; [|congruence| |done].
  - by destruct (vget _ _).
  - by destruct (Hk e1).
Qed.

Lemma at_throw key s e :
  at_ key s = Exn e -> e = InvalidKey \/ e = KeyNotFound.
Proof.
  unfold at_. destruct (out_of_range key s); [intros [= <-]; eauto|].
  intros ->%base_at_throw; [eauto|]. intros k e'. apply hasKey_no_throw.
Qed.

Lemma assign_at_throw key x s e s' :
  assign_at key x s = Throw e s' -> (e = InvalidKey \/ e = KeyNotFound) /\ s' = s.
Proof.
  unfold assign_at, on_base, Base.assign_at_with.
  destruct (out_of_range key s); [intros [= <- <-]; eauto|].
  destruct (Base.at_with _ _ (base s)) as [x1|e1|] eqn:E; try done.
  - by destruct (vset _ _ x).
  - intros [= <- <-]. apply base_at_throw in E as ->.
    + split; [eauto | apply set_base_id].
    + intros k e'. apply hasKey_no_throw.
Qed.

Lemma swap_throw key1 key2 s e s' :
  swap key1 key2 s = Throw e s' -> e = InvalidKey /\ s' = s.
Proof.
  unfold swap.
  pose proof (hasKey_no_throw key1 s) as H1.
  pose proof (hasKey_no_throw key2 s) as H2.
  destruct (hasKey key1 s) as [[|]|e1|]; try done;
    [|by intros [= <- <-] | by destruct (H1 e1)].
  destruct (hasKey key2 s) as [[|]|e2|]; try done;
    [|by intros [= <- <-] | by destruct (H2 e2)].
  repeat case_match; done.
Qed.

Lemma switchToResizedData_not_ready s :
  resizingEnabled s = false \/ copyInProgress s = true ->
  switchToResizedData T0 s = Throw ResizeNotReady s.
Proof.
  unfold switchToResizedData. intros [-> | ->]; [done|].
  by rewrite orb_true_r.
Qed.

Lemma switchToResizedData_throw_not_ready s s' :
  switchToResizedData T0 s = Throw ResizeNotReady s' ->
  s' = s /\ (resizingEnabled s = false \/ copyInProgress s = true).
Proof.
  unfold switchToResizedData.
  destruct (resizingEnabled s) eqn:E1, (copyInProgress s) eqn:E2; simpl;
    try (intros [= <-]; by eauto).
  rewrite E1.
  match goal with |- context [prepare_shadow T0 ?x] =>
    pose proof (prepare_shadow_throw x) as Hp;
    destruct (prepare_shadow T0 x) as [s3 []|e3 s3| |] end; try done.
  intros [= -> _]. by specialize (Hp _ _ eq_refl).
Qed.

Lemma hasKey_total key s :
  wf s ->
  exists b, hasKey key s = Val b
            /\ (key < offset s \/ key > offset s + lastKey s -> b = false).
Proof.
  intros (Hsz & _). unfold hasKey, out_of_range, Base.hasKey.
  unfold lastKey, valid in *.
  destruct (key <? offset s) eqn:E1; simpl; [by eauto|].
  destruct (key >? Base.lastKey (base s) + offset s) eqn:E2; simpl; [by eauto|].
  destruct (key - offset s >=? 0) eqn:E3; [|lia].
  destruct (key - offset s <=? Base.lastKey (base s)) eqn:E4; [|lia].
  simpl. destruct (vget_in_range (Base.valid (base s)) (key - offset s)) as [b ->]; [lia|].
  exists b. split; [done | lia].
Qed.

Lemma clear_queue s s' :
  clear T0 s = Ok s' tt -> overflowQueue s' = [].
Proof.
  unfold clear, on_base. destruct (Base.clear T0 (base s)); try done.
  by intros [= <-].
Qed.

Lemma clear_returns s :
  -1 <= lastKey s -> exists s', clear T0 s = Ok s' tt.
Proof.
  intros H. unfold clear, on_base, Base.clear, vmake, lastKey in *.
  destruct (Base.lastKey (base s) + 1 <? 0) eqn:E; [lia|]. eauto.
Qed.

End KeyArrayFailures.

(** ** The loader: sizes kept, and enough fuel *)

Section LoadWf.
Import KeyArray.
Import Run.
Import Snapshot.
Local Opaque read_int read_word read_bool getline.

Lemma load_entries_wf fuel : forall st value s s',
  wf s -> final_state (load_entries fuel st value s) = Some s' -> wf s'.
Proof.
  induction fuel as [|fuel IH]; intros st value s s' Hwf; [done|]. simpl.
  destruct (read_int st) as [[key|] [st1|]]; try (by intros [= <-]).
  destruct (key =? -1); [by intros [= <-]|].
  destruct (read_int (Some st1)) as [v st2].
  destruct (_ && _); [|by apply IH].
  destruct (match v with Some x => Some x | None => value end) as [x|]; [|done].
  destruct (vset (data s) (key - offset s) x) as [d|] eqn:Ed; [|done].
  destruct (vset (valid s) (key - offset s) true) as [vl|] eqn:Ev; [|done].
  apply IH. apply vset_length in Ev.
  unfold wf, lastKey, valid in *; simpl; intuition congruence.
Qed.

Lemma load_queue_wf fuel : forall st s s',
  wf s -> final_state (load_queue fuel st s) = Some s' -> wf s'.
Proof.
  induction fuel as [|fuel IH]; intros st s s' Hwf; [done|]. simpl.
  destruct (read_int st) as [[key|] [st1|]]; try (by intros [= <-]).
  by apply IH.
Qed.

(** [loadFromFile] keeps [wf], whatever the file holds and also when
    [resize] throws. *)
Lemma loadFromFile_wf file s s' :
  wf s -> final_state (loadFromFile file s) = Some s' -> wf s'.
Proof.
  intros Hwf. unfold loadFromFile.
  repeat match goal with
         | |- context [let '(_, _) := ?x in _] => destruct x as [? ?]
         end.
  match goal with |- context [vresize (data _) ?n 0] =>
    destruct (vresize (data (set_offset _ (set_name _ s))) n 0) as [d|] eqn:Ed;
    [destruct (vresize (valid (set_offset _ (set_name _ s))) n false) as [vl|] eqn:Ev|]
  end.
  - repeat match goal with
           | |- context [let '(_, _) := ?x in _] => destruct x as [? ?]
           end.
    match goal with |- context [load_entries ?f ?st ?v ?x] =>
      pose proof (load_entries_wf f st v x) as He;
      destruct (load_entries f st v x) as [s1 st1| | |] end; try done.
    + destruct (read_word st1) as [? st2].
      apply load_queue_wf. apply He; [|done].
      apply vresize_Some in Ev as [_ Ev].
      unfold wf, lastKey, valid in *; simpl in *; intuition lia.
    + apply He. apply vresize_Some in Ev as [_ Ev].
      unfold wf, lastKey, valid in *; simpl in *; intuition lia.
  - exfalso. eapply is_Some_None. rewrite <- Ev.
    eapply vresize_same_sign. by rewrite Ed.
  - intros [= <-]. unfold vresize in Ed.
    match type of Ed with context [?n <? 0] => destruct (Z.ltb_spec0 n 0) end; [|done].
    unfold wf, lastKey, valid in *; simpl in *; intuition lia.
Qed.

Local Transparent read_int read_word read_bool getline.
End LoadWf.

Section LoadTotal.
Import KeyArray.
Import Snapshot.

Lemma skipws_le s : (String.length (skipws s) <= String.length s)%nat.
Proof. induction s as [|c s IH]; simpl; [lia|]. destruct (is_space c); simpl; lia. Qed.

Lemma drop_line_le s : (String.length (drop_line s) <= String.length s)%nat.
Proof.
  induction s as [|c s IH]; simpl; [lia|].
  destruct (nat_of_ascii c =? 10)%nat; simpl; lia.
Qed.

Lemma split_word_le s w r :
  split_word s = (w, r) -> (String.length r <= String.length s)%nat.
Proof.
  revert w r. induction s as [|c s IH]; intros w r; simpl.
  - intros [= <- <-]. simpl. lia.
  - destruct (is_space c); [intros [= <- <-]; simpl; lia|].
    destruct (split_word s) as [w1 r1]. intros [= <- <-].
    specialize (IH _ _ eq_refl). lia.
Qed.

Lemma read_digits_le s : forall acc seen v seen' r,
  read_digits acc seen s = (v, seen', r) ->
  (String.length r <= String.length s)%nat
  /\ (seen = false -> seen' = true -> (String.length r < String.length s)%nat).
Proof.
  induction s as [|c s IH]; intros acc seen v seen' r; simpl.
  - intros [= <- <- <-]. split; [simpl; lia | congruence].
  - destruct (digit c) as [d|].
    + intros H. apply IH in H as [H _]. split; lia.
    + intros [= <- <- <-]. split; [simpl; lia | congruence].
Qed.

Lemma substring_le s : forall n m,
  (String.length (substring n m s) <= String.length s)%nat.
Proof.
  induction s as [|c s IH]; intros n m; simpl.
  - destruct n, m; simpl; lia.
  - destruct n as [|n].
    + destruct m as [|m]; simpl; [lia|]. specialize (IH O m). lia.
    + specialize (IH n m). lia.
Qed.

Lemma getline_le st : (remaining (getline st) <= remaining st)%nat.
Proof.
  destruct st as [[|c s]|]; simpl; try lia.
  pose proof (drop_line_le s).
  destruct (nat_of_ascii c =? 10)%nat; simpl; lia.
Qed.

Lemma read_word_le st : (remaining (snd (read_word st)) <= remaining st)%nat.
Proof.
  destruct st as [s|]; simpl; [|lia].
  pose proof (skipws_le s) as H.
  destruct (skipws s) as [|c s'] eqn:E; simpl; [lia|].
  pose proof (split_word_le (String c s')) as H2. simpl in H2.
  destruct (is_space c); simpl in *; [lia|].
  destruct (split_word s') as [w r]. simpl. specialize (H2 _ _ eq_refl). lia.
Qed.

Lemma read_bool_le st : (remaining (snd (read_bool st)) <= remaining st)%nat.
Proof.
  destruct st as [s|]; simpl; [|lia].
  pose proof (skipws_le s) as H.
  destruct (skipws s) as [|c s'] eqn:E; [simpl; lia|].
  repeat case_match; simpl; try lia;
    match goal with |- context [substring ?n ?m ?x] =>
      pose proof (substring_le x n m) end; simpl in *; lia.
Qed.

Lemma read_int_le st : (remaining (snd (read_int st)) <= remaining st)%nat.
Proof.
  destruct st as [s|]; simpl; [|lia].
  pose proof (skipws_le s) as H.
  destruct (skipws s) as [|c s'] eqn:E; [simpl; lia|].
  destruct (if (nat_of_ascii c =? 45)%nat then _ else _) as [neg body] eqn:Eb.
  assert (String.length body <= S (String.length s'))%nat.
  { repeat case_match; simplify_eq; simpl; lia. }
  destruct (read_digits 0 false body) as [[v seen] r] eqn:Er.
  apply read_digits_le in Er as [Hle _].
  destruct seen; simpl in *; lia.
Qed.

(** A successful [file >> int] consumes at least one character. *)
Lemma read_int_lt st k r :
  read_int st = (Some k, Some r) -> (String.length r < remaining st)%nat.
Proof.
  destruct st as [s|]; simpl; [|done].
  pose proof (skipws_le s) as H.
  destruct (skipws s) as [|c s'] eqn:E; [done|].
  destruct (if (nat_of_ascii c =? 45)%nat then _ else _) as [neg body] eqn:Eb.
  assert (String.length body <= S (String.length s'))%nat.
  { repeat case_match; simplify_eq; simpl; lia. }
  destruct (read_digits 0 false body) as [[v seen] r'] eqn:Er.
  apply read_digits_le in Er as [Hle Hlt].
  destruct seen; [|done]. intros [= <- <-]. specialize (Hlt eq_refl eq_refl).
  simpl in *. lia.
Qed.

Local Opaque read_int read_word read_bool getline.

Lemma load_entries_fuel fuel : forall st value s,
  (remaining st < fuel)%nat ->
  load_entries fuel st value s <> OutOfFuel
  /\ forall s' st', load_entries fuel st value s = Ok s' st' ->
                    (remaining st' <= remaining st)%nat.
Proof.
  induction fuel as [|fuel IH]; intros st value s Hlt; [lia|]. simpl.
  pose proof (read_int_lt st) as H1.
  pose proof (read_int_le st) as H1'.
  destruct (read_int st) as [[key|] [st1|]]; simpl in H1';
    try (split; [done | intros ? ? [= <- <-]; simpl; lia]).
  specialize (H1 _ _ eq_refl).
  destruct (key =? -1); [split; [done | intros ? ? [= <- <-]; simpl; lia]|].
  pose proof (read_int_le (Some st1)) as H2.
  destruct (read_int (Some st1)) as [v st2]. simpl in H2.
  assert (Hst2 : (remaining st2 < fuel)%nat) by lia.
  destruct (_ && _).
  - destruct (match v with Some x => Some x | None => value end) as [x|]; [|done].
    destruct (vset (data s) (key - offset s) x); [|done].
    destruct (vset (valid s) (key - offset s) true); [|done].
    match goal with |- context [load_entries fuel st2 ?v ?x] =>
      destruct (IH st2 v x Hst2) as [Hne Hle] end.
    split; [done|]. intros s' st' H. apply Hle in H. lia.
  - match goal with |- context [load_entries fuel st2 ?v ?x] =>
      destruct (IH st2 v x Hst2) as [Hne Hle] end.
    split; [done|]. intros s' st' H. apply Hle in H. lia.
Qed.

Lemma load_queue_fuel fuel : forall st s,
  (remaining st < fuel)%nat -> load_queue fuel st s <> OutOfFuel.
Proof.
  induction fuel as [|fuel IH]; intros st s Hlt; [lia|]. simpl.
  pose proof (read_int_lt st) as H1.
  destruct (read_int st) as [[key|] [st1|]]; try done.
  specialize (H1 _ _ eq_refl). apply IH. simpl. lia.
Qed.

(** The fuel that [loadFromFile] gives its two loops is enough: the
    loader returns or throws on every file. *)
Lemma loadFromFile_total file s : loadFromFile file s <> OutOfFuel.
Proof.
  unfold loadFromFile.
  pose proof (getline_le (Some file)) as H0. simpl in H0.
  repeat match goal with
         | |- context [let '(_, _) := read_word ?x in _] =>
             let H := fresh "H" in
             pose proof (read_word_le x) as H;
             destruct (read_word x) as [? ?]; simpl in H
         | |- context [let '(_, _) := read_int ?x in _] =>
             let H := fresh "H" in
             pose proof (read_int_le x) as H;
             destruct (read_int x) as [? ?]; simpl in H
         end.
  destruct (vresize _ _ 0); [|done].
  destruct (vresize _ _ false); [|done].
  repeat match goal with
         | |- context [let '(_, _) := read_word ?x in _] =>
             let H := fresh "H" in
             pose proof (read_word_le x) as H;
             destruct (read_word x) as [? ?]; simpl in H
         | |- context [let '(_, _) := read_int ?x in _] =>
             let H := fresh "H" in
             pose proof (read_int_le x) as H;
             destruct (read_int x) as [? ?]; simpl in H
         | |- context [let '(_, _) := read_bool ?x in _] =>
             let H := fresh "H" in
             pose proof (read_bool_le x) as H;
             destruct (read_bool x) as [? ?]; simpl in H
         end.
  match goal with |- context [load_entries ?f ?st ?v ?x] =>
    destruct (load_entries_fuel f st v x) as [Hne Hle]; [lia|];
    destruct (load_entries f st v x) as [s1 st1| | |] end; try done.
  pose proof (read_word_le st1) as Hw.
  destruct (read_word st1) as [? st2]. simpl in Hw.
  specialize (Hle _ _ eq_refl).
  apply load_queue_fuel. lia.
Qed.

Local Transparent read_int read_word read_bool getline.
End LoadTotal.

(** C9. Failure atomicity.  In every store state ([wf] holds of a
    constructed store and is kept by every operation): an [insert] that
    throws [PoolExhausted], a [remove], an assignment through [at] or a
    [swap] that throws (they throw [InvalidKey] or [KeyNotFound], [swap]
    only [InvalidKey]), and a [switchToResizedData] that throws
    [ResizeNotReady], leave the whole object (slots, validity, count,
    allocator, queue, resize state) as it was before the call.  The
    read-only [at_] returns no state at all. *)
Theorem failure_atomicity :
  forall (T : Type) (T0 : T) (s : KeyArray.t T),
    Run.wf s ->
    (forall v s', KeyArray.insert T0 v s = Throw PoolExhausted s' -> s' = s)
    /\ (forall key e s', KeyArray.remove key s = Throw e s' ->
                         (e = InvalidKey \/ e = KeyNotFound) /\ s' = s)
    /\ (forall key e, KeyArray.at_ key s = Exn e ->
                      e = InvalidKey \/ e = KeyNotFound)
    /\ (forall key x e s', KeyArray.assign_at key x s = Throw e s' ->
                           (e = InvalidKey \/ e = KeyNotFound) /\ s' = s)
    /\ (forall key1 key2 e s', KeyArray.swap key1 key2 s = Throw e s' ->
                               e = InvalidKey /\ s' = s)
    /\ (forall s', KeyArray.switchToResizedData T0 s = Throw ResizeNotReady s' ->
                   s' = s).
Proof.
  intros T T0 s Hwf. repeat apply conj.
  - intros v s'. by apply insert_throw_PoolExhausted.
  - intros key e s'. apply remove_throw.
  - intros key e. apply at_throw.
  - intros key x e s'. apply assign_at_throw.
  - intros key1 key2 e s'. apply swap_throw.
  - intros s' H. by apply switchToResizedData_throw_not_ready in H as [? _].
Qed.

Lemma failure_atomicity_witness :
  Examples.after (KeyArray.insert 0 8 Examples.full1) Examples.full1
  = Examples.full1.
Proof.
  assert (Hwf : Run.wf Examples.full1).
  { unfold Run.wf, KeyArray.lastKey, KeyArray.valid. cbn.
    split; [lia | split; reflexivity]. }
  apply (proj1 (failure_atomicity Z 0 Examples.full1 Hwf) 8).
  reflexivity.
Defined.

(** C10. [hasKey] is total: in every store state and for every integer
    key it returns a boolean, never an exception and never an access
    outside the validity vector, and the boolean is [false] for a key
    outside [offset, offset + lastKey]. *)
Theorem hasKey_total_never_fails :
  forall (T : Type) (s : KeyArray.t T) (key : Z),
    Run.wf s ->
    exists b, KeyArray.hasKey key s = Val b
              /\ (key < KeyArray.offset s
                  \/ key > KeyArray.offset s + KeyArray.lastKey s -> b = false).
Proof. intros T s key Hwf. by apply hasKey_total. Qed.

Lemma hasKey_total_never_fails_witness :
  exists b, KeyArray.hasKey (-3) Examples.full1 = Val b
            /\ (-3 < KeyArray.offset Examples.full1
                \/ -3 > KeyArray.offset Examples.full1
                        + KeyArray.lastKey Examples.full1 -> b = false).
Proof.
  apply (hasKey_total_never_fails Z Examples.full1 (-3)).
  unfold Run.wf, KeyArray.lastKey, KeyArray.valid. cbn.
  split; [lia | split; reflexivity].
Defined.

(** ** The overflow queue: what empties it *)

Section QueueKept.
Context {T : Type} (T0 : T) `{!EqDecision T}.
Implicit Types (s : KeyArray.t T) (v : T).
Import KeyArray.
Import Run.

Lemma on_base_queue {A} (f : Base.t T -> outcome (Base.t T) A) s s' :
  final_state (on_base f s) = Some s' -> overflowQueue s' = overflowQueue s.
Proof.
  unfold on_base. destruct (f (base s)); simpl; try done; by intros [= <-].
Qed.

Lemma insert_queue_grows v s s' :
  final_state (insert T0 v s) = Some s' ->
  overflowQueue s' = overflowQueue s
  \/ overflowQueue s' = overflowQueue s ++ [v].
Proof.
  unfold insert.
  destruct (KeyPool.empty (pool s)).
  - destruct (resizingEnabled s).
    + intros H. left. by apply insert_resize_queue in H as [? _].
    + destruct (queueEnabled s); intros [= <-]; eauto.
  - intros H. left. by apply insert_tail_queue in H as [? _].
Qed.

Lemma remove_queue key s s' :
  final_state (remove key s) = Some s' -> overflowQueue s' = overflowQueue s.
Proof.
  unfold remove. destruct (out_of_range key s); [by intros [= <-]|].
  match goal with |- context [on_base ?f s] =>
    pose proof (on_base_queue f s) as Hq;
    destruct (on_base f s) as [s1 []|e s1| |] end; try done.
  - specialize (Hq _ eq_refl).
    destruct (resizingEnabled s1); [|by intros [= <-]].
    destruct (vset _ _ false); [|done]. by intros [= <-].
  - intros [= <-]. by apply Hq.
Qed.

Lemma assign_at_queue key (x : T) s s' :
  final_state (assign_at key x s) = Some s' -> overflowQueue s' = overflowQueue s.
Proof.
  unfold assign_at. destruct (out_of_range key s); [by intros [= <-]|].
  apply on_base_queue.
Qed.

Lemma swap_queue key1 key2 s s' :
  final_state (swap key1 key2 s) = Some s' -> overflowQueue s' = overflowQueue s.
Proof.
  unfold swap. repeat case_match; try done; by intros [= <-].
Qed.

Lemma enableDynamicResizing_queue s s' :
  final_state (enableDynamicResizing T0 s) = Some s' ->
  overflowQueue s' = overflowQueue s.
Proof.
  unfold enableDynamicResizing.
  destruct (resizingEnabled s); [by intros [= <-]|].
  destruct (_ =? _); [|by intros [= <-]].
  match goal with |- context [prepare_shadow T0 ?x] =>
    pose proof (prepare_shadow_queue T0 x) as Hp;
    destruct (prepare_shadow T0 x) as [s2 []|e s2| |] end; try done.
  - intros [= <-]. by destruct (Hp _ eq_refl).
  - intros [= <-]. by destruct (Hp _ eq_refl).
Qed.

(** Every operation but [clear], [clearQueue] and a change through
    [getQueue()] leaves in the queue what it held, and only [insert]
    appends to it. *)
Lemma step_queue_grows o s s' :
  keeps_queue o -> final_state (Run.step T0 o s) = Some s' ->
  exists more, overflowQueue s' = overflowQueue s ++ more.
Proof.
  intros Hk. destruct o; simpl; try done.
  - intros H.
    assert (H' : final_state (insert T0 v s) = Some s')
      by (by destruct (insert T0 v s)).
    apply insert_queue_grows in H' as [-> | ->]; [exists []; by rewrite app_nil_r | eauto].
  - intros ->%remove_queue. exists []; by rewrite app_nil_r.
  - intros ->%assign_at_queue. exists []; by rewrite app_nil_r.
  - intros ->%enableDynamicResizing_queue. exists []; by rewrite app_nil_r.
  - intros [= <-]. exists []. rewrite app_nil_r. by destruct purgeData.
  - intros [-> _]%continueCopyStep_queue. exists []; by rewrite app_nil_r.
  - intros [-> _]%switchToResizedData_queue. exists []; by rewrite app_nil_r.
  - intros [= <-]. exists []; by rewrite app_nil_r.
  - intros [= <-]. exists []; by rewrite app_nil_r.
  - intros [= <-]. exists []; by rewrite app_nil_r.
  - intros ->%swap_queue. exists []; by rewrite app_nil_r.
Qed.

End QueueKept.

Section QueueRuns.
Context {T : Type} (T0 : T) `{!EqDecision T}.
Import KeyArray.
Import Run.

Lemma run_queue_grows ops : forall (s s' : KeyArray.t T),
  Forall keeps_queue ops -> Run.run T0 ops s = Some s' ->
  exists more, overflowQueue s' = overflowQueue s ++ more.
Proof.
  induction ops as [|o ops IH]; intros s s' Hk; simpl.
  - intros [= <-]. exists []. by rewrite app_nil_r.
  - apply Forall_cons_1 in Hk as [Ho Hk].
    destruct (final_state (Run.step T0 o s)) as [s1|] eqn:E; [|done].
    intros H. destruct (IH _ _ Hk H) as [m2 ->].
    destruct (step_queue_grows T0 o s s1 Ho E) as [m1 ->].
    exists (m1 ++ m2). by rewrite app_assoc.
Qed.

End QueueRuns.

Section LoadQueue.
Import KeyArray.
Import Snapshot.
Local Opaque read_int read_word read_bool getline.

Lemma load_entries_queue fuel : forall st value s s',
  final_state (load_entries fuel st value s) = Some s' ->
  overflowQueue s' = overflowQueue s.
Proof.
  induction fuel as [|fuel IH]; intros st value s s'; [done|]. simpl.
  destruct (read_int st) as [[key|] [st1|]]; try (by intros [= <-]).
  destruct (key =? -1); [by intros [= <-]|].
  destruct (read_int (Some st1)) as [v st2].
  destruct (_ && _); [|by apply IH].
  destruct (match v with Some x => Some x | None => value end) as [x|]; [|done].
  destruct (vset (data s) (key - offset s) x) as [d|] eqn:Ed; [|done].
  destruct (vset (valid s) (key - offset s) true) as [vl|] eqn:Ev; [|done].
  intros H. by apply IH in H.
Qed.

Lemma load_queue_grows fuel : forall st s s',
  final_state (load_queue fuel st s) = Some s' ->
  exists more, overflowQueue s' = overflowQueue s ++ more.
Proof.
  induction fuel as [|fuel IH]; intros st s s'; [done|]. simpl.
  destruct (read_int st) as [[key|] [st1|]];
    try (intros [= <-]; exists []; by rewrite app_nil_r).
  intros H. apply IH in H as [more ->]. simpl.
  exists (key :: more). by rewrite <- app_assoc.
Qed.

(** [loadFromFile] removes nothing from the queue of the object it
    loads into, whatever the file holds. *)
Lemma loadFromFile_queue_grows file s s' :
  final_state (loadFromFile file s) = Some s' ->
  exists more, overflowQueue s' = overflowQueue s ++ more.
Proof.
  unfold loadFromFile.
  repeat match goal with
         | |- context [let '(_, _) := ?x in _] => destruct x as [? ?]
         end.
  match goal with |- context [vresize (data _) ?n 0] =>
    destruct (vresize (data (set_offset _ (set_name _ s))) n 0) as [d|] eqn:Ed;
    [destruct (vresize (valid (set_offset _ (set_name _ s))) n false) as [vl|] eqn:Ev|]
  end.
  - repeat match goal with
           | |- context [let '(_, _) := ?x in _] => destruct x as [? ?]
           end.
    match goal with |- context [load_entries ?f ?st ?v ?x] =>
      pose proof (load_entries_queue f st v x) as He;
      destruct (load_entries f st v x) as [s1 st1| | |] end; try done.
    + destruct (read_word st1) as [? st2].
      intros H. apply load_queue_grows in H as [more ->].
      exists more. by rewrite (He _ eq_refl).
    + intros [= <-]. exists []. by rewrite app_nil_r, (He _ eq_refl).
  - intros [= <-]. exists []. by rewrite app_nil_r.
  - intros [= <-]. exists []. by rewrite app_nil_r.
Qed.

Local Transparent read_int read_word read_bool getline.
End LoadQueue.

(** C6, as the code has it.  [clear()] empties the overflow queue: it
    returns for every store with [lastKey >= -1], and the queue of the
    state it returns is empty whatever it held; [clearQueue()] empties
    it as well.  Nothing else removes a value from the queue, apart from
    what the caller does through the reference returned by
    [getQueue()]: over any run of the other operations the queue keeps
    the values it held, in order, with at most new ones appended, and
    the same is true of [loadFromFile], whatever the file holds.  So a
    queue that is empty after such a run, or after a load, was empty
    before. *)
Theorem clear_empties_queue :
  (forall (T : Type) (T0 : T) (s : KeyArray.t T),
      (-1 <= KeyArray.lastKey s -> exists s', KeyArray.clear T0 s = Ok s' tt)
      /\ (forall s', KeyArray.clear T0 s = Ok s' tt ->
                     KeyArray.overflowQueue s' = [])
      /\ KeyArray.overflowQueue (KeyArray.clearQueue s) = []
      /\ (forall (ops : list (@Run.op T)) (s' : KeyArray.t T),
            Forall Run.keeps_queue ops ->
            Run.run T0 ops s = Some s' ->
            (exists more,
               KeyArray.overflowQueue s' = KeyArray.overflowQueue s ++ more)
            /\ (KeyArray.overflowQueue s' = [] ->
                KeyArray.overflowQueue s = [])))
  /\ (forall (file : string) (s s' : KeyArray.t Z),
        final_state (Snapshot.loadFromFile file s) = Some s' ->
        (exists more,
           KeyArray.overflowQueue s' = KeyArray.overflowQueue s ++ more)
        /\ (KeyArray.overflowQueue s' = [] -> KeyArray.overflowQueue s = [])).
Proof.
  split.
  - intros T T0 s. split; [apply clear_returns|].
    split; [apply clear_queue|]. split; [reflexivity|].
    intros ops s' Hk Hrun.
    destruct (run_queue_grows T0 ops s s' Hk Hrun) as [more Hm].
    split; [by exists more|]. rewrite Hm. by intros [? _]%app_eq_nil.
  - intros file s s' H.
    destruct (loadFromFile_queue_grows file s s' H) as [more Hm].
    split; [by exists more|]. rewrite Hm. by intros [? _]%app_eq_nil.
Qed.

Lemma clear_empties_queue_witness :
  KeyArray.overflowQueue
    (Examples.after (KeyArray.clear 0 Examples.buffered1) Examples.buffered1)
  = []
  /\ exists more,
       KeyArray.overflowQueue
         (default Examples.buffered1
            (Run.run 0 [Run.Insert 9; Run.Remove 0; Run.Insert 10;
                        Run.EnableDynamicResizing; Run.Insert 11]
               Examples.buffered1))
       = KeyArray.overflowQueue Examples.buffered1 ++ more.
Proof.
  split.
  - apply (proj1 (proj2 (proj1 clear_empties_queue Z 0 Examples.buffered1))).
    reflexivity.
  - apply (proj2 (proj2 (proj2 (proj1 clear_empties_queue Z 0
                                  Examples.buffered1)))
             [Run.Insert 9; Run.Remove 0; Run.Insert 10;
              Run.EnableDynamicResizing; Run.Insert 11]).
    + repeat constructor.
    + vm_compute. reflexivity.
Defined.

(** C6, as the claim states it, fails: a store whose queue holds [8]
    has an empty queue after [clear()]. *)
Lemma clear_keeps_queue_counterexample :
  KeyArray.overflowQueue Examples.buffered1 = [8]
  /\ option_map KeyArray.overflowQueue
       (final_state (KeyArray.clear 0 Examples.buffered1)) = Some []
  /\ option_map KeyArray.overflowQueue
       (final_state (KeyArray.clear 0 Examples.buffered1))
     <> Some (KeyArray.overflowQueue Examples.buffered1).
Proof. repeat split. discriminate. Qed.

(** C8 at a store with a negative offset.  [KeyArray<int> a(-5, 5)] has
    the logical keys [-5 .. 4]; its ten inserts return them, [-1] among
    them.  With the store full, resizing disabled and the queue enabled,
    [insert] appends the value to the queue and returns [-1], which lies
    in [offset, offset + lastKey] and is the live key of the value [5]. *)
Theorem buffered_sentinel_is_a_live_key :
  KeyArray.make_range 0 (-5) 5 EmptyString = Some Examples.neg_empty
  /\ (exists s, Run.insert_all 0 [1; 2; 3; 4; 5; 6; 7; 8; 9; 10] Examples.neg_empty
                = Ok s [-5; -4; -3; -2; -1; 0; 1; 2; 3; 4]
                /\ Examples.neg_full = KeyArray.enableQueue s)
  /\ KeyPool.empty (KeyArray.pool Examples.neg_full) = true
  /\ KeyArray.resizingEnabled Examples.neg_full = false
  /\ KeyArray.queueEnabled Examples.neg_full = true
  /\ KeyArray.insert 0 99 Examples.neg_full
     = Ok (KeyArray.set_overflowQueue [99] Examples.neg_full) (-1)
  /\ KeyArray.offset Examples.neg_full <= -1
     <= KeyArray.offset Examples.neg_full + KeyArray.lastKey Examples.neg_full
  /\ KeyArray.hasKey (-1) Examples.neg_full = Val true
  /\ KeyArray.at_ (-1) Examples.neg_full = Val 5.
Proof.
  split; [vm_compute; reflexivity|]. split.
  { exists (Examples.after
              (Run.insert_all 0 [1; 2; 3; 4; 5; 6; 7; 8; 9; 10] Examples.neg_empty)
              Examples.neg_empty).
    split; vm_compute; reflexivity. }
  repeat apply conj; vm_compute; congruence.
Qed.

(** ** The incremental resizer *)

Section Resizer.
Context {T : Type} (T0 : T).
Implicit Types (s : KeyArray.t T) (v : T).
Import KeyArray.
Import Run.

(** One migration step: what [continueCopyStep] does when resizing is
    enabled and a copy is in progress. *)
Lemma continueCopyStep_spec s s' :
  resizingEnabled s = true -> copyInProgress s = true ->
  continueCopyStep s = Ok s' tt ->
  base s' = base s /\ offset s' = offset s /\ newPool s' = newPool s
  /\ resizingEnabled s' = true
  /\ overflowQueue s' = overflowQueue s /\ queueEnabled s' = queueEnabled s
  /\ copyInProgress s' = (copyIndex s' <=? lastKey s)
  /\ (copyIndex s <= lastKey s ->
        copyIndex s' = copyIndex s + 1
        /\ exists b, vget (valid s) (copyIndex s) = Some b
           /\ if b
              then exists x, vget (data s) (copyIndex s) = Some x
                   /\ vset (newData s) (copyIndex s) x = Some (newData s')
                   /\ vset (newValid s) (copyIndex s) true = Some (newValid s')
              else newData s' = newData s /\ newValid s' = newValid s)
  /\ (lastKey s < copyIndex s ->
        copyIndex s' = copyIndex s /\ newData s' = newData s
        /\ newValid s' = newValid s).
Proof.
  intros Hr Hc. unfold continueCopyStep. rewrite Hr, Hc. simpl.
  unfold lastKey, data, valid.
  destruct (Z.leb_spec0 (copyIndex s) (Base.lastKey (base s))) as [Hle|Hgt].
  - destruct (vget (Base.valid (base s)) (copyIndex s)) as [[|]|] eqn:Ev; [| |done].
    + destruct (vget (Base.data (base s)) (copyIndex s)) as [x|] eqn:Ed; [|done].
      destruct (vset (newData s) (copyIndex s) x) as [nd|] eqn:End; [|done].
      destruct (vset (newValid s) (copyIndex s) true) as [nv|] eqn:Env; [|done].
      simpl.
      destruct (Z.gtb_spec (copyIndex s + 1) (Base.lastKey (base s)));
        cbn; intros [= <-]; simpl; rewrite ?Hr, ?Hc;
        destruct (Z.leb_spec0 (copyIndex s + 1) (Base.lastKey (base s))); try lia;
        (split_and!; try done; try (intros ?; lia);
         intros _; split; [done|]; exists true; split; [done|]; by exists x).
    + simpl.
      destruct (Z.gtb_spec (copyIndex s + 1) (Base.lastKey (base s)));
        cbn; intros [= <-]; simpl; rewrite ?Hr, ?Hc;
        destruct (Z.leb_spec0 (copyIndex s + 1) (Base.lastKey (base s))); try lia;
        (split_and!; try done; try (intros ?; lia);
         intros _; split; [done|]; by exists false).
  - destruct (Z.gtb_spec (copyIndex s) (Base.lastKey (base s))); [|lia].
    cbn. intros [= <-]. simpl. rewrite Hr.
    destruct (Z.leb_spec0 (copyIndex s) (Base.lastKey (base s))); [lia|].
    split_and!; try done; intros ?; lia.
Qed.

Lemma continueCopyStep_idle s :
  resizingEnabled s = false \/ copyInProgress s = false ->
  continueCopyStep s = Ok s tt.
Proof.
  unfold continueCopyStep. intros [-> | ->]; [done|]. by rewrite orb_true_r.
Qed.

(** The loop of [insert] stops within [copy_fuel] iterations. *)
Lemma copy_loop_enough n : forall s,
  resizingEnabled s = true ->
  (Z.to_nat (lastKey s + 1 - copyIndex s) < n)%nat ->
  copy_loop n s <> OutOfFuel
  /\ forall s', copy_loop n s = Ok s' tt -> copyInProgress s' = false.
Proof.
  induction n as [|n IH]; intros s Hr Hn; [lia|]. simpl.
  destruct (copyInProgress s) eqn:Hc; [|split; [done | by intros s' [= <-]]].
  pose proof (continueCopyStep_spec s) as Hs.
  destruct (continueCopyStep s) as [s1 []| | |] eqn:E; try done.
  - destruct (Hs s1 Hr Hc eq_refl) as (Hb & _ & _ & Hr1 & _ & _ & Hc1 & Hle & Hgt).
    assert (HL : lastKey s1 = lastKey s) by (unfold lastKey; by rewrite Hb).
    destruct (decide (copyIndex s <= lastKey s)) as [Hcase|Hcase].
    + destruct (Hle Hcase) as [Hci _]. apply IH; [done|]. rewrite HL, Hci. lia.
    + destruct (Hgt ltac:(lia)) as (Hci & _).
      assert (copyInProgress s1 = false) as Hdone.
      { rewrite Hc1, Hci. destruct (Z.leb_spec0 (copyIndex s) (lastKey s)); [lia | done]. }
      destruct n; simpl; rewrite Hdone; split; try done; by intros s' [= <-].
  - exfalso. unfold continueCopyStep in E. rewrite Hr, Hc in E. simpl in E.
    repeat case_match; done.
Qed.

Lemma copy_loop_terminates s :
  resizingEnabled s = true ->
  copy_loop (copy_fuel s) s <> OutOfFuel
  /\ forall s', copy_loop (copy_fuel s) s = Ok s' tt -> copyInProgress s' = false.
Proof. intros Hr. apply copy_loop_enough; [done|]. unfold copy_fuel. lia. Qed.


End Resizer.

Section Sync.
Context {T : Type} (T0 : T).
Implicit Types (s : KeyArray.t T) (v : T).
Import KeyArray.
Import Run.

(** What a returning [insert_tail] did. *)
Lemma insert_tail_Ok v s s' key :
  insert_tail v s = Ok s' key ->
  exists k p d vl,
    KeyPool.pop (pool s) = Some (k, p)
    /\ vset (data s) k v = Some d /\ vset (valid s) k true = Some vl
    /\ key = k + offset s
    /\ let b := {| Base.lastKey := lastKey s;
                   Base.elementCount := wrap64 (Base.elementCount (base s) + 1);
                   Base.data := d; Base.valid := vl; Base.pool := p |} in
       if resizingEnabled s then
         exists nd nv,
           vset (newData s) k v = Some nd /\ vset (newValid s) k true = Some nv
           /\ let s2 := set_newValid nv (set_newData nd (set_base b s)) in
              if copyInProgress s then continueCopyStep s2 = Ok s' tt
              else s' = s2
       else s' = set_base b s.
Proof.
  unfold insert_tail, on_base, Base.insert, pool, data, valid, lastKey.
  destruct (KeyPool.empty (Base.pool (base s))); [done|].
  destruct (KeyPool.pop (Base.pool (base s))) as [[k p]|]; [|done].
  destruct (vset (Base.data (base s)) k v) as [d|] eqn:Ed; [|done].
  destruct (vset (Base.valid (base s)) k true) as [vl|] eqn:Evl; [|done].
  simpl. intros H. exists k, p, d, vl.
  destruct (resizingEnabled s).
  - destruct (vset (newData s) k v) as [nd|] eqn:End; [|done].
    destruct (vset (newValid s) k true) as [nv|] eqn:Env; [|done].
    simpl in H. destruct (copyInProgress s).
    + match type of H with context [continueCopyStep ?x] =>
        pose proof (continueCopyStep_frame x) as Hf;
        destruct (continueCopyStep x) as [s3 []| | |] eqn:E end; try done.
      injection H as <- <-.
      destruct (Hf _ eq_refl) as (_ & _ & -> & _). simpl.
      split_and!; try done. by exists nd, nv.
    + injection H as <- <-. split_and!; try done. by exists nd, nv.
  - injection H as <- <-. by split_and!.
Qed.

Lemma continueCopyStep_synced s s' :
  synced s -> continueCopyStep s = Ok s' tt -> synced s'.
Proof.
  intros Hs H. destruct (copyInProgress s) eqn:Hc.
  - destruct Hs as (Hr & Hoff & Hci & Hdone & Hsync & Hstack & Hnew).
    destruct (continueCopyStep_spec s s' Hr Hc H)
      as (Hb & Ho & Hp & Hr' & _ & _ & Hc' & Hle & Hgt).
    assert (HL : lastKey s' = lastKey s) by (unfold lastKey; by rewrite Hb).
    assert (HD : data s' = data s) by (unfold data; by rewrite Hb).
    assert (HV : valid s' = valid s) by (unfold valid; by rewrite Hb).
    unfold synced. rewrite HL, HD, HV, Hp, Ho.
    destruct (decide (copyIndex s <= lastKey s)) as [Hcase|Hcase].
    + destruct (Hle Hcase) as (Hci' & b & Hvb & Hcopy).
      split_and!; try done; try lia.
      * rewrite Hc', Hci'.
        destruct (Z.leb_spec0 (copyIndex s + 1) (lastKey s)); [done | lia].
      * intros i x Hi Hvi Hdi.
        destruct (decide (i = copyIndex s)) as [->|Hne].
        -- rewrite Hvi in Hvb. injection Hvb as <-.
           destruct Hcopy as (x' & Hx' & Hnd & Hnv).
           rewrite Hdi in Hx'. injection Hx' as <-.
           split; eapply vget_vset_eq; done.
        -- assert (vget (newValid s') i = vget (newValid s) i
                   /\ vget (newData s') i = vget (newData s) i) as [-> ->].
           { destruct b.
             - destruct Hcopy as (x' & _ & Hnd & Hnv).
               split; eapply vget_vset_ne; done.
             - by destruct Hcopy as [-> ->]. }
           apply Hsync; [lia | done..].
    + destruct (Hgt ltac:(lia)) as (Hci' & Hnd & Hnv).
      rewrite Hci', Hnd, Hnv. split_and!; try done. intros _. lia.
  - rewrite continueCopyStep_idle in H by eauto. by injection H as <-.
Qed.

Lemma copy_loop_synced n : forall s s',
  synced s -> copy_loop n s = Ok s' tt -> synced s'.
Proof.
  induction n as [|n IH]; intros s s' Hs; simpl.
  - destruct (copyInProgress s); [done | by intros [= <-]].
  - destruct (copyInProgress s); [|by intros [= <-]].
    pose proof (continueCopyStep_synced s) as H1.
    destruct (continueCopyStep s) as [s1 []| | |]; try done.
    apply IH. by apply H1.
Qed.

Lemma insert_tail_synced v s s' key :
  synced s -> insert_tail v s = Ok s' key -> synced s'.
Proof.
  intros Hs H.
  pose proof Hs as (Hr & Hoff & Hci & Hdone & Hsync & Hstack & Hnew).
  apply insert_tail_Ok in H as (k & p & d & vl & _ & Hd & Hvl & _ & H).
  rewrite Hr in H. destruct H as (nd & nv & Hnd & Hnv & H).
  simpl in H.
  assert (Hs2 : synced (set_newValid nv (set_newData nd (set_base
            {| Base.lastKey := lastKey s;
               Base.elementCount := wrap64 (Base.elementCount (base s) + 1);
               Base.data := d; Base.valid := vl;
               Base.pool := Base.pool (base s) |} s)))).
  { unfold synced, lastKey, data, valid in *. simpl.
    split_and!; try done.
    intros i x Hi Hvi Hdi.
    destruct (decide (k = i)) as [->|Hne].
    - rewrite (vget_vset_eq _ _ _ _ Hd) in Hdi. injection Hdi as <-.
      split; eapply vget_vset_eq; done.
    - rewrite (vget_vset_ne _ _ _ _ _ Hnv Hne), (vget_vset_ne _ _ _ _ _ Hnd Hne).
      rewrite (vget_vset_ne _ _ _ _ _ Hvl Hne) in Hvi.
      rewrite (vget_vset_ne _ _ _ _ _ Hd Hne) in Hdi.
      by apply Hsync. }
  assert (Hs2' : forall q, synced (set_newValid nv (set_newData nd (set_base
            {| Base.lastKey := lastKey s;
               Base.elementCount := wrap64 (Base.elementCount (base s) + 1);
               Base.data := d; Base.valid := vl;
               Base.pool := q |} s)))).
  { intros q. unfold synced, lastKey, data, valid in *. simpl in *. done. }
  destruct (copyInProgress s).
  - eapply continueCopyStep_synced; [|exact H]. apply Hs2'.
  - subst s'. apply Hs2'.
Qed.

(** The shadow pool that [prepare_shadow] builds at offset [0] gives
    only ids beyond the current last key. *)
Lemma make_beyond L p :
  0 <= p <= L ->
  p < KeyPool.nextKey (KeyPool.make (L + 1 - 0) (0 + (L + 1 - 0) * 2 - 1 - 0)).
Proof.
  intros Hp. unfold KeyPool.make.
  destruct (Z.gtb_spec (L + 1 - 0) (0 + (L + 1 - 0) * 2 - 1 - 0)); simpl; lia.
Qed.

Lemma prepare_shadow_Ok s s' :
  prepare_shadow T0 s = Ok s' tt ->
  exists nd nv,
    vresize (newData s) (offset s + (lastKey s + 1 - offset s) * 2 - 1 + 1) T0 = Some nd
    /\ vresize (newValid s) (offset s + (lastKey s + 1 - offset s) * 2 - 1 + 1) false = Some nv
    /\ s' = set_newPool
              (KeyPool.make (lastKey s + 1 - offset s)
                 (offset s + (lastKey s + 1 - offset s) * 2 - 1 - offset s))
              (set_newValid nv (set_newData nd s)).
Proof.
  unfold prepare_shadow.
  destruct (vresize (newData s) _ T0) as [nd|]; [|done].
  destruct (vresize (newValid s) _ false) as [nv|]; [|done].
  intros [= <-]. by exists nd, nv.
Qed.

Lemma switchToResizedData_Ok s s' :
  switchToResizedData T0 s = Ok s' tt ->
  resizingEnabled s = true /\ copyInProgress s = false
  /\ data s' = newData s /\ valid s' = newValid s /\ pool s' = newPool s
  /\ lastKey s' = Z.of_nat (length (newData s)) - 1
  /\ Base.elementCount (base s') = Base.elementCount (base s)
  /\ offset s' = offset s /\ resizingEnabled s' = true
  /\ copyInProgress s' = true /\ copyIndex s' = 0
  /\ overflowQueue s' = overflowQueue s /\ queueEnabled s' = queueEnabled s
  /\ newPool s' = KeyPool.make (lastKey s' + 1 - offset s')
                    (offset s' + (lastKey s' + 1 - offset s') * 2 - 1 - offset s')
  /\ vresize [] (offset s' + (lastKey s' + 1 - offset s') * 2 - 1 + 1) T0
     = Some (newData s')
  /\ vresize [] (offset s' + (lastKey s' + 1 - offset s') * 2 - 1 + 1) false
     = Some (newValid s').
Proof.
  unfold switchToResizedData.
  destruct (resizingEnabled s) eqn:Hr; [|done].
  destruct (copyInProgress s) eqn:Hc; [done|]. simpl. rewrite Hr.
  match goal with |- context [prepare_shadow T0 ?x] =>
    pose proof (prepare_shadow_Ok x) as Hp;
    destruct (prepare_shadow T0 x) as [s2 []| | |] end; try done.
  intros [= <-]. destruct (Hp _ eq_refl) as (nd & nv & Hnd & Hnv & ->).
  simpl in *. unfold data, valid, pool, lastKey in *. simpl in *.
  by split_and!.
Qed.

Lemma switchToResizedData_synced s s' :
  offset s = 0 -> switchToResizedData T0 s = Ok s' tt -> synced s'.
Proof.
  intros Hoff H.
  apply switchToResizedData_Ok in H
    as (_ & _ & _ & _ & _ & _ & _ & Ho & Hr & Hc & Hci & _ & _ & Hnp & _).
  unfold synced. rewrite Hr, Hc, Hci, Ho, Hnp, Ho, Hoff.
  split_and!; try done; try lia.
  - unfold KeyPool.make. by case_match.
  - apply make_beyond.
Qed.

Lemma enableDynamicResizing_synced s s' :
  resizingEnabled s = false -> copyIndex s = 0 -> offset s = 0 ->
  enableDynamicResizing T0 s = Ok s' tt -> synced s'.
Proof.
  intros Hr Hci Hoff. unfold enableDynamicResizing. rewrite Hr. simpl.
  rewrite Hci, Hoff. simpl.
  pose proof (prepare_shadow_Ok (set_resizingEnabled true s)) as Hp.
  destruct (prepare_shadow T0 _) as [s2 []| | |]; try done.
  intros [= <-]. destruct (Hp _ eq_refl) as (nd & nv & _ & _ & ->).
  unfold synced, lastKey, data, valid. simpl. rewrite Hci, Hoff.
  split_and!; try done; try lia.
  - unfold KeyPool.make. by case_match.
  - apply make_beyond.
Qed.

Lemma insert_synced v s s' key :
  synced s -> insert T0 v s = Ok s' key -> synced s'.
Proof.
  intros Hs. pose proof Hs as (Hr & Hoff & _).
  unfold insert. rewrite Hr.
  destruct (KeyPool.empty (pool s)); [|by apply insert_tail_synced].
  unfold insert_resize.
  pose proof (copy_loop_synced (copy_fuel s) s) as H1.
  pose proof (copy_loop_frame (copy_fuel s) s) as Hf.
  destruct (copy_loop _ s) as [s1 []| | |]; try done.
  destruct (Hf _ eq_refl) as (_ & _ & Ho1 & _).
  pose proof (switchToResizedData_synced s1) as H2.
  destruct (switchToResizedData T0 s1) as [s2 []| | |]; try done.
  apply insert_tail_synced. apply H2; [congruence | done].
Qed.

Lemma insert_all_synced vs : forall s s' keys,
  synced s -> Run.insert_all T0 vs s = Ok s' keys -> synced s'.
Proof.
  induction vs as [|v vs IH]; intros s s' keys Hs; simpl.
  - by intros [= <- _].
  - pose proof (insert_synced v s) as H1.
    destruct (insert T0 v s) as [s1 k| | |]; try done.
    pose proof (IH s1) as H2.
    destruct (Run.insert_all T0 vs s1) as [s2 ks| | |]; try done.
    intros [= <- _]. eapply H2; [|done]. by eapply H1.
Qed.

(** What [at_] returning a value says: the key is in the range of the
    store, [hasKey] holds of the key shifted by the offset, and the slot
    of the key holds the value. *)
Lemma at_spec key s x :
  at_ key s = Val x <->
  offset s <= key <= lastKey s + offset s
  /\ hasKey (key - offset s) s = Val true
  /\ vget (data s) (key - offset s) = Some x.
Proof.
  unfold at_, out_of_range, Base.at_with, lastKey, data.
  destruct (Z.ltb_spec0 key (offset s)); simpl; [split; [done | lia]|].
  destruct (Z.gtb_spec key (Base.lastKey (base s) + offset s)); simpl;
    [split; [done | lia]|].
  destruct (hasKey (key - offset s) s) as [[|]|e|];
    [|split; [done | by intros (_ & ? & _)]..].
  destruct (vget (Base.data (base s)) (key - offset s)) as [y|].
  - split; [intros [= ->]; split_and!; [lia..|done|done] | by intros (_ & _ & [= ->])].
  - split; [done | by intros (_ & _ & ?)].
Qed.

(** [hasKey] returning true: the key is in range and its slot valid. *)
Lemma hasKey_true key s :
  hasKey key s = Val true <->
  offset s <= key <= lastKey s + offset s
  /\ vget (valid s) (key - offset s) = Some true.
Proof.
  unfold hasKey, out_of_range, Base.hasKey, lastKey, valid.
  destruct (Z.ltb_spec0 key (offset s)); simpl; [split; [done | lia]|].
  destruct (Z.gtb_spec key (Base.lastKey (base s) + offset s)); simpl;
    [split; [done | lia]|].
  destruct (Z.geb_spec (key - offset s) 0); [|lia].
  destruct (Z.leb_spec0 (key - offset s) (Base.lastKey (base s))); [|lia].
  simpl.
  destruct (vget (Base.valid (base s)) (key - offset s)) as [[|]|];
    split; try done; try (by intros (_ & ?)).
  intros _. split; [lia | done].
Qed.

(** At offset [0] the key that [at] tests is the key itself. *)
Lemma at_Val key s x :
  offset s = 0 ->
  at_ key s = Val x <->
  offset s <= key <= lastKey s + offset s
  /\ vget (valid s) (key - offset s) = Some true
  /\ vget (data s) (key - offset s) = Some x.
Proof.
  intros Hoff. rewrite at_spec, hasKey_true. rewrite Hoff, !Z.sub_0_r.
  intuition lia.
Qed.


End Sync.

Section NoShadow.
Context {T : Type} (T0 : T).
Implicit Types (s : KeyArray.t T) (v : T).
Import KeyArray.
Import Run.







(** While a migration is in progress and the pool is not exhausted, an
    [insert] is the base insert, the write to the shadow, and exactly
    one [continueCopyStep]. *)
Lemma insert_one_step v s s' key :
  resizingEnabled s = true -> copyInProgress s = true ->
  KeyPool.empty (pool s) = false ->
  insert T0 v s = Ok s' key ->
  exists b k nd nv,
    Base.insert v (base s) = Ok b k /\ key = k + offset s
    /\ vset (newData s) k v = Some nd /\ vset (newValid s) k true = Some nv
    /\ continueCopyStep (set_newValid nv (set_newData nd (set_base b s)))
       = Ok s' tt.
Proof.
  intros Hr Hc Hne. unfold insert. rewrite Hne.
  unfold insert_tail, on_base.
  destruct (Base.insert v (base s)) as [b k| | |] eqn:Eb; try done. simpl.
  rewrite Hr. destruct (vset (newData s) k v) as [nd|] eqn:End; [|done].
  destruct (vset (newValid s) k true) as [nv|] eqn:Env; [|done]. simpl. rewrite Hc.
  match goal with |- context [continueCopyStep ?x] =>
    pose proof (continueCopyStep_frame x) as Hf;
    destruct (continueCopyStep x) as [s3 []| | |] eqn:E end; try done.
  intros [= <- <-]. destruct (Hf _ eq_refl) as (_ & _ & -> & _).
  exists b, k, nd, nv. by split_and!.
Qed.

End NoShadow.

Section Sized.
Context {T : Type} (T0 : T).
Implicit Types (s : KeyArray.t T) (v : T).
Import KeyArray.
Import Run.

Lemma continueCopyStep_sized s :
  shadow_sized s -> exists s', continueCopyStep s = Ok s' tt /\ shadow_sized s'.
Proof.
  intros Hs. pose proof Hs as (Hr & Hoff & HL & Hd & Hv & Hnd & Hnv & Hst & Hn & Hm & Hnp & Hci).
  destruct (copyInProgress s) eqn:Hc;
    [|exists s; split; [apply continueCopyStep_idle; by right | done]].
  unfold continueCopyStep. rewrite Hr, Hc. simpl.
  destruct (Z.leb_spec0 (copyIndex s) (lastKey s)) as [Hle|Hgt].
  - destruct (vget_in_range (valid s) (copyIndex s)) as [b Hb]; [lia|]. rewrite Hb.
    destruct b.
    + destruct (vget_in_range (data s) (copyIndex s)) as [x Hx]; [lia|]. rewrite Hx.
      rewrite !vset_in_range by lia.
      match goal with |- context [if ?c then _ else _] => destruct c end;
        eexists; (split; [reflexivity|]);
        unfold shadow_sized, lastKey, data, valid, pool in *; simpl;
        rewrite ?length_insert; split_and!; try done; lia.
    + match goal with |- context [if ?c then _ else _] => destruct c end;
        eexists; (split; [reflexivity|]);
        unfold shadow_sized, lastKey, data, valid, pool in *; simpl;
        split_and!; try done; lia.
  - match goal with |- context [if ?c then _ else _] => destruct c end;
      eexists; (split; [reflexivity|]); done.
Qed.

Lemma copy_loop_sized n : forall s,
  shadow_sized s -> copy_loop n s <> OutOfFuel ->
  exists s', copy_loop n s = Ok s' tt /\ shadow_sized s'.
Proof.
  induction n as [|n IH]; intros s Hs; simpl.
  - destruct (copyInProgress s); [done | by exists s].
  - destruct (copyInProgress s); [|by exists s].
    destruct (continueCopyStep_sized s Hs) as (s1 & -> & Hs1). by apply IH.
Qed.

Lemma switchToResizedData_sized s :
  shadow_sized s -> copyInProgress s = false ->
  exists s', switchToResizedData T0 s = Ok s' tt /\ shadow_sized s'
             /\ KeyPool.empty (pool s') = false.
Proof.
  intros (Hr & Hoff & HL & Hd & Hv & Hnd & Hnv & Hst & Hn & Hm & Hnp & Hci) Hc.
  unfold switchToResizedData. rewrite Hr, Hc. simpl. rewrite Hr.
  unfold prepare_shadow, lastKey. simpl. rewrite Hoff.
  unfold vresize.
  destruct (Z.ltb_spec0 (0 + (Z.of_nat (length (newData s)) - 1 + 1 - 0) * 2 - 1 + 1) 0);
    [lia|].
  eexists. split; [reflexivity|].
  unfold shadow_sized, lastKey, data, valid, pool in *. simpl.
  rewrite !length_app, !length_take, !length_replicate. simpl.
  split_and!; try done; try lia.
  - rewrite Hnp. unfold KeyPool.make. by case_match.
  - rewrite Hnp. unfold KeyPool.make. case_match; simpl; lia.
  - rewrite Hnp. unfold KeyPool.make. case_match; simpl; lia.
  - f_equal; lia.
  - rewrite Hnp. apply make_not_empty.
Qed.

Lemma insert_tail_sized v s :
  shadow_sized s -> KeyPool.empty (pool s) = false ->
  exists s' k, insert_tail v s = Ok s' k /\ shadow_sized s'.
Proof.
  intros Hs Hne.
  pose proof Hs as (Hr & Hoff & HL & Hd & Hv & Hnd & Hnv & Hst & Hn & Hm & Hnp & Hci).
  unfold insert_tail, on_base, Base.insert.
  unfold pool, data, valid, lastKey in *. rewrite Hne.
  unfold KeyPool.empty, KeyPool.pop in *. rewrite Hst in *.
  destruct (Z.gtb_spec (KeyPool.nextKey (Base.pool (base s)))
              (KeyPool.maxKey (Base.pool (base s)))); [done|].
  rewrite !vset_in_range by lia. simpl. rewrite Hr.
  rewrite !vset_in_range by lia. simpl.
  match goal with |- context [continueCopyStep ?x] =>
    assert (Hs2 : shadow_sized x) end.
  { unfold shadow_sized, lastKey, data, valid, pool. simpl.
    rewrite !length_insert. split_and!; try done; lia. }
  destruct (copyInProgress s).
  - destruct (continueCopyStep_sized _ Hs2) as (s3 & -> & Hs3). eauto.
  - eauto.
Qed.

(** With the shadow in place at offset [0], every [insert] returns. *)
Lemma insert_sized v s :
  shadow_sized s -> exists s' k, insert T0 v s = Ok s' k /\ shadow_sized s'.
Proof.
  intros Hs. pose proof Hs as (Hr & _).
  unfold insert. rewrite Hr.
  destruct (KeyPool.empty (pool s)) eqn:Hemp; [|by apply insert_tail_sized].
  unfold insert_resize.
  destruct (copy_loop_terminates s Hr) as [Hfuel Hdone].
  destruct (copy_loop_sized _ s Hs Hfuel) as (s1 & Hloop & Hs1).
  rewrite Hloop in *. specialize (Hdone _ eq_refl).
  destruct (switchToResizedData_sized s1 Hs1 Hdone) as (s2 & -> & Hs2 & Hne).
  by apply insert_tail_sized.
Qed.



End Sized.

(** ** [insert] on an exhausted store *)

Section Exhausted.
Context {T : Type} (T0 : T).
Implicit Types (s : KeyArray.t T) (v : T).
Import KeyArray.
Import Run.

(** What a returning [insert] did on the resize path: the loop ended
    with the copy complete, the shadow became the active storage, and
    the value went into a slot of it. *)
Lemma insert_resize_Ok v s s' k :
  resizingEnabled s = true ->
  insert_resize T0 v s = Ok s' k ->
  exists sc sw,
    copy_loop (copy_fuel s) s = Ok sc tt
    /\ copyInProgress sc = false
    /\ switchToResizedData T0 sc = Ok sw tt
    /\ data sw = newData sc /\ valid sw = newValid sc
    /\ pool sw = newPool sc
    /\ lastKey sw = Z.of_nat (length (newData sc)) - 1
    /\ insert_tail v sw = Ok s' k
    /\ offset s' = offset s
    /\ lastKey s' = lastKey sw
    /\ (exists p, KeyPool.pop (newPool sc) = Some (k - offset s, p))
    /\ vget (data s') (k - offset s') = Some v
    /\ hasKey k s' = Val true.
Proof.
  intros Hr. unfold insert_resize.
  pose proof (copy_loop_frame (copy_fuel s) s) as Hf.
  pose proof (proj2 (copy_loop_terminates s Hr)) as Hdone.
  destruct (copy_loop _ s) as [sc []| | |]; try done.
  specialize (Hdone _ eq_refl).
  destruct (Hf _ eq_refl) as (Hb & _ & Ho1 & _).
  destruct (switchToResizedData T0 sc) as [sw []| | |] eqn:Esw; try done.
  intros H. exists sc, sw.
  pose proof Esw as Hsw.
  apply switchToResizedData_Ok in Hsw
    as (_ & _ & Hd2 & Hv2 & Hp2 & HL2 & _ & Ho2 & Hr2 & _).
  pose proof H as Htail.
  apply insert_tail_Ok in H as (q & p & d & vl & Hpop & Hd & Hvl & Hk & H).
  rewrite Hr2 in H. destruct H as (nd & nv & _ & _ & H). simpl in H.
  assert (Hbase : base s' = {| Base.lastKey := lastKey sw;
                               Base.elementCount := wrap64 (Base.elementCount (base sw) + 1);
                               Base.data := d; Base.valid := vl; Base.pool := p |}
                  /\ offset s' = offset sw).
  { destruct (copyInProgress sw).
    - apply (f_equal final_state) in H. simpl in H.
      apply continueCopyStep_frame in H as (-> & _ & -> & _). done.
    - by subst s'. }
  destruct Hbase as [Hb' Ho'].
  assert (Hq : k - offset s' = q) by (rewrite Ho'; lia).
  pose proof (vset_Some _ _ _ _ Hd) as [Hrange _].
  assert (HLq : q <= lastKey sw).
  { rewrite HL2, <- Hd2. lia. }
  split_and!; try done.
  - congruence.
  - unfold lastKey. by rewrite Hb'.
  - exists p. rewrite <- Hp2. replace (k - offset s) with q; [done|]. 
    rewrite <- Hq, Ho', Ho2, Ho1. done.
  - rewrite Hq. unfold data. rewrite Hb'. simpl. by eapply vget_vset_eq.
  - apply hasKey_true. rewrite Hq. unfold lastKey, valid. rewrite Hb'. simpl.
    split; [lia | by eapply vget_vset_eq].
Qed.

(** With a shadow pool that is not exhausted, the resize path does not
    end in [PoolExhausted]. *)
Lemma insert_resize_not_exhausted v s s' :
  resizingEnabled s = true -> wf s ->
  insert_resize T0 v s <> Throw PoolExhausted s'.
Proof.
  intros Hr (_ & _ & Hnp). unfold insert_resize.
  pose proof (copy_loop_no_throw (copy_fuel s) s) as Hl.
  pose proof (copy_loop_frame (copy_fuel s) s) as Hf.
  destruct (copy_loop _ s) as [s1 []|e1 s1| |]; try done; [|by destruct (Hl e1 s1)].
  destruct (Hf _ eq_refl) as (_ & Hpool & _).
  pose proof (switchToResizedData_pool T0 s1) as Hsw.
  destruct (switchToResizedData T0 s1) as [s2 []|e s2| |] eqn:Esw; try done.
  - intros (_ & Hemp & _)%insert_tail_throw.
    rewrite (Hsw _ eq_refl), Hpool in Hemp. congruence.
  - intros [= -> ->]. by apply switchToResizedData_throw in Esw as [?|?].
Qed.

Lemma insert_resize_fuel v s :
  resizingEnabled s = true -> insert_resize T0 v s <> OutOfFuel.
Proof.
  intros Hr. unfold insert_resize.
  pose proof (proj1 (copy_loop_terminates s Hr)) as Hfuel.
  destruct (copy_loop _ s) as [s1 []|e1 s1| |]; try done.
  destruct (switchToResizedData T0 s1) as [s2 []|e s2| |] eqn:Esw; try done.
  - unfold insert_tail, on_base, Base.insert.
    repeat case_match; try done.
    match goal with H : continueCopyStep ?x = OutOfFuel |- _ =>
      unfold continueCopyStep in H; repeat case_match; done end.
  - unfold switchToResizedData, prepare_shadow in Esw. repeat case_match; done.
Qed.

(** At offset [0] with the shadow in place, the exhausted [insert]
    returns the first key beyond the old range, in a store of twice the
    capacity. *)
Lemma insert_resize_sized v s :
  shadow_sized s -> KeyPool.empty (pool s) = true ->
  exists s', insert T0 v s = Ok s' (lastKey s + 1)
             /\ lastKey s' = 2 * lastKey s + 1
             /\ at_ (lastKey s + 1) s' = Val v
             /\ shadow_sized s'.
Proof.
  intros Hs Hemp.
  destruct (insert_sized T0 v s Hs) as (s' & k & Hins & Hs').
  pose proof Hs as (Hr & Hoff & HL & Hd & Hv & Hnd & Hnv & Hst & Hn & Hm & Hnp & Hci).
  pose proof Hins as Hres. unfold insert in Hres. rewrite Hemp, Hr in Hres.
  destruct (insert_resize_Ok v s s' k Hr Hres)
    as (sc & sw & Hloop & _ & _ & _ & _ & _ & HLsw & _ & Ho' & HL' & (p & Hpop)
        & Hdata & Hhas).
  destruct (copy_loop_frame (copy_fuel s) s sc) as (_ & Hnpc & _ & _ & Hlen);
    [by rewrite Hloop|].
  assert (Hk : k = lastKey s + 1).
  { rewrite Hnpc, Hnp, Hoff in Hpop. unfold KeyPool.pop, KeyPool.make in Hpop.
    destruct (Z.gtb_spec (lastKey s + 1) (2 * lastKey s + 1)); [lia|].
    simpl in Hpop.
    destruct (Z.gtb_spec (lastKey s + 1) (2 * lastKey s + 1)); [lia|].
    injection Hpop as Hpop _. lia. }
  subst k. exists s'. split; [done|]. split; [rewrite HL', HLsw, Hlen; lia|].
  split; [|done].
  apply at_Val; [congruence|]. apply hasKey_true in Hhas as [Hrg Hvl]. done.
Qed.

End Exhausted.

(** C2. With the allocator of the active store exhausted, [insert]
    routes by this precedence.

    Resizing enabled: [insert] takes the resize-and-switch path,
    whatever [queueEnabled] is.  The completion loop stops within
    [copy_fuel] iterations.  An [insert] that returns has run the loop to
    the end of the copy ([copyInProgress] is false), has switched (the
    shadow vectors and the shadow pool are the active ones, [lastKey] is
    the last slot of the shadow), and has put the value into the slot of
    the key it returns, a key popped from what was the shadow pool, for
    which [hasKey] is now true.  The overflow queue of every state the
    call leaves is the one before the call, and the outcome does not
    depend on [queueEnabled].  In a store state ([wf], kept by every
    operation) the call does not throw [PoolExhausted].  At offset [0]
    with the shadow in place ([shadow_sized], the states of a store
    inserted into since the resizer was enabled) the call returns the
    first key beyond the old range, the capacity is doubled and [at] of
    the key is the value.

    Resizing disabled and queue enabled: the value is appended to the
    queue and [-1] is returned.  Both disabled: the call throws
    [PoolExhausted] and the state is the one before the call. *)
Theorem insert_exhausted_precedence :
  forall (T : Type) (T0 : T) (s : KeyArray.t T) (v : T),
    KeyPool.empty (KeyArray.pool s) = true ->
    (KeyArray.resizingEnabled s = true ->
       KeyArray.insert T0 v s = KeyArray.insert_resize T0 v s
       /\ KeyArray.insert T0 v s <> OutOfFuel
       /\ (forall s' k, KeyArray.insert T0 v s = Ok s' k ->
             exists sc sw,
               KeyArray.copy_loop (KeyArray.copy_fuel s) s = Ok sc tt
               /\ KeyArray.copyInProgress sc = false
               /\ KeyArray.switchToResizedData T0 sc = Ok sw tt
               /\ KeyArray.data sw = KeyArray.newData sc
               /\ KeyArray.valid sw = KeyArray.newValid sc
               /\ KeyArray.pool sw = KeyArray.newPool sc
               /\ KeyArray.lastKey sw
                  = Z.of_nat (length (KeyArray.newData sc)) - 1
               /\ KeyArray.insert_tail v sw = Ok s' k
               /\ (exists p, KeyPool.pop (KeyArray.newPool sc)
                             = Some (k - KeyArray.offset s, p))
               /\ vget (KeyArray.data s') (k - KeyArray.offset s') = Some v
               /\ KeyArray.hasKey k s' = Val true)
       /\ (Run.wf s -> forall s', KeyArray.insert T0 v s <> Throw PoolExhausted s')
       /\ (Run.shadow_sized s ->
             exists s', KeyArray.insert T0 v s = Ok s' (KeyArray.lastKey s + 1)
                        /\ KeyArray.lastKey s' = 2 * KeyArray.lastKey s + 1
                        /\ KeyArray.at_ (KeyArray.lastKey s + 1) s' = Val v)
       /\ (forall s', final_state (KeyArray.insert T0 v s) = Some s' ->
                      KeyArray.overflowQueue s' = KeyArray.overflowQueue s)
       /\ (forall b, KeyArray.insert T0 v (KeyArray.set_queueEnabled b s)
                     = outcome_map (KeyArray.set_queueEnabled b)
                         (KeyArray.insert T0 v s)))
    /\ (KeyArray.resizingEnabled s = false -> KeyArray.queueEnabled s = true ->
          KeyArray.insert T0 v s
          = Ok (KeyArray.set_overflowQueue (KeyArray.overflowQueue s ++ [v]) s) (-1))
    /\ (KeyArray.resizingEnabled s = false -> KeyArray.queueEnabled s = false ->
          KeyArray.insert T0 v s = Throw PoolExhausted s).
Proof.
  intros T T0 s v Hex.
  assert (Hres : KeyArray.resizingEnabled s = true ->
                 KeyArray.insert T0 v s = KeyArray.insert_resize T0 v s).
  { intros H. unfold KeyArray.insert. by rewrite Hex, H. }
  split; [|split].
  - intros H. rewrite (Hres H). repeat apply conj.
    + done.
    + by apply insert_resize_fuel.
    + intros s' k Hins.
      destruct (insert_resize_Ok T0 v s s' k H Hins)
        as (sc & sw & ? & ? & ? & ? & ? & ? & ? & ? & ? & ? & ? & ? & ?).
      exists sc, sw. by split_and!.
    + intros Hwf s'. by apply insert_resize_not_exhausted.
    + intros Hs. destruct (insert_resize_sized T0 v s Hs Hex) as (s' & Hi & HL & Hat & _).
      exists s'. rewrite <- (Hres H). by split_and!.
    + intros s' Hs'. by apply insert_resize_queue in Hs' as [? _].
    + intros b. unfold KeyArray.insert.
      change (KeyArray.pool (KeyArray.set_queueEnabled b s)) with (KeyArray.pool s).
      change (KeyArray.resizingEnabled (KeyArray.set_queueEnabled b s))
        with (KeyArray.resizingEnabled s).
      rewrite Hex, H. apply insert_resize_queueEnabled.
  - intros H1 H2. unfold KeyArray.insert. by rewrite Hex, H1, H2.
  - intros H1 H2. unfold KeyArray.insert. by rewrite Hex, H1, H2.
Qed.

Lemma insert_exhausted_precedence_witness :
  (exists s', KeyArray.insert 0 8 Examples.full1_resizing = Ok s' 1
              /\ KeyArray.lastKey s' = 1
              /\ KeyArray.at_ 1 s' = Val 8)
  /\ (KeyArray.insert 0 8 Examples.full1_queue
      = Ok (KeyArray.set_overflowQueue [8] Examples.full1_queue) (-1))
  /\ (KeyArray.insert 0 8 Examples.full1 = Throw PoolExhausted Examples.full1).
Proof.
  split; [|split].
  - apply (proj1 (insert_exhausted_precedence Z 0
                    Examples.full1_resizing 8 eq_refl) eq_refl).
    unfold Run.shadow_sized. vm_compute. repeat apply conj; try reflexivity;
      discriminate.
  - exact (proj1 (proj2 (insert_exhausted_precedence Z 0
                           Examples.full1_queue 8 eq_refl)) eq_refl eq_refl).
  - exact (proj2 (proj2 (insert_exhausted_precedence Z 0
                           Examples.full1 8 eq_refl)) eq_refl eq_refl).
Defined.



(** C7 at a store with a non-zero offset.  [KeyArray<int> a(10, 20)]
    has ten slots.  [enableDynamicResizing()] compares the cursor [0]
    with the offset [10], builds no shadow store (its vectors stay empty
    and its pool is the default one), and still reports a copy in
    progress; the next [insert] then writes outside the empty shadow
    vector. *)
Theorem enable_on_offset_store_builds_no_shadow :
  KeyArray.make_range 0 10 20 EmptyString = Some Examples.off10
  /\ Z.of_nat (length (KeyArray.data Examples.off10)) = 10
  /\ KeyArray.enableDynamicResizing 0 Examples.off10
     = Ok Examples.off10_enabled tt
  /\ KeyArray.newData Examples.off10_enabled = []
  /\ KeyArray.newValid Examples.off10_enabled = []
  /\ KeyArray.newPool Examples.off10_enabled = KeyPool.default
  /\ KeyArray.resizingEnabled Examples.off10_enabled = true
  /\ KeyArray.copyInProgress Examples.off10_enabled = true
  /\ KeyArray.insert 0 1 Examples.off10_enabled = Undefined.
Proof. repeat apply conj; vm_compute; reflexivity. Qed.

(** ** The element count on runs without resizer and snapshot *)

Lemma count_true_bounds l : 0 <= count_true l <= Z.of_nat (length l).
Proof. induction l as [|b l IH]; [simpl; lia|]. destruct b; cbn [length count_true]; lia. Qed.

Lemma count_true_insert (l : list bool) : forall (i : nat) (b b' : bool),
  l !! i = Some b ->
  count_true (<[i:=b']> l)
  = count_true l - (if b then 1 else 0) + (if b' then 1 else 0).
Proof.
  induction l as [|c l IH]; intros [|i] b b'; simpl; try done.
  - intros [= ->]. lia.
  - intros H. rewrite (IH _ _ b' H). lia.
Qed.

Lemma count_true_replicate n : count_true (replicate n false) = 0.
Proof. induction n as [|n IH]; simpl; lia. Qed.

Lemma count_true_vset l l' i b b' :
  vget l i = Some b -> vset l i b' = Some l' ->
  count_true l' = count_true l - (if b then 1 else 0) + (if b' then 1 else 0).
Proof.
  intros Hg [Hi ->]%vset_Some. unfold vget in Hg.
  destruct (Z.ltb_spec0 i 0); [lia|]. by apply count_true_insert.
Qed.

Section Counted.
Context {T : Type} (T0 : T) `{!EqDecision T}.
Implicit Types (s : KeyArray.t T) (v : T).
Import KeyArray.
Import Run.

(** [count_keys] over the logical keys of the store counts the valid
    flags. *)
Lemma count_keys_drop s n : forall i,
  0 <= i -> i + Z.of_nat n <= lastKey s + 1 ->
  Z.of_nat (length (valid s)) = lastKey s + 1 ->
  Run.count_keys s (offset s + i) n
  = count_true (take n (drop (Z.to_nat i) (valid s))).
Proof.
  induction n as [|n IH]; intros i Hi Hn Hlen; [done|].
  cbn [Run.count_keys]. rewrite Nat2Z.inj_succ in Hn.
  destruct (lookup_lt_is_Some_2 (valid s) (Z.to_nat i)) as [b Hb]; [lia|].
  rewrite (drop_S _ _ _ Hb). cbn [take count_true].
  replace (offset s + i + 1) with (offset s + (i + 1)) by lia.
  rewrite IH by lia. replace (Z.to_nat (i + 1)) with (S (Z.to_nat i)) by lia.
  f_equal. unfold hasKey, out_of_range, Base.hasKey, lastKey, valid in *.
  destruct (Z.ltb_spec0 (offset s + i) (offset s)); [lia|].
  destruct (Z.gtb_spec (offset s + i) (Base.lastKey (base s) + offset s)); [lia|].
  simpl. replace (offset s + i - offset s) with i by lia.
  destruct (Z.geb_spec i 0); [|lia].
  destruct (Z.leb_spec0 i (Base.lastKey (base s))); [|lia]. simpl.
  unfold vget. destruct (Z.ltb_spec0 i 0); [lia|]. rewrite Hb. by destruct b.
Qed.

Lemma counted_size s :
  counted s ->
  size s = Run.count_keys s (offset s) (Z.to_nat (lastKey s + 1)).
Proof.
  intros (_ & HL & _ & Hv & _ & _ & _ & _ & Hc & _).
  replace (offset s) with (offset s + 0) at 1 by lia.
  rewrite count_keys_drop; [|lia|lia|done].
  change (Z.to_nat 0) with O. rewrite drop_0, take_ge by lia. done.
Qed.

Lemma wrap64_small z : 0 <= z < 2 ^ 64 -> wrap64 z = z.
Proof. intros H. unfold wrap64. by apply Z.mod_small. Qed.

Lemma insert_counted v s s' :
  counted s -> final_state (insert T0 v s) = Some s' -> counted s'.
Proof.
  intros Hs.
  pose proof Hs as (Hr & HL & Hd & Hv & Hst & Hn & Hm & Hfree & Hc & Hoff).
  unfold insert. rewrite Hr.
  destruct (KeyPool.empty (pool s)) eqn:Hemp.
  { destruct (queueEnabled s); intros [= <-]; done. }
  unfold insert_tail, on_base, Base.insert.
  unfold pool, data, valid, lastKey, size, Base.size in *. rewrite Hemp.
  unfold KeyPool.empty, KeyPool.pop in *. rewrite Hst in *.
  destruct (Z.gtb_spec (KeyPool.nextKey (Base.pool (base s)))
              (KeyPool.maxKey (Base.pool (base s)))); [done|].
  rewrite !vset_in_range by lia. simpl. rewrite Hr. intros [= <-].
  destruct (vget_in_range (Base.valid (base s))
              (KeyPool.nextKey (Base.pool (base s)))) as [b Hb]; [lia|].
  assert (b = false) as ->.
  { destruct b; [|done]. by destruct (Hfree _ (Z.le_refl _)). }
  pose proof (count_true_bounds (Base.valid (base s))) as Hbd.
  assert (Hcnt : count_true (<[Z.to_nat (KeyPool.nextKey (Base.pool (base s))):=true]>
                               (Base.valid (base s)))
                 = count_true (Base.valid (base s)) + 1).
  { assert (Hin : 0 <= KeyPool.nextKey (Base.pool (base s))
                       < Z.of_nat (length (Base.valid (base s)))) by lia.
    rewrite (count_true_vset _ _ _ _ true Hb (vset_in_range _ _ true Hin)).
    lia. }
  pose proof (count_true_bounds
                (<[Z.to_nat (KeyPool.nextKey (Base.pool (base s))):=true]>
                   (Base.valid (base s)))) as Hbd'.
  rewrite length_insert in Hbd'.
  unfold counted, pool, data, valid, lastKey, size, Base.size. simpl.
  rewrite !length_insert, Hc, Hcnt.
  split_and!; try done; try lia.
  - intros k Hk. erewrite vget_vset_ne; [apply Hfree; lia | apply vset_in_range; lia | lia].
  - apply wrap64_small. lia.
Qed.

Lemma remove_counted key s s' :
  counted s -> final_state (remove key s) = Some s' -> counted s'.
Proof.
  intros Hs.
  pose proof Hs as (Hr & HL & Hd & Hv & Hst & Hn & Hm & Hfree & Hc & Hoff).
  rewrite (remove_offset_0 _ _ Hoff).
  destruct (out_of_range key s); [by intros [= <-]|].
  unfold on_base, Base.remove, Base.remove_with, Base.hasKey.
  unfold pool, data, valid, lastKey, size, Base.size in *.
  destruct (_ && _) eqn:Hin; [|rewrite set_base_id; by intros [= <-]].
  destruct (vget (Base.valid (base s)) (key - offset s)) as [[|]|] eqn:Hg;
    [| rewrite set_base_id; by intros [= <-] | done].
  destruct (vset (Base.valid (base s)) (key - offset s) false) as [vl|] eqn:Hset;
    [|done].
  simpl. rewrite Hr. intros [= <-].
  assert (Hlt : key - offset s < KeyPool.nextKey (Base.pool (base s))).
  { destruct (Z.lt_ge_cases (key - offset s) (KeyPool.nextKey (Base.pool (base s))));
      [done|]. by destruct (Hfree (key - offset s)). }
  rewrite push_below_frontier by done.
  pose proof (count_true_vset _ _ _ _ _ Hg Hset) as Hcnt.
  cbn iota in Hcnt. rewrite Z.add_0_r in Hcnt.
  pose proof (count_true_bounds vl) as Hbd.
  pose proof (count_true_bounds (Base.valid (base s))) as Hbd0.
  pose proof (vset_length _ _ _ _ Hset) as Hlen.
  unfold counted, pool, data, valid, lastKey, size, Base.size. simpl.
  rewrite Hlen, Hc, Hcnt. split_and!; try done; try lia.
  - intros k Hk. erewrite vget_vset_ne; [by apply Hfree | exact Hset | lia].
  - apply wrap64_small. lia.
Qed.

Lemma assign_at_counted key x s s' :
  counted s -> final_state (assign_at key x s) = Some s' -> counted s'.
Proof.
  intros Hs. unfold assign_at, on_base, Base.assign_at_with.
  destruct (out_of_range key s); [by intros [= <-]|].
  destruct (Base.at_with _ _ (base s));
    try (rewrite set_base_id; by intros [= <-]); [|done].
  destruct (vset _ _ x) as [d|] eqn:Hset; [|done]. intros [= <-].
  apply vset_length in Hset.
  unfold counted, pool, data, valid, lastKey, size, Base.size in *. simpl.
  rewrite Hset. done.
Qed.

Lemma swap_counted key1 key2 s s' :
  counted s -> final_state (swap key1 key2 s) = Some s' -> counted s'.
Proof.
  intros Hs. unfold swap.
  repeat case_match; try done; try (by intros [= <-]).
  intros [= <-].
  repeat match goal with
         | H : vset _ _ _ = Some _ |- _ => apply vset_length in H
         end.
  unfold counted, pool, data, valid, lastKey, size, Base.size in *. simpl.
  split_and!; try apply Hs. destruct Hs as (_ & _ & Hd & _). congruence.
Qed.

Lemma clear_counted s s' :
  counted s -> final_state (clear T0 s) = Some s' -> counted s'.
Proof.
  intros (Hr & HL & Hd & Hv & Hst & Hn & Hm & Hfree & Hc & Hoff).
  unfold clear, on_base, Base.clear, vmake.
  unfold pool, data, valid, lastKey, size, Base.size in *.
  destruct (Z.ltb_spec0 (Base.lastKey (base s) + 1) 0); [lia|].
  intros [= <-].
  unfold counted, pool, data, valid, lastKey, size, Base.size. simpl.
  rewrite !length_replicate, count_true_replicate. unfold KeyPool.make.
  destruct (Z.gtb_spec 0 (Base.lastKey (base s))); [lia|]. simpl.
  split_and!; try done; try lia.
  intros k Hk. unfold vget. destruct (Z.ltb_spec0 k 0); [done|].
  intros [? _]%lookup_replicate_1. done.
Qed.

Lemma step_counted o s s' :
  counted s -> plain o -> final_state (Run.step T0 o s) = Some s' -> counted s'.
Proof.
  intros Hs Hp. pose proof Hs as (Hr & _). destruct o; simpl; try done.
  - intros H. apply (insert_counted v s); [done|]. by destruct (insert T0 v s).
  - by apply remove_counted.
  - by apply assign_at_counted.
  - by apply clear_counted.
  - intros [= <-]. unfold disableDynamicResizing.
    destruct purgeData;
      unfold counted, purge, pool, data, valid, lastKey, size in *; simpl;
      split_and!; tauto.
  - rewrite continueCopyStep_idle by eauto. by intros [= <-].
  - rewrite switchToResizedData_not_ready by eauto. by intros [= <-].
  - by intros [= <-].
  - by intros [= <-].
  - by intros [= <-].
  - by intros [= <-].
  - by intros [= <-].
  - by apply swap_counted.
Qed.

(** On runs at offset [0] that never enable the resizer (and load no
    snapshot), [size()] is the number of keys with [hasKey]. *)
Lemma plain_run_size ops : forall s s',
  counted s -> Forall plain ops -> Run.run T0 ops s = Some s' ->
  counted s'
  /\ size s' = Run.count_keys s' (offset s') (Z.to_nat (lastKey s' + 1)).
Proof.
  induction ops as [|o ops IH]; intros s s' Hs Hp; simpl.
  - intros [= <-]. split; [done | by apply counted_size].
  - apply Forall_cons_1 in Hp as [Ho Hp].
    destruct (final_state (Run.step T0 o s)) as [s1|] eqn:E; [|done].
    apply IH; [|done]. by eapply step_counted.
Qed.

Lemma of_base_counted limit b nm :
  Base.make T0 limit = Some b -> 1 <= limit <= 2 ^ 31 ->
  counted (of_base b 0 nm).
Proof.
  unfold Base.make. intros H Hl.
  destruct (vresize [] (limit - 1 + 1) T0) as [d|] eqn:Ed; [|done].
  destruct (vresize [] (limit - 1 + 1) false) as [vl|] eqn:Ev; [|done].
  injection H as <-.
  assert (vl = replicate (Z.to_nat (limit - 1 + 1)) false) as Hvl.
  { unfold vresize in Ev. destruct (_ <? 0); [done|]. injection Ev as <-.
    rewrite take_nil. simpl. by rewrite Nat.sub_0_r. }
  apply vresize_Some in Ed as [_ Ed], Ev as [_ Ev].
  unfold counted, pool, data, valid, lastKey, size, Base.size. simpl.
  unfold KeyPool.make. destruct (Z.gtb_spec 0 (limit - 1)); [lia|]. simpl.
  split_and!; try done; try lia.
  - intros k Hk. rewrite Hvl. unfold vget. destruct (Z.ltb_spec0 k 0); [done|].
    intros [? _]%lookup_replicate_1. done.
  - rewrite Hvl. by rewrite count_true_replicate.
Qed.

End Counted.

(** C4 on two runs from a fresh store.  First run: a slot copied to the
    shadow, then removed while resizing is disabled, is live again after
    the switch; [size()] is [2] and three keys have [hasKey].  Second
    run: after a save and a load, [insert] returns the key [0], which
    [hasKey] already reports; [size()] is [2] and one key has
    [hasKey].  On runs at offset [0] that neither enable the resizer
    nor load a snapshot the two numbers agree ([plain_run_size]). *)
Theorem size_differs_from_live_key_count :
  (KeyArray.make_limit 0 2 EmptyString = Some Examples.fresh2
   /\ Run.run 0 Examples.resurrect_ops Examples.fresh2 = Some Examples.resurrected
   /\ KeyArray.size Examples.resurrected = 2
   /\ Run.count_keys Examples.resurrected 0 4 = 3
   /\ KeyArray.lastKey Examples.resurrected = 3
   /\ KeyArray.hasKey 0 Examples.resurrected = Val true)
  /\ (Snapshot.saveToFile Examples.full1 = Val Examples.full1_file
      /\ Snapshot.loadFromFile Examples.full1_file Examples.full1
         = Ok Examples.reloaded1 tt
      /\ KeyArray.hasKey 0 Examples.reloaded1 = Val true
      /\ KeyArray.insert 0 9 Examples.reloaded1 = Ok Examples.reinserted1 0
      /\ KeyArray.size Examples.reinserted1 = 2
      /\ KeyArray.lastKey Examples.reinserted1 = 0
      /\ Run.count_keys Examples.reinserted1 0 1 = 1).
Proof. repeat apply conj; vm_compute; reflexivity. Qed.

(** C3 at a store whose queue holds a value.  The snapshot of
    [buffered1] (one slot holding [7], queue enabled and holding [8])
    lists the queue entry; loaded into a fresh store it gives back the
    offset, the last key and the pair [(0, 7)], resets the pool to
    [[0, 0]] with an empty recycle stack, and leaves the queue empty:
    the extraction that meets [queueEntries:] sets [failbit] and nothing
    more is read. *)
Theorem load_drops_queue :
  KeyArray.make_limit 0 1 EmptyString = Some Examples.fresh1
  /\ KeyArray.overflowQueue Examples.buffered1 = [8]
  /\ KeyArray.queueEnabled Examples.buffered1 = true
  /\ Snapshot.saveToFile Examples.buffered1 = Val Examples.buffered1_file
  /\ Snapshot.loadFromFile Examples.buffered1_file Examples.fresh1
     = Ok Examples.restored1 tt
  /\ KeyArray.offset Examples.restored1 = KeyArray.offset Examples.buffered1
  /\ KeyArray.lastKey Examples.restored1 = KeyArray.lastKey Examples.buffered1
  /\ KeyArray.at_ 0 Examples.restored1 = Val 7
  /\ KeyArray.pool Examples.restored1 = KeyPool.make 0 0
  /\ KeyArray.overflowQueue Examples.restored1 = []
  /\ Snapshot.loadFromFile Examples.buffered1_file Examples.buffered1
     = Ok Examples.reloaded_same1 tt
  /\ KeyArray.overflowQueue Examples.reloaded_same1 = [8].
Proof. repeat apply conj; vm_compute; reflexivity. Qed.

(** * Further properties *)

(** Properties of the code beyond the ones above: the pool, the slot
    store, the operations on one key, stores that grow, stores without
    resizer, and the snapshot. *)

(** ** KeyPool: recycling round trip, order of the keys *)

Section PoolMore.

Lemma pop_n_fresh n : forall lo hi,
  lo + Z.of_nat n <= hi + 1 ->
  pop_n n {| KeyPool.nextKey := lo; KeyPool.maxKey := hi; KeyPool.pool := [] |}
  = Some (zrange lo n,
          {| KeyPool.nextKey := lo + Z.of_nat n; KeyPool.maxKey := hi;
             KeyPool.pool := [] |}).
Proof.
  induction n as [|n IH]; intros lo hi Hn.
  - simpl. by rewrite Z.add_0_r.
  - rewrite Nat2Z.inj_succ in Hn. cbn [pop_n zrange]. unfold KeyPool.pop. simpl.
    destruct (Z.gtb_spec lo hi); [lia|].
    rewrite IH by lia. do 3 f_equal. lia.
Qed.

End PoolMore.

(** X1. [push] and [pop] of the pool.  A key pushed while it lies in
    [[nextKey, maxKey]] is what the next [pop] returns, and the pool is
    then the one before the push; the pool is not empty after such a
    push.  A key outside that range leaves [pop] as it was. *)
Theorem pool_push_pop_lifo :
  forall (id : Z) (p : KeyPool.t),
    (KeyPool.nextKey p <= id <= KeyPool.maxKey p ->
       KeyPool.pop (KeyPool.push id p) = Some (id, p)
       /\ KeyPool.empty (KeyPool.push id p) = false)
    /\ (~ (KeyPool.nextKey p <= id <= KeyPool.maxKey p) ->
          KeyPool.pop (KeyPool.push id p) = KeyPool.pop p).
Proof.
  intros id p. rewrite push_spec. split; intros H; case_decide; try done.
  destruct p; split; reflexivity.
Qed.

Lemma pool_push_pop_lifo_witness :
  KeyPool.pop (KeyPool.push 7 (KeyPool.make 5 9))
  = Some (7, KeyPool.make 5 9).
Proof.
  apply (proj1 (pool_push_pop_lifo 7 (KeyPool.make 5 9))).
  vm_compute. split; discriminate.
Defined.

(** X2. The keys of a fresh pool.  [pop] throws exactly when [empty] is
    true.  For bounds within [int], the pool [KeyPool(a, b)] hands out
    [min a b], [min a b + 1], ... in ascending order, as long as keys up
    to [max a b] are left and the frontier stays within [int]; when
    [max a b] is below [INT_MAX], the [pop] after [max a b] throws.  (The
    increment of the frontier after the key [INT_MAX] overflows in the
    code and is outside the statement.) *)
Theorem pool_issues_range_in_order :
  (forall p, KeyPool.pop p = None <-> KeyPool.empty p = true)
  /\ (forall (a b : Z) (n : nat),
        INT_MIN <= Z.min a b -> Z.max a b <= INT_MAX ->
        Z.of_nat n <= Z.max a b - Z.min a b + 1 ->
        Z.min a b + Z.of_nat n <= INT_MAX ->
        pop_n n (KeyPool.make a b)
        = Some (zrange (Z.min a b) n,
                {| KeyPool.nextKey := Z.min a b + Z.of_nat n;
                   KeyPool.maxKey := Z.max a b;
                   KeyPool.pool := [] |}))
  /\ (forall (a b : Z) (n : nat),
        INT_MIN <= Z.min a b -> Z.max a b < INT_MAX ->
        Z.of_nat n = Z.max a b - Z.min a b + 1 ->
        pop_n (S n) (KeyPool.make a b) = None).
Proof.
  assert (Hmake : forall a b, KeyPool.make a b
            = {| KeyPool.nextKey := Z.min a b; KeyPool.maxKey := Z.max a b;
                 KeyPool.pool := [] |}).
  { intros a b. unfold KeyPool.make.
    destruct (Z.gtb_spec a b); f_equal; lia. }
  split; [|split].
  - intros p. unfold KeyPool.pop, KeyPool.empty.
    destruct (KeyPool.pool p); [|done].
    destruct (KeyPool.nextKey p >? KeyPool.maxKey p); done.
  - intros a b n _ _ Hn _. rewrite Hmake. apply pop_n_fresh. lia.
  - intros a b n _ _ Hn. rewrite Hmake.
    replace (S n) with (n + 1)%nat by lia.
    assert (Hsplit : forall m k p, pop_n (m + k) p
              = match pop_n m p with
                | None => None
                | Some (ks, p') =>
                    match pop_n k p' with
                    | None => None
                    | Some (ks', p'') => Some (ks ++ ks', p'')
                    end
                end).
    { induction m as [|m IH]; intros k p; simpl.
      - by destruct (pop_n k p) as [[? ?]|].
      - destruct (KeyPool.pop p) as [[k0 p0]|]; [|done]. rewrite IH.
        destruct (pop_n m p0) as [[? ?]|]; [|done].
        by destruct (pop_n k t) as [[? ?]|]. }
    rewrite Hsplit, pop_n_fresh by lia. simpl. unfold KeyPool.pop. simpl.
    destruct (Z.gtb_spec (Z.min a b + Z.of_nat n) (Z.max a b)); [done | lia].
Qed.

Lemma pool_issues_range_in_order_witness :
  pop_n 3 (KeyPool.make 9 5)
  = Some ([5; 6; 7],
          {| KeyPool.nextKey := 8; KeyPool.maxKey := 9; KeyPool.pool := [] |}).
Proof.
  apply (proj1 (proj2 pool_issues_range_in_order) 9 5 3%nat);
    vm_compute; discriminate.
Defined.

(** X3. [increaseMaxValue] on an exhausted pool.  The pool [KeyPool(m)],
    [0 <= m < 2^30], hands out the [m + 1] keys [0 .. m] and is then
    empty; after [increaseMaxValue] it hands out exactly the [m] keys
    [m + 1 .. 2 m], in order, and is empty again.  For [m = 0] it stays
    empty.  (From [m = 2^30] on the product [maxKey * 2] overflows in
    the code.) *)
Theorem pool_increaseMaxValue_after_exhaustion :
  forall (m : Z) (n : nat),
    0 <= m < 2 ^ 30 -> n = Z.to_nat m ->
    exists p p',
      pop_n (S n) (KeyPool.make1 m) = Some (zrange 0 (S n), p)
      /\ KeyPool.empty p = true
      /\ pop_n n (KeyPool.increaseMaxValue p) = Some (zrange (m + 1) n, p')
      /\ KeyPool.empty p' = true
      /\ (m = 0 -> KeyPool.empty (KeyPool.increaseMaxValue p) = true).
Proof.
  intros m n [Hm _] ->. unfold KeyPool.make1.
  eexists _, _. split; [apply pop_n_fresh; lia|].
  unfold KeyPool.increaseMaxValue, KeyPool.empty. simpl.
  split; [destruct (Z.gtb_spec (0 + Z.of_nat (S (Z.to_nat m))) m); [done|lia]|].
  split; [|split].
  - replace (0 + Z.of_nat (S (Z.to_nat m))) with (m + 1) by lia.
    apply pop_n_fresh. lia.
  - simpl. destruct (Z.gtb_spec (m + 1 + Z.of_nat (Z.to_nat m)) (m * 2)); [done|lia].
  - intros ->. reflexivity.
Qed.

Lemma pool_increaseMaxValue_after_exhaustion_witness :
  exists p p',
    pop_n 4 (KeyPool.make1 3) = Some ([0; 1; 2; 3], p)
    /\ KeyPool.empty p = true
    /\ pop_n 3 (KeyPool.increaseMaxValue p) = Some ([4; 5; 6], p')
    /\ KeyPool.empty p' = true
    /\ (3 = 0 -> KeyPool.empty (KeyPool.increaseMaxValue p) = true).
Proof.
  apply (pool_increaseMaxValue_after_exhaustion 3 3%nat); [lia | reflexivity].
Defined.

(** ** KeyArrayBase: the order of the keys, [contains], the empty store *)

Section BaseMore.
Context {T : Type} `{!EqDecision T}.
Implicit Types (s : Base.t T) (v : T).
Import BaseRun.

Lemma make_sound (T0 : T) limit s :
  Base.make T0 limit = Some s -> 1 <= limit ->
  sound s /\ KeyPool.nextKey (Base.pool s) = 0 /\ Base.lastKey s = limit - 1.
Proof.
  intros Hm Hl. destruct (make_filled T0 limit s Hm Hl) as (HL & HP & HD & HV & _).
  split; [|by rewrite HP, HL].
  unfold sound. rewrite HL, HP. simpl. split_and!; try lia; try done.
  intros k Hk. revert Hm. unfold Base.make.
  destruct (vresize [] (limit - 1 + 1) T0) as [d|]; [|done].
  unfold vresize. destruct (limit - 1 + 1 <? 0); [done|].
  intros [= <-]. simpl. rewrite take_nil. simpl. unfold vget.
  destruct (k <? 0); [done|]. intros [? _]%lookup_replicate_1. done.
Qed.

Lemma insert_sound v s :
  sound s ->
  (KeyPool.nextKey (Base.pool s) <= Base.lastKey s ->
   exists s', Base.insert v s = Ok s' (KeyPool.nextKey (Base.pool s))
     /\ sound s'
     /\ KeyPool.nextKey (Base.pool s') = KeyPool.nextKey (Base.pool s) + 1
     /\ Base.lastKey s' = Base.lastKey s)
  /\ (Base.lastKey s < KeyPool.nextKey (Base.pool s) ->
      Base.insert v s = Throw PoolExhausted s).
Proof.
  intros (HL & HD & HV & HS & HN & HM & Hfree).
  unfold Base.insert, KeyPool.empty, KeyPool.pop. rewrite HS, HM. split; intros Hn.
  - destruct (Z.gtb_spec (KeyPool.nextKey (Base.pool s)) (Base.lastKey s)); [lia|].
    rewrite !vset_in_range by lia.
    eexists. split; [reflexivity|]. split; [|done].
    unfold sound. simpl. rewrite !length_insert. split_and!; try done; try lia.
    intros k Hk. erewrite vget_vset_ne; [apply Hfree; lia | apply vset_in_range; lia | lia].
  - destruct (Z.gtb_spec (KeyPool.nextKey (Base.pool s)) (Base.lastKey s)); [done|lia].
Qed.

Lemma remove_sound key s :
  sound s ->
  (exists s', Base.remove key s = Ok s' tt
     /\ sound s' /\ Base.pool s' = Base.pool s
     /\ Base.lastKey s' = Base.lastKey s)
  \/ Base.remove key s = Throw KeyNotFound s.
Proof.
  intros (HL & HD & HV & HS & HN & HM & Hfree).
  unfold Base.remove, Base.remove_with, Base.hasKey.
  destruct (Z.geb_spec key 0); simpl; [|by right].
  destruct (Z.leb_spec0 key (Base.lastKey s)); simpl; [|by right].
  destruct (vget_in_range (Base.valid s) key) as [[|] Hb]; [lia| |rewrite Hb; by right].
  rewrite Hb. rewrite vset_in_range by lia. left.
  eexists. split; [reflexivity|].
  assert (Hlt : key < KeyPool.nextKey (Base.pool s)).
  { destruct (decide (key < KeyPool.nextKey (Base.pool s))); [done|].
    destruct (Hfree key); [lia | done]. }
  simpl. rewrite push_below_frontier by done. split; [|done].
  unfold sound. simpl. rewrite length_insert. split_and!; try done.
  intros k Hk. erewrite vget_vset_ne; [by apply Hfree | apply vset_in_range; lia | lia].
Qed.

Lemma returned_keys_sound ops : forall s,
  sound s ->
  returned_keys ops s
  = zrange (KeyPool.nextKey (Base.pool s))
      (Nat.min (count_inserts ops)
         (Z.to_nat (Base.lastKey s + 1 - KeyPool.nextKey (Base.pool s)))).
Proof.
  induction ops as [|[v|key] ops IH]; intros s Hs; cbn [returned_keys count_inserts].
  - done.
  - destruct (insert_sound v s Hs) as [Hok Hex].
    destruct (decide (KeyPool.nextKey (Base.pool s) <= Base.lastKey s)) as [Hle|Hgt].
    + destruct (Hok Hle) as (s' & -> & Hs' & Hn & HL).
      rewrite (IH s' Hs'), Hn, HL.
      replace (Z.to_nat (Base.lastKey s + 1 - KeyPool.nextKey (Base.pool s)))
        with (S (Z.to_nat (Base.lastKey s + 1 - (KeyPool.nextKey (Base.pool s) + 1))))
        by lia.
      by rewrite <- Nat.succ_min_distr.
    + rewrite Hex by lia. rewrite (IH s Hs).
      replace (Z.to_nat (Base.lastKey s + 1 - KeyPool.nextKey (Base.pool s)))
        with O by lia.
      by rewrite !Nat.min_0_r.
  - destruct (remove_sound key s Hs) as [(s' & -> & Hs' & HP & HL) | ->].
    + by rewrite (IH s' Hs'), HP, HL.
    + by apply IH.
Qed.

(** The slot loop of [contains] from index [i] on. *)
Lemma contains_from_spec v s n : forall i,
  0 <= i -> i + Z.of_nat n <= Z.of_nat (length (Base.valid s)) ->
  length (Base.data s) = length (Base.valid s) ->
  exists b, Base.contains_from v s n i = Val b
    /\ (b = true <->
        exists k, i <= k < i + Z.of_nat n
          /\ vget (Base.valid s) k = Some true
          /\ vget (Base.data s) k = Some v).
Proof.
  induction n as [|n IH]; intros i Hi Hn Hlen; cbn [Base.contains_from].
  - exists false. split; [done|]. split; [done|]. intros (k & ? & _). lia.
  - rewrite Nat2Z.inj_succ in Hn.
    destruct (IH (i + 1)) as (b & Hb & Hiff); [lia..|done|].
    assert (Hstep : forall k, i <= k < i + Z.of_nat (S n) ->
              k = i \/ i + 1 <= k < i + 1 + Z.of_nat n) by (intros; lia).
    destruct (vget_in_range (Base.valid s) i) as [fl Hfl]; [lia|].
    destruct (vget_in_range (Base.data s) i) as [x Hx]; [lia|].
    rewrite Hfl. destruct fl.
    + rewrite Hx. destruct (decide (x = v)) as [->|Hne].
      * exists true. split; [done|]. split; [|done]. intros _. exists i.
        split; [lia | done].
      * exists b. split; [done|]. rewrite Hiff. split.
        -- intros (k & ? & ? & ?). exists k. split; [lia | done].
        -- intros (k & Hk & Hv & Hd). destruct (Hstep k Hk) as [->|?].
           ++ congruence.
           ++ by exists k.
    + exists b. split; [done|]. rewrite Hiff. split.
      * intros (k & ? & ? & ?). exists k. split; [lia | done].
      * intros (k & Hk & Hv & Hd). destruct (Hstep k Hk) as [->|?].
        -- congruence.
        -- by exists k.
Qed.

Lemma base_at_Val key s x :
  Z.of_nat (length (Base.data s)) = Base.lastKey s + 1 ->
  Z.of_nat (length (Base.valid s)) = Base.lastKey s + 1 ->
  Base.at_ key s = Val x <->
  0 <= key <= Base.lastKey s
  /\ vget (Base.valid s) key = Some true /\ vget (Base.data s) key = Some x.
Proof.
  intros HD HV. unfold Base.at_, Base.at_with, Base.hasKey.
  destruct (Z.geb_spec key 0); simpl; [|split; [done | lia]].
  destruct (Z.leb_spec0 key (Base.lastKey s)); simpl; [|split; [done | lia]].
  destruct (vget_in_range (Base.valid s) key) as [fl Hfl]; [lia|].
  destruct (vget_in_range (Base.data s) key) as [y Hy]; [lia|].
  rewrite Hfl, Hy. destruct fl; split; try done.
  - intros [= ->]. done.
  - intros (_ & _ & [= ->]). done.
  - intros (_ & ? & _). done.
Qed.

End BaseMore.

(** X4. The keys of a slot store.  In a [KeyArrayBase] of capacity
    [limit >= 1], over any sequence of inserts and removals, the inserts
    that return give the keys [0, 1, 2, ...] in order, and at most
    [limit] of them return, whatever is removed in between. *)
Theorem base_keys_in_issue_order :
  forall (T : Type) (T0 : T) (limit : Z) (s : Base.t T)
         (ops : list (@BaseRun.op T)),
    Base.make T0 limit = Some s -> 1 <= limit ->
    BaseRun.returned_keys ops s
    = zrange 0 (Nat.min (BaseRun.count_inserts ops) (Z.to_nat limit)).
Proof.
  intros T T0 limit s ops Hm Hl.
  destruct (make_sound T0 limit s Hm Hl) as (Hs & Hn & HL).
  rewrite (returned_keys_sound ops s Hs), Hn, HL. do 3 f_equal. lia.
Qed.

Lemma base_keys_in_issue_order_witness :
  BaseRun.returned_keys
    [BaseRun.Insert 7; BaseRun.Remove 0; BaseRun.Insert 8; BaseRun.Insert 9;
     BaseRun.Remove 1; BaseRun.Insert 10]
    {| Base.lastKey := 2; Base.elementCount := 0;
       Base.data := [0; 0; 0]; Base.valid := [false; false; false];
       Base.pool := KeyPool.make 0 2 |}
  = zrange 0 (Nat.min 4 (Z.to_nat 3)).
Proof.
  apply (base_keys_in_issue_order Z 0 3); [reflexivity | lia].
Defined.

(** X5. A store without slots.  [KeyArray(a, a)] and [KeyArray(0)] are
    built, with [lastKey = -1] and size [0]; their pool is
    [KeyPool(0, -1)], whose bounds are swapped, so it is not empty and the
    first [insert] writes [data[-1]]: undefined behaviour, not the
    exhaustion error.  With a negative limit the constructor throws and
    no object is built. *)
Theorem zero_capacity_store_insert_undefined :
  forall (T : Type) (T0 : T) (a : Z) (name : string) (v : T),
    (exists s,
        KeyArray.make_range T0 a a name = Some s
        /\ KeyArray.make_limit T0 0 name = Some (KeyArray.set_offset 0 s)
        /\ KeyArray.lastKey s = -1
        /\ KeyArray.size s = 0
        /\ KeyPool.empty (KeyArray.pool s) = false
        /\ KeyArray.insert T0 v s = Undefined
        /\ KeyArray.insert T0 v (KeyArray.set_offset 0 s) = Undefined)
    /\ (forall limit, limit < 0 ->
          Base.make T0 limit = None
          /\ KeyArray.make_limit T0 limit name = None).
Proof.
  intros T T0 a name v. split.
  - unfold KeyArray.make_range, KeyArray.make_limit.
    rewrite Z.max_id, Z.min_id, Z.sub_diag.
    eexists. split; [reflexivity|]. repeat apply conj; reflexivity.
  - intros limit Hl. unfold KeyArray.make_limit, Base.make, vresize.
    destruct (Z.ltb_spec (limit - 1 + 1) 0); [done | lia].
Qed.

Lemma zero_capacity_store_insert_undefined_witness :
  Base.make 0 (-3) = None /\ KeyArray.make_limit 0 (-3) EmptyString = None.
Proof.
  apply (proj2 (zero_capacity_store_insert_undefined Z 0 0 EmptyString 0) (-3)).
  lia.
Defined.

(** ** The slot vectors of a store keep the length [lastKey + 1] *)

Section Shaped.
Context {T : Type} (T0 : T) `{!EqDecision T}.
Implicit Types (s : KeyArray.t T) (v : T).
Import KeyArray.
Import Run.

Ltac lengths :=
  repeat match goal with
    | H : vset _ _ _ = Some _ |- _ => apply vset_length in H
    | H : vmake _ _ = Some _ |- _ => apply vmake_Some in H as [? ?]
    | H : vresize _ _ _ = Some _ |- _ => apply vresize_Some in H as [? ?]
    end.

Ltac shaped_crunch :=
  unfold shaped, lastKey, valid, data in *; simpl in *;
  intuition (try congruence; try lia).

Lemma continueCopyStep_shaped s s' :
  shaped s -> final_state (continueCopyStep s) = Some s' -> shaped s'.
Proof.
  unfold continueCopyStep, data. intros Hs H.
  repeat case_match; simplify_eq/=; lengths; shaped_crunch.
Qed.

Lemma copy_loop_shaped fuel : forall s s',
  shaped s -> final_state (copy_loop fuel s) = Some s' -> shaped s'.
Proof.
  induction fuel as [|fuel IH]; intros s s' Hs; simpl.
  - destruct (copyInProgress s); [done|]. by intros [= <-].
  - destruct (copyInProgress s); [|by intros [= <-]].
    pose proof (continueCopyStep_shaped s) as Hc.
    destruct (continueCopyStep s) as [s1 []| | |]; simpl in *; try done.
    + apply IH. by apply Hc.
    + by apply Hc.
Qed.

Lemma prepare_shadow_shaped s s' :
  shaped s -> final_state (prepare_shadow T0 s) = Some s' -> shaped s'.
Proof.
  unfold prepare_shadow. intros Hs H.
  destruct (vresize (newData s) _ T0) as [nd|] eqn:E1; [|by simplify_eq/=].
  destruct (vresize (newValid s) _ false) as [nv|] eqn:E2.
  - simplify_eq/=. lengths. shaped_crunch.
  - exfalso. eapply is_Some_None. rewrite <- E2.
    eapply vresize_same_sign. by rewrite E1.
Qed.

Lemma switchToResizedData_shaped s s' :
  shaped s -> final_state (switchToResizedData T0 s) = Some s' -> shaped s'.
Proof.
  unfold switchToResizedData. intros Hs H.
  destruct (negb (resizingEnabled s) || copyInProgress s); [by simplify_eq/=|].
  simpl in H.
  match type of H with context [prepare_shadow T0 ?x] =>
    pose proof (prepare_shadow_shaped x) as Hp end.
  destruct (resizingEnabled s); [|simplify_eq/=; shaped_crunch].
  destruct (prepare_shadow T0 _) as [s2 []| | |]; simplify_eq/=; try done.
  - assert (shaped s2) as Hs2 by (apply Hp; [shaped_crunch|done]).
    destruct s2. shaped_crunch.
  - apply Hp; [shaped_crunch|done].
Qed.

Lemma insert_tail_shaped v s s' :
  shaped s -> final_state (insert_tail v s) = Some s' -> shaped s'.
Proof.
  unfold insert_tail, on_base, Base.insert. intros Hs H.
  destruct (KeyPool.empty (Base.pool (base s))); [by simplify_eq/=; destruct s|].
  destruct (KeyPool.pop (Base.pool (base s))) as [[k p]|]; [|by simplify_eq/=; destruct s].
  destruct (vset (Base.data (base s)) k v) as [d|] eqn:Ed; [|done].
  destruct (vset (Base.valid (base s)) k true) as [vl|] eqn:Ev; [|done].
  simpl in H. lengths.
  destruct (resizingEnabled s).
  - destruct (vset (newData s) k v) as [nd|] eqn:End; [|done].
    destruct (vset (newValid s) k true) as [nv|] eqn:Env; [|done].
    simpl in H. lengths.
    match type of H with context [if _ then match continueCopyStep ?x with _ => _ end else _] =>
      assert (Hs1 : shaped x) by shaped_crunch;
      pose proof (fun s2 => continueCopyStep_shaped x s2 Hs1) as Hp end.
    destruct (copyInProgress s); [|by injection H as <-].
    destruct (continueCopyStep _) as [s3 []| | |]; simplify_eq/=; try done; by apply Hp.
  - simplify_eq/=. shaped_crunch.
Qed.

Lemma insert_shaped v s s' :
  shaped s -> final_state (insert T0 v s) = Some s' -> shaped s'.
Proof.
  unfold insert, insert_resize. intros Hs H.
  destruct (KeyPool.empty (pool s)); [|by eapply insert_tail_shaped].
  destruct (resizingEnabled s).
  - pose proof (copy_loop_shaped (copy_fuel s) s) as H1.
    destruct (copy_loop _ s) as [s1 []| | |]; simplify_eq/=; try done; [|by apply H1].
    specialize (H1 _ Hs eq_refl).
    pose proof (switchToResizedData_shaped s1) as H2.
    destruct (switchToResizedData T0 s1) as [s2 []| | |]; simplify_eq/=; try done.
    + eapply insert_tail_shaped; [|done]. by apply H2.
    + by apply H2.
  - destruct (queueEnabled s); by simplify_eq/=.
Qed.

Lemma remove_shaped key s s' :
  shaped s -> final_state (remove key s) = Some s' -> shaped s'.
Proof.
  unfold remove, on_base, Base.remove_with. intros Hs H.
  repeat case_match; simplify_eq/=; try (by destruct s); lengths; shaped_crunch.
Qed.

Lemma assign_at_shaped key x s s' :
  shaped s -> final_state (assign_at key x s) = Some s' -> shaped s'.
Proof.
  unfold assign_at, on_base, Base.assign_at_with. intros Hs H.
  repeat case_match; simplify_eq/=; try (by destruct s); lengths; shaped_crunch.
Qed.

Lemma clear_shaped s s' :
  shaped s -> final_state (clear T0 s) = Some s' -> shaped s'.
Proof.
  unfold clear, on_base, Base.clear. intros Hs H.
  repeat case_match; simplify_eq/=; try (by destruct s); lengths; shaped_crunch.
Qed.

Lemma enableDynamicResizing_shaped s s' :
  shaped s -> final_state (enableDynamicResizing T0 s) = Some s' -> shaped s'.
Proof.
  unfold enableDynamicResizing. intros Hs H.
  destruct (resizingEnabled s); [by simplify_eq/=|].
  destruct (copyIndex _ =? offset _); [|by simplify_eq/=].
  pose proof (prepare_shadow_shaped (set_resizingEnabled true s)) as Hp.
  destruct (prepare_shadow T0 _) as [s2 []| | |]; simplify_eq/=; try done.
  - assert (shaped s2) by (by apply Hp). by destruct s2.
  - by apply Hp.
Qed.

Lemma swap_shaped key1 key2 s s' :
  shaped s -> final_state (swap key1 key2 s) = Some s' -> shaped s'.
Proof.
  unfold swap. intros Hs H.
  repeat case_match; simplify_eq/=; try done; lengths; shaped_crunch.
Qed.

Lemma step_shaped o s s' :
  shaped s -> final_state (step T0 o s) = Some s' -> shaped s'.
Proof.
  intros Hs. destruct o; simpl.
  - intros H. apply (insert_shaped v s); [done|].
    by destruct (insert T0 v s).
  - by apply remove_shaped.
  - by apply assign_at_shaped.
  - by apply clear_shaped.
  - by apply enableDynamicResizing_shaped.
  - intros [= <-]. unfold disableDynamicResizing.
    destruct purgeData; unfold purge; shaped_crunch.
  - by apply continueCopyStep_shaped.
  - by apply switchToResizedData_shaped.
  - by intros [= <-].
  - by intros [= <-].
  - by intros [= <-].
  - by intros [= <-].
  - by intros [= <-].
  - by apply swap_shaped.
Qed.

Lemma run_shaped ops : forall s s',
  shaped s -> run T0 ops s = Some s' -> shaped s'.
Proof.
  induction ops as [|o ops IH]; intros s s' Hs; simpl.
  - by intros [= <-].
  - destruct (final_state (step T0 o s)) as [s1|] eqn:E; [|done].
    apply IH. by eapply step_shaped.
Qed.

Lemma of_base_shaped limit b off nm :
  Base.make T0 limit = Some b -> shaped (of_base b off nm).
Proof.
  unfold Base.make. intros H.
  destruct (vresize [] (limit - 1 + 1) T0) as [d|] eqn:Ed; [|done].
  destruct (vresize [] (limit - 1 + 1) false) as [vl|] eqn:Ev; [|done].
  injection H as <-. lengths. shaped_crunch.
Qed.

Lemma make_shaped s :
  (exists nm, make_named T0 nm = Some s)
  \/ (exists limit nm, make_limit T0 limit nm = Some s)
  \/ (exists a b nm, make_range T0 a b nm = Some s) ->
  shaped s.
Proof.
  unfold make_named, make_limit, make_range.
  intros [(nm & H) | [(limit & nm & H) | (a & b & nm & H)]];
    apply bind_Some in H as (b' & Hb & [= <-]); by eapply of_base_shaped.
Qed.

(** [hasKey] and [at] on a store with its slot vectors in shape. *)
Lemma hasKey_shaped key s :
  shaped s ->
  exists b, hasKey key s = Val b
    /\ (b = true <->
        offset s <= key <= lastKey s + offset s
        /\ vget (valid s) (key - offset s) = Some true).
Proof.
  intros (Hd & Hv & _).
  unfold hasKey, out_of_range, Base.hasKey, lastKey, valid, data in *.
  destruct (Z.ltb_spec0 key (offset s)); simpl;
    [exists false; split; [done|]; split; [done | lia]|].
  destruct (Z.gtb_spec key (Base.lastKey (base s) + offset s)); simpl;
    [exists false; split; [done|]; split; [done | lia]|].
  destruct (Z.geb_spec (key - offset s) 0); [|lia].
  destruct (Z.leb_spec0 (key - offset s) (Base.lastKey (base s))); [|lia].
  simpl.
  destruct (vget_in_range (Base.valid (base s)) (key - offset s)) as [b Hb]; [lia|].
  rewrite Hb. exists b. split; [done|]. split.
  - intros ->. split; [lia | done].
  - intros [_ [= ->]]. done.
Qed.

(** [at(key)] on a key in range: the test is [hasKey] of the shifted
    key, the value is the one of the slot of the key. *)
Lemma at_shaped key s :
  shaped s ->
  if out_of_range key s then at_ key s = Exn InvalidKey
  else
    match hasKey (key - offset s) s with
    | Val true =>
        exists x, vget (data s) (key - offset s) = Some x /\ at_ key s = Val x
    | Val false => at_ key s = Exn KeyNotFound
    | _ => False
    end.
Proof.
  intros Hs. pose proof Hs as (Hd & Hv & _).
  unfold at_, Base.at_with.
  destruct (out_of_range key s) eqn:Hout; [done|].
  destruct (hasKey_shaped (key - offset s) s Hs) as (b & -> & _).
  destruct b; [|done].
  unfold out_of_range in Hout. apply orb_false_elim in Hout as [H1 H2].
  destruct (vget_in_range (data s) (key - offset s)) as [x Hx]; [lia|].
  unfold data in Hx. rewrite Hx. by exists x.
Qed.

(** At offset [0] the test of [at(key)] is [hasKey(key)]. *)
Lemma at_shaped_0 key s :
  shaped s -> offset s = 0 ->
  match hasKey key s with
  | Val true => exists x, at_ key s = Val x
  | Val false =>
      at_ key s = Exn (if out_of_range key s then InvalidKey else KeyNotFound)
  | _ => False
  end.
Proof.
  intros Hs Hoff. pose proof (at_shaped key s Hs) as H.
  destruct (out_of_range key s) eqn:Hout.
  - unfold hasKey. by rewrite Hout.
  - replace (hasKey (key - offset s) s) with (hasKey key s) in H
      by (by rewrite Hoff, Z.sub_0_r).
    destruct (hasKey key s) as [[|]|e|]; try done.
    destruct H as (x & _ & H). by exists x.
Qed.

(** On a store whose offset is beyond its last key no key passes the
    test of [at] and [remove]. *)
Lemma hasKey_shifted_beyond key s :
  lastKey s < offset s -> out_of_range key s = false ->
  hasKey (key - offset s) s = Val false.
Proof.
  intros HL Hout. unfold out_of_range in Hout.
  apply orb_false_elim in Hout as [H1 H2].
  unfold hasKey, out_of_range.
  destruct (Z.ltb_spec0 (key - offset s) (offset s)); [done | lia].
Qed.

End Shaped.

(** X6. What [at] tests.  In a state reached from a constructed store by
    any sequence of the operations of [Run.op] (every mutating member
    function but [loadFromFile]), [at(key)] reads no slot outside a
    vector.  For a key outside [[offset, offset + lastKey]] it throws the
    [out_of_range] of [KeyArray].  For a key inside, the test made in
    [KeyArrayBase::at] is the virtual [hasKey] on the key already
    shifted, that is [KeyArray::hasKey(key - offset)]: when it is true,
    [at] returns the value of the slot [key - offset]; otherwise it
    throws the [out_of_range] of [KeyArrayBase].  At offset [0]:
    [at(key)] returns a value exactly when [hasKey(key)] is true.  On a
    store whose offset is beyond its last key, [at] throws for every
    key. *)
Theorem at_tests_the_shifted_key :
  forall (T : Type) (T0 : T) (s0 s : KeyArray.t T) (ops : list (@Run.op T))
         (key : Z),
    (exists nm, KeyArray.make_named T0 nm = Some s0)
    \/ (exists limit nm, KeyArray.make_limit T0 limit nm = Some s0)
    \/ (exists a b nm, KeyArray.make_range T0 a b nm = Some s0) ->
    Run.run T0 ops s0 = Some s ->
    (if KeyArray.out_of_range key s then KeyArray.at_ key s = Exn InvalidKey
     else
       match KeyArray.hasKey (key - KeyArray.offset s) s with
       | Val true =>
           exists x, vget (KeyArray.data s) (key - KeyArray.offset s) = Some x
                     /\ KeyArray.at_ key s = Val x
       | Val false => KeyArray.at_ key s = Exn KeyNotFound
       | _ => False
       end)
    /\ (KeyArray.offset s = 0 ->
        match KeyArray.hasKey key s with
        | Val true => exists x, KeyArray.at_ key s = Val x
        | Val false =>
            KeyArray.at_ key s
            = Exn (if KeyArray.out_of_range key s
                   then InvalidKey else KeyNotFound)
        | _ => False
        end)
    /\ (KeyArray.lastKey s < KeyArray.offset s ->
        KeyArray.at_ key s
        = Exn (if KeyArray.out_of_range key s then InvalidKey else KeyNotFound)).
Proof.
  intros T T0 s0 s ops key Hmake Hrun.
  assert (Hs : Run.shaped s).
  { eapply run_shaped; [|exact Hrun]. by eapply make_shaped. }
  split; [by apply at_shaped|]. split; [by apply at_shaped_0|].
  intros HL. pose proof (at_shaped key s Hs) as H.
  destruct (KeyArray.out_of_range key s) eqn:Hout; [done|].
  by rewrite (hasKey_shifted_beyond key s HL Hout) in H.
Qed.

Lemma at_tests_the_shifted_key_witness :
  KeyArray.at_ 10
    (default Examples.off10 (Run.run 0 [Run.Insert 7] Examples.off10))
  = Exn (if KeyArray.out_of_range 10
              (default Examples.off10 (Run.run 0 [Run.Insert 7] Examples.off10))
         then InvalidKey else KeyNotFound).
Proof.
  refine (proj2 (proj2 (at_tests_the_shifted_key Z 0 Examples.off10
            (default Examples.off10 (Run.run 0 [Run.Insert 7] Examples.off10))
            [Run.Insert 7] 10 _ _)) _).
  - right; right. exists 10, 20, EmptyString. vm_compute. reflexivity.
  - vm_compute. reflexivity.
  - vm_compute. reflexivity.
Defined.

(** ** One key at a time: [insert], [remove], [at], [swap] *)

Section OneKey.
Context {T : Type} (T0 : T) `{!EqDecision T}.
Implicit Types (s : KeyArray.t T) (v : T).
Import KeyArray.
Import Run.

(** [hasKey] and [at] read the offset, the last key and one slot. *)
Lemma hasKey_ext j s s' :
  offset s' = offset s -> lastKey s' = lastKey s ->
  vget (valid s') (j - offset s) = vget (valid s) (j - offset s) ->
  hasKey j s' = hasKey j s.
Proof.
  unfold hasKey, out_of_range, Base.hasKey, lastKey, valid.
  intros -> -> Hv. by rewrite Hv.
Qed.

(** At offset [0], [at] reads the offset, the last key and one slot. *)
Lemma at_ext j s s' :
  offset s = 0 ->
  offset s' = offset s -> lastKey s' = lastKey s ->
  vget (valid s') (j - offset s) = vget (valid s) (j - offset s) ->
  vget (data s') (j - offset s) = vget (data s) (j - offset s) ->
  at_ j s' = at_ j s.
Proof.
  intros Hoff Ho HL Hv Hd.
  rewrite !at_offset_0 by congruence.
  unfold out_of_range, Base.at_, Base.at_with, Base.hasKey, lastKey, valid, data
    in *.
  by rewrite Ho, HL, Hv, Hd.
Qed.

Lemma hasKey_Val_true key s :
  offset s <= key <= lastKey s + offset s ->
  vget (valid s) (key - offset s) = Some true ->
  hasKey key s = Val true.
Proof.
  unfold hasKey, out_of_range, Base.hasKey, lastKey, valid. intros Hk Hv.
  destruct (Z.ltb_spec0 key (offset s)); simpl; [lia|].
  destruct (Z.gtb_spec key (Base.lastKey (base s) + offset s)); simpl; [lia|].
  destruct (Z.geb_spec (key - offset s) 0); [|lia].
  destruct (Z.leb_spec0 (key - offset s) (Base.lastKey (base s))); [|lia].
  simpl. by rewrite Hv.
Qed.

(** What a returning [insert_tail] leaves in the active store. *)
Lemma insert_tail_base v s s' key :
  insert_tail v s = Ok s' key ->
  exists k p d vl,
    KeyPool.pop (pool s) = Some (k, p)
    /\ vset (data s) k v = Some d /\ vset (valid s) k true = Some vl
    /\ key = k + offset s
    /\ base s' = {| Base.lastKey := lastKey s;
                    Base.elementCount := wrap64 (Base.elementCount (base s) + 1);
                    Base.data := d; Base.valid := vl; Base.pool := p |}
    /\ offset s' = offset s
    /\ overflowQueue s' = overflowQueue s.
Proof.
  intros H. pose proof (insert_tail_queue v s s') as Hq.
  rewrite H in Hq. destruct (Hq eq_refl) as [Hq1 _].
  apply insert_tail_Ok in H as (k & p & d & vl & Hp & Hd & Hv & -> & H).
  exists k, p, d, vl. split_and!; try done.
  - simpl in H. destruct (resizingEnabled s).
    + destruct H as (nd & nv & _ & _ & H). simpl in H.
      destruct (copyInProgress s).
      * match type of H with continueCopyStep ?x = _ =>
          pose proof (continueCopyStep_frame x s') as Hf end.
        rewrite H in Hf. by destruct (Hf eq_refl) as (-> & _).
      * by subst s'.
    + by subst s'.
  - simpl in H. destruct (resizingEnabled s).
    + destruct H as (nd & nv & _ & _ & H). simpl in H.
      destruct (copyInProgress s).
      * match type of H with continueCopyStep ?x = _ =>
          pose proof (continueCopyStep_frame x s') as Hf end.
        rewrite H in Hf. by destruct (Hf eq_refl) as (_ & _ & -> & _).
      * by subst s'.
    + by subst s'.
Qed.

Lemma insert_tail_at v s s' key :
  shaped s -> insert_tail v s = Ok s' key ->
  vget (data s') (key - offset s') = Some v /\ hasKey key s' = Val true
  /\ offset s' <= key <= offset s' + lastKey s'
  /\ (offset s = 0 -> at_ key s' = Val v).
Proof.
  intros (Hd & Hv & _) H.
  apply insert_tail_base in H
    as (k & p & d & vl & _ & Ed & Ev & -> & Hb & Ho & _).
  pose proof (vset_Some _ _ _ _ Ed) as [Hk _].
  assert (Hr : offset s' <= k + offset s <= lastKey s' + offset s').
  { unfold lastKey, data in *. rewrite Hb, Ho. simpl. lia. }
  assert (Hvl : vget (valid s') (k + offset s - offset s') = Some true).
  { unfold valid. rewrite Hb, Ho. simpl.
    replace (k + offset s - offset s) with k by lia. by eapply vget_vset_eq. }
  assert (Hdt : vget (data s') (k + offset s - offset s') = Some v).
  { unfold data. rewrite Hb, Ho. simpl.
    replace (k + offset s - offset s) with k by lia. by eapply vget_vset_eq. }
  split; [exact Hdt|]. split; [by apply hasKey_Val_true|]. split; [lia|].
  intros Hoff. apply at_Val; [congruence|]. done.
Qed.

Lemma insert_Ok_cases v s s' key :
  insert T0 v s = Ok s' key ->
  (KeyPool.empty (pool s) = true /\ resizingEnabled s = false
   /\ queueEnabled s = true /\ key = -1
   /\ s' = set_overflowQueue (overflowQueue s ++ [v]) s)
  \/ (KeyPool.empty (pool s) = false /\ insert_tail v s = Ok s' key)
  \/ (KeyPool.empty (pool s) = true /\ resizingEnabled s = true
      /\ exists s1 s2, copy_loop (copy_fuel s) s = Ok s1 tt
           /\ switchToResizedData T0 s1 = Ok s2 tt
           /\ insert_tail v s2 = Ok s' key).
Proof.
  unfold insert, insert_resize.
  destruct (KeyPool.empty (pool s)); [|intros H; right; left; done].
  destruct (resizingEnabled s).
  - destruct (copy_loop _ s) as [s1 []| | |] eqn:E1; try done.
    destruct (switchToResizedData T0 s1) as [s2 []| | |] eqn:E2; try done.
    intros H. right; right. split_and!; try done. by exists s1, s2.
  - destruct (queueEnabled s); [|done]. intros [= <- <-]. by left.
Qed.

End OneKey.

(** X7. What a returning [insert] did.  On a store whose vectors have
    [lastKey + 1] slots, an [insert] that returns either buffered the
    value (pool exhausted, resizing off, queue on: it returns [-1] and
    only the queue changed), or returns a key [k] in
    [[getOffset, getMaxKeyBound]] of the new state for which [hasKey] is
    true and whose slot [k - offset] holds the inserted value, also when
    the insert switched to the resized storage.  At offset [0], [at(k)]
    returns the inserted value. *)
Theorem insert_stores_value_under_returned_key :
  forall (T : Type) (T0 : T) (s s' : KeyArray.t T) (v : T) (k : Z),
    Run.shaped s ->
    KeyArray.insert T0 v s = Ok s' k ->
    (KeyPool.empty (KeyArray.pool s) = true
     /\ KeyArray.resizingEnabled s = false
     /\ KeyArray.queueEnabled s = true
     /\ k = -1
     /\ s' = KeyArray.set_overflowQueue (KeyArray.overflowQueue s ++ [v]) s)
    \/ (vget (KeyArray.data s') (k - KeyArray.offset s') = Some v
        /\ KeyArray.hasKey k s' = Val true
        /\ KeyArray.getOffset s' <= k <= KeyArray.getMaxKeyBound s'
        /\ (KeyArray.offset s = 0 -> KeyArray.at_ k s' = Val v)).
Proof.
  intros T T0 s s' v k Hs H.
  destruct (insert_Ok_cases T0 v s s' k H)
    as [?|[[_ Ht]|(_ & _ & s1 & s2 & E1 & E2 & Ht)]]; [by left|right..].
  - eapply insert_tail_at; [exact Hs | exact Ht].
  - assert (Hs2 : Run.shaped s2).
    { eapply (switchToResizedData_shaped T0 s1); [|by rewrite E2].
      eapply copy_loop_shaped; [exact Hs | by rewrite E1]. }
    assert (Ho2 : KeyArray.offset s2 = KeyArray.offset s).
    { apply switchToResizedData_Ok in E2
        as (_ & _ & _ & _ & _ & _ & _ & Ho2 & _).
      destruct (copy_loop_frame (KeyArray.copy_fuel s) s s1) as (_ & _ & Ho1 & _);
        [by rewrite E1|]. congruence. }
    destruct (insert_tail_at v s2 s' k Hs2 Ht) as (? & ? & ? & Hat).
    split; [done|]. split; [done|]. split; [done|].
    intros Hoff. apply Hat. congruence.
Qed.

Lemma insert_stores_value_under_returned_key_witness :
  (KeyPool.empty (KeyArray.pool Examples.filled2) = true
   /\ KeyArray.resizingEnabled Examples.filled2 = false
   /\ KeyArray.queueEnabled Examples.filled2 = true
   /\ 2 = -1
   /\ Examples.switched2
      = KeyArray.set_overflowQueue
          (KeyArray.overflowQueue Examples.filled2 ++ [30]) Examples.filled2)
  \/ (vget (KeyArray.data Examples.switched2)
        (2 - KeyArray.offset Examples.switched2) = Some 30
      /\ KeyArray.hasKey 2 Examples.switched2 = Val true
      /\ KeyArray.getOffset Examples.switched2 <= 2
         <= KeyArray.getMaxKeyBound Examples.switched2
      /\ (KeyArray.offset Examples.filled2 = 0 ->
          KeyArray.at_ 2 Examples.switched2 = Val 30)).
Proof.
  apply (insert_stores_value_under_returned_key Z 0 Examples.filled2
           Examples.switched2 30 2).
  - unfold Run.shaped. vm_compute. repeat apply conj; reflexivity.
  - vm_compute. reflexivity.
Defined.

(** X8. An [insert] into a free slot changes one key.  When the pool
    is not exhausted and [insert] returns [k], [hasKey] and the slot
    value of every other key are as before, the size is one more (modulo
    [2^64]), and offset, key bound and queue are as before.  At offset
    [0], [at] of every other key is as before. *)
Theorem insert_leaves_other_keys_alone :
  forall (T : Type) (T0 : T) (s s' : KeyArray.t T) (v : T) (k : Z),
    KeyPool.empty (KeyArray.pool s) = false ->
    KeyArray.insert T0 v s = Ok s' k ->
    (forall j, j <> k ->
       KeyArray.hasKey j s' = KeyArray.hasKey j s
       /\ vget (KeyArray.data s') (j - KeyArray.offset s')
          = vget (KeyArray.data s) (j - KeyArray.offset s))
    /\ (KeyArray.offset s = 0 ->
        forall j, j <> k -> KeyArray.at_ j s' = KeyArray.at_ j s)
    /\ KeyArray.size s' = wrap64 (KeyArray.size s + 1)
    /\ KeyArray.getOffset s' = KeyArray.getOffset s
    /\ KeyArray.getMaxKeyBound s' = KeyArray.getMaxKeyBound s
    /\ KeyArray.getQueue s' = KeyArray.getQueue s.
Proof.
  intros T T0 s s' v k Hne H.
  destruct (insert_Ok_cases T0 v s s' k H)
    as [(? & _)|[[_ Ht]|(? & _)]]; [congruence | | congruence].
  apply insert_tail_base in Ht
    as (k0 & p & d & vl & _ & Ed & Ev & -> & Hb & Ho & Hq).
  unfold KeyArray.size, Base.size, KeyArray.getOffset, KeyArray.getMaxKeyBound,
    KeyArray.getQueue, KeyArray.lastKey.
  rewrite Hb, Ho, Hq. simpl.
  assert (Hv : forall j, j <> k0 + KeyArray.offset s ->
               vget (KeyArray.valid s') (j - KeyArray.offset s)
               = vget (KeyArray.valid s) (j - KeyArray.offset s)).
  { intros j Hj. unfold KeyArray.valid at 1. rewrite Hb. simpl.
    eapply vget_vset_ne; [exact Ev | lia]. }
  assert (Hd : forall j, j <> k0 + KeyArray.offset s ->
               vget (KeyArray.data s') (j - KeyArray.offset s)
               = vget (KeyArray.data s) (j - KeyArray.offset s)).
  { intros j Hj. unfold KeyArray.data at 1. rewrite Hb. simpl.
    eapply vget_vset_ne; [exact Ed | lia]. }
  assert (HL : KeyArray.lastKey s' = KeyArray.lastKey s).
  { unfold KeyArray.lastKey. by rewrite Hb. }
  split_and!; try done.
  - intros j Hj. split; [apply hasKey_ext; auto | auto].
  - intros Hoff j Hj. apply at_ext; auto.
Qed.

Lemma insert_leaves_other_keys_alone_witness :
  KeyArray.at_ 0 (Examples.after (KeyArray.insert 0 20 
     (Examples.after (KeyArray.insert 0 10 Examples.armed2) Examples.armed2))
     Examples.armed2)
  = KeyArray.at_ 0
      (Examples.after (KeyArray.insert 0 10 Examples.armed2) Examples.armed2).
Proof.
  refine (proj1 (proj2 (insert_leaves_other_keys_alone Z 0
     (Examples.after (KeyArray.insert 0 10 Examples.armed2) Examples.armed2)
     (Examples.after (KeyArray.insert 0 20 
       (Examples.after (KeyArray.insert 0 10 Examples.armed2) Examples.armed2))
       Examples.armed2) 20 1 _ _)) _ 0 _).
  - vm_compute. reflexivity.
  - vm_compute. reflexivity.
  - reflexivity.
  - lia.
Defined.

(** *** [remove], assignment, [swap], [clear], the queue *)

Section OneKeyMore.
Context {T : Type} (T0 : T) `{!EqDecision T}.
Implicit Types (s : KeyArray.t T) (v : T).
Import KeyArray.
Import Run.

Lemma out_of_range_false key s :
  offset s <= key <= lastKey s + offset s -> out_of_range key s = false.
Proof.
  intros Hk. unfold out_of_range.
  destruct (Z.ltb_spec0 key (offset s)); [lia|].
  destruct (Z.gtb_spec key (lastKey s + offset s)); [lia | done].
Qed.

Lemma base_hasKey_true key s :
  offset s <= key <= lastKey s + offset s ->
  vget (valid s) (key - offset s) = Some true ->
  Base.hasKey (key - offset s) (base s) = Val true.
Proof.
  unfold Base.hasKey, lastKey, valid. intros Hk Hv.
  destruct (Z.geb_spec (key - offset s) 0); [|lia].
  destruct (Z.leb_spec0 (key - offset s) (Base.lastKey (base s))); [|lia].
  simpl. by rewrite Hv.
Qed.

Lemma hasKey_false_at key s :
  offset s = 0 ->
  offset s <= key <= lastKey s + offset s ->
  vget (valid s) (key - offset s) = Some false ->
  hasKey key s = Val false /\ at_ key s = Exn KeyNotFound
  /\ remove key s = Throw KeyNotFound s.
Proof.
  intros Hoff Hk Hv.
  rewrite at_offset_0, remove_offset_0 by done.
  unfold hasKey, on_base, Base.remove, Base.remove_with, Base.at_, Base.at_with.
  rewrite (out_of_range_false key s Hk).
  unfold Base.hasKey, lastKey, valid in *.
  destruct (Z.geb_spec (key - offset s) 0); [|lia].
  destruct (Z.leb_spec0 (key - offset s) (Base.lastKey (base s))); [|lia].
  simpl. rewrite Hv. by rewrite set_base_id.
Qed.

End OneKeyMore.

(** X9. [remove] of a live key, at offset [0].  On a store at offset
    [0] whose vectors have [lastKey + 1] slots (and, when resizing is
    enabled, whose shadow has the slot), [remove] of a live key returns;
    afterwards [hasKey] of it is false, [at] and a second [remove] throw
    the [out_of_range] of [KeyArrayBase] (the second [remove] leaves the
    store as it is), every other key is as before, and the size is one
    less (modulo [2^64]). *)
Theorem remove_then_key_is_gone :
  forall (T : Type) (s : KeyArray.t T) (key : Z),
    Run.shaped s ->
    KeyArray.offset s = 0 ->
    KeyArray.hasKey key s = Val true ->
    (KeyArray.resizingEnabled s = true ->
     key - KeyArray.offset s < Z.of_nat (length (KeyArray.newValid s))) ->
    exists s',
      KeyArray.remove key s = Ok s' tt
      /\ KeyArray.hasKey key s' = Val false
      /\ KeyArray.at_ key s' = Exn KeyNotFound
      /\ KeyArray.remove key s' = Throw KeyNotFound s'
      /\ (forall j, j <> key ->
            KeyArray.hasKey j s' = KeyArray.hasKey j s
            /\ KeyArray.at_ j s' = KeyArray.at_ j s)
      /\ KeyArray.size s' = wrap64 (KeyArray.size s - 1).
Proof.
  intros T s key (Hd & Hv & Hn) Hoff Hk Hsh.
  apply hasKey_true in Hk as [Hr Hvl].
  assert (Hin : 0 <= key - KeyArray.offset s
                < Z.of_nat (length (KeyArray.valid s))) by lia.
  pose (b := {| Base.lastKey := KeyArray.lastKey s;
                Base.elementCount :=
                  wrap64 (Base.elementCount (KeyArray.base s) - 1);
                Base.data := KeyArray.data s;
                Base.valid := <[Z.to_nat (key - KeyArray.offset s) := false]>
                                (KeyArray.valid s);
                Base.pool := KeyPool.push (key - KeyArray.offset s)
                               (KeyArray.pool s) |}).
  assert (Hrem : Base.remove (key - KeyArray.offset s) (KeyArray.base s)
                 = Ok b tt).
  { unfold Base.remove, Base.remove_with.
    rewrite (base_hasKey_true key s Hr Hvl).
    unfold KeyArray.valid in Hin. by rewrite (vset_in_range _ _ false Hin). }
  assert (exists s', KeyArray.remove key s = Ok s' tt
            /\ KeyArray.base s' = b
            /\ KeyArray.offset s' = KeyArray.offset s) as (s' & Hs' & Hb & Ho).
  { rewrite remove_offset_0 by done. unfold KeyArray.on_base.
    rewrite (out_of_range_false key s Hr), Hrem. simpl.
    destruct (KeyArray.resizingEnabled s) eqn:Hre.
    - rewrite (vset_in_range (KeyArray.newValid s)) by (specialize (Hsh eq_refl); lia).
      eexists. split; [reflexivity | done].
    - eexists. split; [reflexivity | done]. }
  exists s'. split; [done|].
  assert (HL : KeyArray.lastKey s' = KeyArray.lastKey s).
  { unfold KeyArray.lastKey at 1. by rewrite Hb. }
  assert (Hvl' : vget (KeyArray.valid s') (key - KeyArray.offset s') = Some false).
  { unfold KeyArray.valid. rewrite Hb, Ho. simpl.
    eapply vget_vset_eq. by apply vset_in_range. }
  destruct (hasKey_false_at key s') as (H1 & H2 & H3);
    [congruence | lia | done |].
  split_and!; try done.
  - intros j Hj.
    assert (Hvj : vget (KeyArray.valid s') (j - KeyArray.offset s)
                  = vget (KeyArray.valid s) (j - KeyArray.offset s)).
    { unfold KeyArray.valid at 1. rewrite Hb. simpl.
      eapply vget_vset_ne; [by apply vset_in_range | lia]. }
    split; [by apply hasKey_ext|]. apply at_ext; try done.
    unfold KeyArray.data at 1. by rewrite Hb.
  - unfold KeyArray.size, Base.size. by rewrite Hb.
Qed.

Lemma remove_then_key_is_gone_witness :
  exists s',
    KeyArray.remove 1 Examples.switched2 = Ok s' tt
    /\ KeyArray.hasKey 1 s' = Val false
    /\ KeyArray.at_ 1 s' = Exn KeyNotFound
    /\ KeyArray.remove 1 s' = Throw KeyNotFound s'
    /\ (forall j, j <> 1 ->
          KeyArray.hasKey j s' = KeyArray.hasKey j Examples.switched2
          /\ KeyArray.at_ j s' = KeyArray.at_ j Examples.switched2)
    /\ KeyArray.size s' = wrap64 (KeyArray.size Examples.switched2 - 1).
Proof.
  apply (remove_then_key_is_gone Z Examples.switched2 1).
  - unfold Run.shaped. vm_compute. repeat apply conj; reflexivity.
  - reflexivity.
  - vm_compute. reflexivity.
  - intros _. vm_compute. reflexivity.
Defined.

(** X10. Assignment through [at], at offset [0].  On a live key of a
    store at offset [0], [at(key) = x] returns; afterwards [at(key)] is
    [x], the value of every other key, every [hasKey] and the size are
    as before, and the shadow storage is not written. *)
Theorem assign_at_then_at :
  forall (T : Type) (s : KeyArray.t T) (key : Z) (x : T),
    Run.shaped s ->
    KeyArray.offset s = 0 ->
    KeyArray.hasKey key s = Val true ->
    exists s',
      KeyArray.assign_at key x s = Ok s' tt
      /\ KeyArray.at_ key s' = Val x
      /\ (forall j, j <> key -> KeyArray.at_ j s' = KeyArray.at_ j s)
      /\ (forall j, KeyArray.hasKey j s' = KeyArray.hasKey j s)
      /\ KeyArray.size s' = KeyArray.size s
      /\ KeyArray.newData s' = KeyArray.newData s.
Proof.
  intros T s key x (Hd & Hv & Hn) Hoff Hk.
  apply hasKey_true in Hk as [Hr Hvl].
  assert (Hin : 0 <= key - KeyArray.offset s
                < Z.of_nat (length (KeyArray.data s))) by lia.
  destruct (vget_in_range (KeyArray.data s) _ Hin) as [y Hy].
  rewrite assign_at_offset_0 by done.
  unfold KeyArray.on_base, Base.assign_at, Base.assign_at_with, Base.at_with.
  rewrite (out_of_range_false key s Hr), (base_hasKey_true key s Hr Hvl).
  unfold KeyArray.data in Hy, Hin. rewrite Hy, (vset_in_range _ _ x Hin).
  eexists. split; [reflexivity|].
  split_and!; try done.
  - apply at_Val; [done|]. simpl. split; [exact Hr|]. split; [exact Hvl|].
    eapply vget_vset_eq. by apply vset_in_range.
  - intros j Hj. apply at_ext; try done. simpl.
    eapply vget_vset_ne; [by apply vset_in_range | lia].
Qed.

Lemma assign_at_then_at_witness :
  exists s',
    KeyArray.assign_at 1 5 Examples.switched2 = Ok s' tt
    /\ KeyArray.at_ 1 s' = Val 5
    /\ (forall j, j <> 1 -> KeyArray.at_ j s' = KeyArray.at_ j Examples.switched2)
    /\ (forall j, KeyArray.hasKey j s' = KeyArray.hasKey j Examples.switched2)
    /\ KeyArray.size s' = KeyArray.size Examples.switched2
    /\ KeyArray.newData s' = KeyArray.newData Examples.switched2.
Proof.
  apply (assign_at_then_at Z Examples.switched2 1 5).
  - unfold Run.shaped. vm_compute. repeat apply conj; reflexivity.
  - reflexivity.
  - vm_compute. reflexivity.
Defined.

(** X11. [swap] of two live keys.  When [hasKey] is true of both keys,
    [swap] returns, exchanges the values of their two slots, leaves every
    other slot value, every [hasKey] and the size as they were, and a
    second [swap] of the same keys gives back the store as it was.  At
    offset [0], where [at] reads the slot of a live key, [at] returns the
    exchanged values and is as before for every other key. *)
Theorem swap_exchanges_two_values :
  forall (T : Type) (s : KeyArray.t T) (key1 key2 : Z) (x1 x2 : T),
    KeyArray.hasKey key1 s = Val true ->
    KeyArray.hasKey key2 s = Val true ->
    vget (KeyArray.data s) (key1 - KeyArray.offset s) = Some x1 ->
    vget (KeyArray.data s) (key2 - KeyArray.offset s) = Some x2 ->
    exists s',
      KeyArray.swap key1 key2 s = Ok s' tt
      /\ vget (KeyArray.data s') (key1 - KeyArray.offset s') = Some x2
      /\ vget (KeyArray.data s') (key2 - KeyArray.offset s') = Some x1
      /\ (forall j, j <> key1 -> j <> key2 ->
            vget (KeyArray.data s') (j - KeyArray.offset s')
            = vget (KeyArray.data s) (j - KeyArray.offset s))
      /\ (forall j, KeyArray.hasKey j s' = KeyArray.hasKey j s)
      /\ KeyArray.size s' = KeyArray.size s
      /\ KeyArray.swap key1 key2 s' = Ok s tt
      /\ (KeyArray.offset s = 0 ->
          KeyArray.at_ key1 s' = Val x2
          /\ KeyArray.at_ key2 s' = Val x1
          /\ forall j, j <> key1 -> j <> key2 ->
                       KeyArray.at_ j s' = KeyArray.at_ j s).
Proof.
  intros T s key1 key2 x1 x2 Hk1 Hk2 Hd1 Hd2.
  pose proof (proj1 (hasKey_true key1 s) Hk1) as [Hr1 Hv1].
  pose proof (proj1 (hasKey_true key2 s) Hk2) as [Hr2 Hv2].
  pose proof (vget_Some_range _ _ _ Hd1) as Hi1.
  pose proof (vget_Some_range _ _ _ Hd2) as Hi2.
  set (i1 := key1 - KeyArray.offset s) in *.
  set (i2 := key2 - KeyArray.offset s) in *.
  set (d1 := <[Z.to_nat i1 := x2]> (KeyArray.data s)).
  set (d2 := <[Z.to_nat i2 := x1]> d1).
  assert (Hl1 : length d1 = length (KeyArray.data s)) by apply length_insert.
  assert (Hl2 : length d2 = length (KeyArray.data s))
    by (unfold d2; by rewrite length_insert).
  assert (E1 : vset (KeyArray.data s) i1 x2 = Some d1) by by apply vset_in_range.
  assert (E2 : vset d1 i2 x1 = Some d2) by (apply vset_in_range; lia).
  assert (G2 : vget d2 i2 = Some x1) by by eapply vget_vset_eq.
  assert (G1 : vget d2 i1 = Some x2).
  { destruct (decide (i1 = i2)) as [Heq|Hne].
    - rewrite Heq, G2. rewrite Heq in Hd1. congruence.
    - rewrite (vget_vset_ne _ _ _ _ _ E2) by lia. by eapply vget_vset_eq. }
  assert (Hback : <[Z.to_nat i2 := x2]> (<[Z.to_nat i1 := x1]> d2)
                  = KeyArray.data s).
  { unfold vget in Hd1, Hd2.
    destruct (i1 <? 0) eqn:?; [lia|]. destruct (i2 <? 0) eqn:?; [lia|].
    apply list_eq. intros n.
    destruct (decide (n = Z.to_nat i2)) as [->|N2].
    { rewrite list_lookup_insert_eq by (rewrite length_insert; lia). done. }
    rewrite list_lookup_insert_ne by done.
    destruct (decide (n = Z.to_nat i1)) as [->|N1].
    { rewrite list_lookup_insert_eq by lia. done. }
    rewrite list_lookup_insert_ne by done. unfold d2, d1.
    rewrite !list_lookup_insert_ne by done. done. }
  pose (s' := KeyArray.set_base
                {| Base.lastKey := KeyArray.lastKey s;
                   Base.elementCount := Base.elementCount (KeyArray.base s);
                   Base.data := d2; Base.valid := KeyArray.valid s;
                   Base.pool := KeyArray.pool s |} s).
  assert (Hs' : KeyArray.swap key1 key2 s = Ok s' tt).
  { unfold KeyArray.swap. rewrite Hk1, Hk2. fold i1 i2. rewrite Hd1, Hd2, E1, E2.
    reflexivity. }
  assert (Hh : forall j, KeyArray.hasKey j s' = KeyArray.hasKey j s)
    by (intros j; by apply hasKey_ext).
  assert (Hother : forall j, j <> key1 -> j <> key2 ->
            vget (KeyArray.data s') (j - KeyArray.offset s')
            = vget (KeyArray.data s) (j - KeyArray.offset s)).
  { intros j Hj1 Hj2. change (KeyArray.data s') with d2.
    change (KeyArray.offset s') with (KeyArray.offset s).
    rewrite (vget_vset_ne _ _ _ _ _ E2) by lia.
    by rewrite (vget_vset_ne _ _ _ _ _ E1) by lia. }
  exists s'. split; [done|]. split; [exact G1|]. split; [exact G2|].
  split; [exact Hother|]. split; [exact Hh|]. split; [done|]. split.
  2:{ intros Hoff. split; [|split].
      - apply at_Val; [done|]. split; [exact Hr1|]. split; [exact Hv1 | exact G1].
      - apply at_Val; [done|]. split; [exact Hr2|]. split; [exact Hv2 | exact G2].
      - intros j Hj1 Hj2. apply at_ext; try done. by apply Hother. }
  - unfold KeyArray.swap. rewrite !Hh, Hk1, Hk2.
    change (KeyArray.offset s') with (KeyArray.offset s). fold i1 i2.
    change (KeyArray.data s') with d2. rewrite G1, G2.
    rewrite (vset_in_range d2 i1 x1) by lia.
    rewrite vset_in_range by (rewrite length_insert; lia).
    rewrite Hback. f_equal. unfold s'. destruct s as [[] ]. reflexivity.
Qed.

Lemma swap_exchanges_two_values_witness :
  exists s',
    KeyArray.swap 0 2 Examples.switched2 = Ok s' tt
    /\ vget (KeyArray.data s') (0 - KeyArray.offset s') = Some 30
    /\ vget (KeyArray.data s') (2 - KeyArray.offset s') = Some 10
    /\ (forall j, j <> 0 -> j <> 2 ->
          vget (KeyArray.data s') (j - KeyArray.offset s')
          = vget (KeyArray.data Examples.switched2)
              (j - KeyArray.offset Examples.switched2))
    /\ (forall j, KeyArray.hasKey j s' = KeyArray.hasKey j Examples.switched2)
    /\ KeyArray.size s' = KeyArray.size Examples.switched2
    /\ KeyArray.swap 0 2 s' = Ok Examples.switched2 tt
    /\ (KeyArray.offset Examples.switched2 = 0 ->
        KeyArray.at_ 0 s' = Val 30
        /\ KeyArray.at_ 2 s' = Val 10
        /\ forall j, j <> 0 -> j <> 2 ->
                     KeyArray.at_ j s' = KeyArray.at_ j Examples.switched2).
Proof.
  apply (swap_exchanges_two_values Z Examples.switched2 0 2 10 30);
    vm_compute; reflexivity.
Defined.



(** X13. [clear] while resizing is enabled.  On a store with at least
    one slot, [clear] returns, leaves resizing enabled, and empties the
    shadow storage without sizing it again; the pool has keys, and the
    next [insert] of any value writes [newData[0]] of an empty vector:
    undefined behaviour. *)
Theorem clear_with_resizing_enabled_breaks_insert :
  forall (T : Type) (T0 : T) (s : KeyArray.t T) (v : T),
    KeyArray.resizingEnabled s = true ->
    0 <= KeyArray.lastKey s ->
    exists s',
      KeyArray.clear T0 s = Ok s' tt
      /\ KeyArray.isDynamicResizingEnabled s' = true
      /\ KeyArray.newData s' = []
      /\ KeyArray.newValid s' = []
      /\ KeyArray.size s' = 0
      /\ KeyPool.empty (KeyArray.pool s') = false
      /\ KeyArray.insert T0 v s' = Undefined.
Proof.
  intros T T0 s v Hr HL.
  unfold KeyArray.clear, KeyArray.on_base, Base.clear, vmake.
  unfold KeyArray.lastKey in HL.
  destruct (Z.ltb_spec (Base.lastKey (KeyArray.base s) + 1) 0); [lia|].
  eexists. split; [reflexivity|].
  assert (Hp : KeyPool.make 0 (Base.lastKey (KeyArray.base s))
               = {| KeyPool.nextKey := 0;
                    KeyPool.maxKey := Base.lastKey (KeyArray.base s);
                    KeyPool.pool := [] |}).
  { unfold KeyPool.make.
    by destruct (Z.gtb_spec 0 (Base.lastKey (KeyArray.base s))); [lia|]. }
  assert (He : KeyPool.empty (KeyPool.make 0 (Base.lastKey (KeyArray.base s)))
               = false) by apply make_not_empty.
  split_and!; try done.
  unfold KeyArray.insert, KeyArray.pool. simpl. rewrite He.
  unfold KeyArray.insert_tail, KeyArray.on_base, Base.insert. simpl.
  rewrite He, Hp. unfold KeyPool.pop. simpl.
  destruct (Z.gtb_spec 0 (Base.lastKey (KeyArray.base s))); [lia|].
  rewrite !vset_in_range by (rewrite length_replicate; lia).
  simpl. by rewrite Hr.
Qed.

Lemma clear_with_resizing_enabled_breaks_insert_witness :
  exists s',
    KeyArray.clear 0 Examples.switched2 = Ok s' tt
    /\ KeyArray.isDynamicResizingEnabled s' = true
    /\ KeyArray.newData s' = []
    /\ KeyArray.newValid s' = []
    /\ KeyArray.size s' = 0
    /\ KeyPool.empty (KeyArray.pool s') = false
    /\ KeyArray.insert 0 9 s' = Undefined.
Proof.
  apply (clear_with_resizing_enabled_breaks_insert Z 0 Examples.switched2 9).
  - reflexivity.
  - vm_compute. discriminate.
Defined.

(** X14. The overflow queue is first in, first out.  With the pool
    exhausted, resizing off and the queue on, inserting a list of values
    appends them to the queue in order, returns [-1] for each of them and
    changes nothing else; [getQueueSize] grows by their number. *)
Theorem exhausted_inserts_queue_in_order :
  forall (T : Type) (T0 : T) (s : KeyArray.t T) (vs : list T),
    KeyPool.empty (KeyArray.pool s) = true ->
    KeyArray.resizingEnabled s = false ->
    KeyArray.queueEnabled s = true ->
    Run.insert_all T0 vs s
    = Ok (KeyArray.set_overflowQueue (KeyArray.overflowQueue s ++ vs) s)
         (replicate (length vs) (-1))
    /\ KeyArray.getQueueSize
         (KeyArray.set_overflowQueue (KeyArray.overflowQueue s ++ vs) s)
       = KeyArray.getQueueSize s + Z.of_nat (length vs).
Proof.
  intros T T0 s vs He Hr Hq. split.
  - revert s He Hr Hq. induction vs as [|v vs IH]; intros s He Hr Hq; simpl.
    + rewrite app_nil_r. by destruct s.
    + unfold KeyArray.insert. rewrite He, Hr, Hq.
      rewrite IH by done. simpl. by rewrite <- app_assoc.
  - unfold KeyArray.getQueueSize. simpl. rewrite length_app. lia.
Qed.

Lemma exhausted_inserts_queue_in_order_witness :
  Run.insert_all 0 [8; 9; 10] Examples.full1_queue
  = Ok (KeyArray.set_overflowQueue
          (KeyArray.overflowQueue Examples.full1_queue ++ [8; 9; 10])
          Examples.full1_queue)
       (replicate (length [8; 9; 10]) (-1)).
Proof.
  apply (proj1 (exhausted_inserts_queue_in_order Z 0 Examples.full1_queue
                  [8; 9; 10] eq_refl eq_refl eq_refl)).
Defined.

(** ** Stores that grow: the values kept, the assignment lost *)

Section Growing.
Context {T : Type} (T0 : T) `{!EqDecision T}.
Implicit Types (s : KeyArray.t T) (v : T).
Import KeyArray.
Import Run.


(** A migration step leaves the shadow slots below the cursor alone,
    and the cursor does not go back. *)
Lemma continueCopyStep_below s s' i :
  continueCopyStep s = Ok s' tt -> i < copyIndex s ->
  vget (newData s') i = vget (newData s) i
  /\ vget (newValid s') i = vget (newValid s) i
  /\ i < copyIndex s'.
Proof.
  intros H Hi.
  destruct (resizingEnabled s) eqn:Hr;
    [|rewrite continueCopyStep_idle in H by (by left); by injection H as <-].
  destruct (copyInProgress s) eqn:Hc;
    [|rewrite continueCopyStep_idle in H by (by right); by injection H as <-].
  destruct (continueCopyStep_spec s s' Hr Hc H)
    as (_ & _ & _ & _ & _ & _ & _ & Hle & Hgt).
  destruct (decide (copyIndex s <= lastKey s)) as [Hcase|Hcase].
  - destruct (Hle Hcase) as (Hci & b & _ & Hb). destruct b.
    + destruct Hb as (x & _ & End & Env).
      rewrite (vget_vset_ne _ _ _ _ _ End), (vget_vset_ne _ _ _ _ _ Env) by lia.
      split_and!; try done; lia.
    + destruct Hb as [-> ->]. split_and!; try done; lia.
  - destruct (Hgt ltac:(lia)) as (-> & -> & ->). done.
Qed.

Lemma copy_loop_below n : forall s s' i,
  copy_loop n s = Ok s' tt -> i < copyIndex s ->
  vget (newData s') i = vget (newData s) i
  /\ vget (newValid s') i = vget (newValid s) i.
Proof.
  induction n as [|n IH]; intros s s' i; simpl.
  - destruct (copyInProgress s); [done|]. by intros [= <-].
  - destruct (copyInProgress s); [|by intros [= <-]].
    destruct (continueCopyStep s) as [s1 []| | |] eqn:E; try done.
    intros H Hi.
    destruct (continueCopyStep_below s s1 i E Hi) as (Hd1 & Hv1 & Hi1).
    destruct (IH s1 s' i H Hi1) as [-> ->]. done.
Qed.

(** After an exhausted [insert], a slot reads what the shadow held for
    it, whatever the active store held. *)
Lemma exhausted_insert_reads_shadow v s s' k i y :
  resizingEnabled s = true -> offset s = 0 ->
  KeyPool.empty (pool s) = true ->
  0 <= i < copyIndex s ->
  vget (newValid s) i = Some true -> vget (newData s) i = Some y ->
  KeyPool.pool (newPool s) = [] -> i < KeyPool.nextKey (newPool s) ->
  insert T0 v s = Ok s' k ->
  at_ i s' = Val y.
Proof.
  intros Hr Hoff Hex Hi Hnv Hnd Hst Hnk H.
  destruct (insert_Ok_cases T0 v s s' k H)
    as [(_ & ? & _)|[[? _]|(_ & _ & s1 & s2 & E1 & E2 & Ht)]]; [congruence..|].
  destruct (copy_loop_below _ _ _ i E1) as [Hd1 Hv1]; [lia|].
  pose proof (copy_loop_frame (copy_fuel s) s s1) as Hf. rewrite E1 in Hf.
  destruct (Hf eq_refl) as (_ & Hp1 & Ho1 & _).
  apply switchToResizedData_Ok in E2
    as (_ & _ & Hd2 & Hv2 & Hp2 & HL2 & _ & Ho2 & _).
  apply insert_tail_base in Ht
    as (q & p & d & vl & Hpop & Ed & Ev & _ & Hb & Ho & _).
  assert (Hq : q <> i).
  { rewrite Hp2, Hp1 in Hpop. unfold KeyPool.pop in Hpop. rewrite Hst in Hpop.
    destruct (KeyPool.nextKey (newPool s) >? KeyPool.maxKey (newPool s)); [done|].
    injection Hpop as <- _. lia. }
  assert (Hi2 : 0 <= i <= lastKey s2).
  { rewrite <- Hd1 in Hnd. apply vget_Some_range in Hnd. rewrite HL2. lia. }
  assert (HLs' : lastKey s' = lastKey s2) by (unfold lastKey at 1; by rewrite Hb).
  apply at_Val; [congruence|]. rewrite Ho, Ho2, Ho1, Hoff, Z.sub_0_r, HLs'.
  split; [lia|].
  unfold valid, data. rewrite Hb. simpl.
  rewrite (vget_vset_ne _ _ _ _ _ Ev Hq), (vget_vset_ne _ _ _ _ _ Ed Hq).
  fold (valid s2) (data s2). rewrite Hv2, Hd2, Hv1, Hd1. done.
Qed.









End Growing.

(** X15. An assignment the switch undoes.  At offset [0], resizing
    enabled on a store without shadow and any values inserted since: an
    assignment through [at(key)] to a slot below the copy cursor is seen
    by [at] afterwards, but the exhausted [insert] that switches to the
    resized storage brings back the value the slot had before the
    assignment; the shadow copy is not written by the assignment. *)
Theorem assignment_to_copied_slot_is_lost_at_switch :
  forall (T : Type) (T0 : T) (s0 sE s s1 s2 : KeyArray.t T) (vs : list T)
         (keys : list Z) (key k : Z) (x0 x v : T),
    KeyArray.resizingEnabled s0 = false ->
    KeyArray.copyIndex s0 = 0 ->
    KeyArray.offset s0 = 0 ->
    KeyArray.enableDynamicResizing T0 s0 = Ok sE tt ->
    Run.insert_all T0 vs sE = Ok s keys ->
    0 <= key < KeyArray.copyIndex s ->
    KeyArray.at_ key s = Val x0 ->
    KeyArray.assign_at key x s = Ok s1 tt ->
    KeyPool.empty (KeyArray.pool s1) = true ->
    KeyArray.insert T0 v s1 = Ok s2 k ->
    KeyArray.at_ key s1 = Val x /\ KeyArray.at_ key s2 = Val x0.
Proof.
  intros T T0 s0 sE s s1 s2 vs keys key k x0 x v Hr0 Hc0 Ho0 HE Hall Hkey Hat
    Has Hex Hins.
  assert (Hsy : Run.synced s).
  { eapply insert_all_synced; [|exact Hall].
    by eapply enableDynamicResizing_synced. }
  destruct Hsy as (Hr & Hoff & _ & _ & Hsync & Hst & Hnew).
  apply at_Val in Hat as (Hrg & Hvl & Hdt); [|done].
  rewrite Hoff, Z.sub_0_r in *.
  destruct (Hsync key x0 Hkey Hvl Hdt) as [Hnv Hnd].
  (* the assignment changes the active slot only *)
  assert (Hs1 : KeyArray.at_ key s1 = Val x
                /\ s1 = KeyArray.set_base (KeyArray.base s1) s).
  { revert Has. unfold KeyArray.assign_at, KeyArray.on_base, Base.assign_at_with.
    destruct (KeyArray.out_of_range key s); [done|].
    destruct (Base.at_with _ _ _); try done.
    destruct (vset (Base.data (KeyArray.base s)) _ x) as [d|] eqn:Ed; [|done].
    intros [= <-]. split; [|done].
    apply at_Val; [done|]. simpl. rewrite ?Hoff, ?Z.sub_0_r.
    split; [exact Hrg|]. split; [exact Hvl|].
    rewrite ?Hoff, ?Z.sub_0_r in Ed. by eapply vget_vset_eq. }
  destruct Hs1 as [Hat1 Hs1]. split; [done|].
  eapply (exhausted_insert_reads_shadow T0 v s1 s2 k key x0); try done;
    rewrite Hs1; simpl; try done; try lia.
  apply Hnew. lia.
Qed.

Lemma assignment_to_copied_slot_is_lost_at_switch_witness :
  KeyArray.at_ 0 (Examples.after (KeyArray.assign_at 0 99 Examples.filled2)
                    Examples.filled2) = Val 99
  /\ KeyArray.at_ 0
       (Examples.after
          (KeyArray.insert 0 30
             (Examples.after (KeyArray.assign_at 0 99 Examples.filled2)
                Examples.filled2))
          Examples.filled2) = Val 10.
Proof.
  apply (assignment_to_copied_slot_is_lost_at_switch Z 0
           Examples.fresh2 Examples.armed2 Examples.filled2
           (Examples.after (KeyArray.assign_at 0 99 Examples.filled2)
              Examples.filled2)
           (Examples.after
              (KeyArray.insert 0 30
                 (Examples.after (KeyArray.assign_at 0 99 Examples.filled2)
                    Examples.filled2))
              Examples.filled2)
           [10; 20] [0; 1] 0 2 10 99 30);
    try (vm_compute; reflexivity).
  change (0 <= 0 < 2). lia.
Defined.



(** ** Stores without resizer: keys of a range, defined runs, the count *)

Section Plain.
Context {T : Type} (T0 : T) `{!EqDecision T}.
Implicit Types (s : KeyArray.t T) (v : T).
Import KeyArray.
Import Run.

(** Inserts into free slots of a store that only issued fresh ids. *)
Lemma insert_all_fresh limit vs : forall n s,
  BaseRun.filled limit n (base s) -> resizingEnabled s = false ->
  0 <= n -> n + Z.of_nat (length vs) <= limit ->
  exists s', Run.insert_all T0 vs s = Ok s' (zrange (n + offset s) (length vs))
    /\ BaseRun.filled limit (n + Z.of_nat (length vs)) (base s')
    /\ s' = set_base (base s') s.
Proof.
  induction vs as [|v vs IH]; intros n s Hf Hr Hn Hle;
    cbn [Run.insert_all length zrange] in *.
  - exists s. rewrite Z.add_0_r, set_base_id. done.
  - rewrite Nat2Z.inj_succ in *.
    destruct (insert_filled limit n (base s) v Hf) as (b1 & Hb1 & Hf1); [lia|].
    assert (Hne : KeyPool.empty (pool s) = false).
    { destruct Hf as (_ & HP & _). unfold pool. rewrite HP.
      unfold KeyPool.empty. simpl.
      destruct (Z.gtb_spec n (limit - 1)); [lia | done]. }
    assert (Hi : insert T0 v s = Ok (set_base b1 s) (n + offset s)).
    { unfold insert, insert_tail, on_base. rewrite Hne, Hb1. simpl.
      by rewrite Hr. }
    rewrite Hi.
    destruct (IH (n + 1) (set_base b1 s) Hf1 Hr) as (s2 & -> & Hf2 & Hs2); [lia..|].
    exists s2. simpl. replace (n + 1 + offset s) with (n + offset s + 1) by lia.
    split; [done|]. split.
    + by replace (n + Z.succ (Z.of_nat (length vs)))
        with (n + 1 + Z.of_nat (length vs)) by lia.
    + rewrite Hs2 at 1. done.
Qed.

Lemma count_true_zero (l : list bool) :
  count_true l = 0 <-> forall i : nat, l !! i <> Some true.
Proof.
  induction l as [|b l IH]; simpl.
  - split; [intros _ i; by rewrite lookup_nil | done].
  - pose proof (count_true_bounds l). split.
    + intros H0 [|i]; simpl.
      * destruct b; [lia | done].
      * apply IH. destruct b; lia.
    + intros Hall. destruct b; [by destruct (Hall O)|].
      assert (count_true l = 0) as ->; [|done].
      apply IH. intros i. apply (Hall (S i)).
Qed.

Lemma counted_shaped s :
  counted s -> length (newData s) = length (newValid s) -> shaped s.
Proof. intros (_ & _ & ? & ? & _) ?. by split_and!. Qed.

(** On a store in [slotted], every operation other than enabling the
    resizer returns or throws, and leaves a store in [slotted]. *)
Lemma step_slotted o s :
  slotted s -> plain o ->
  exists s', final_state (Run.step T0 o s) = Some s' /\ slotted s'.
Proof.
  intros Hs Hp. pose proof Hs as (Hr & HL & Hd & Hv & Hn & Hm & Hst).
  assert (Hhas : forall k, exists b, hasKey k s = Val b
            /\ (b = true -> 0 <= k - offset s <= lastKey s)).
  { intros k. unfold hasKey, out_of_range, Base.hasKey.
    destruct (Z.ltb_spec0 k (offset s)); simpl; [by exists false|].
    destruct (Z.gtb_spec k (lastKey s + offset s)); simpl; [by exists false|].
    unfold lastKey, valid in *.
    destruct (Z.geb_spec (k - offset s) 0); [|lia].
    destruct (Z.leb_spec0 (k - offset s) (Base.lastKey (base s))); [|lia].
    simpl.
    destruct (vget_in_range (Base.valid (base s)) (k - offset s)) as [b Hb];
      [lia|].
    rewrite Hb. exists b. split; [done | lia]. }
  assert (Hrange : forall key, out_of_range key s = false ->
            0 <= key - offset s <= lastKey s).
  { intros key Ho. unfold out_of_range in Ho.
    destruct (Z.ltb_spec0 key (offset s)); [done|].
    destruct (Z.gtb_spec key (lastKey s + offset s)); [done|]. lia. }
  destruct o; simpl in *; try done.
  - (* insert *)
    unfold insert. destruct (KeyPool.empty (pool s)) eqn:He.
    + rewrite Hr. destruct (queueEnabled s); eexists; (split; [reflexivity|]);
        exact Hs.
    + unfold insert_tail, on_base, Base.insert. fold (pool s). rewrite He.
      unfold KeyPool.empty, KeyPool.pop in *.
      destruct (KeyPool.pool (pool s)) as [|k rest] eqn:Est.
      * destruct (Z.gtb_spec (KeyPool.nextKey (pool s)) (KeyPool.maxKey (pool s)));
          [done|].
        unfold data, valid in *. rewrite !vset_in_range by lia.
        simpl. rewrite Hr. eexists. split; [reflexivity|].
        unfold slotted, lastKey, data, valid, pool in *. simpl.
        rewrite !length_insert. split_and!; try done; try lia.
      * apply Forall_cons_1 in Hst as [Hk Hrest].
        unfold data, valid in *. rewrite !vset_in_range by lia.
        simpl. rewrite Hr. eexists. split; [reflexivity|].
        unfold slotted, lastKey, data, valid, pool in *. simpl.
        rewrite !length_insert. split_and!; try done; try lia.
  - (* remove *)
    unfold remove. destruct (out_of_range key s) eqn:Ho;
      [eexists; split; [reflexivity | exact Hs]|].
    pose proof (Hrange key Ho) as Hk.
    destruct (Hhas (key - offset s)) as (b & Hb & _).
    unfold on_base, Base.remove_with. rewrite Hb.
    destruct b; [|rewrite set_base_id; eexists; split; [reflexivity | exact Hs]].
    unfold valid in *. rewrite vset_in_range by lia. simpl. rewrite Hr.
    eexists. split; [reflexivity|].
    unfold slotted, lastKey, data, valid, pool in *. simpl.
    rewrite !length_insert. unfold KeyPool.push.
    destruct (_ && _); simpl; split_and!; try done.
    constructor; [lia | done].
  - (* at(key) = x *)
    unfold assign_at. destruct (out_of_range key s) eqn:Ho;
      [eexists; split; [reflexivity | exact Hs]|].
    pose proof (Hrange key Ho) as Hk.
    destruct (Hhas (key - offset s)) as (b & Hb & _).
    unfold on_base, Base.assign_at_with, Base.at_with. rewrite Hb.
    destruct b; [|rewrite set_base_id; eexists; split; [reflexivity | exact Hs]].
    destruct (vget_in_range (data s) (key - offset s)) as [y Hy]; [lia|].
    unfold data in *. rewrite Hy. rewrite vset_in_range by lia.
    eexists. split; [reflexivity|].
    unfold slotted, lastKey, data, valid, pool in *. simpl.
    rewrite !length_insert. by split_and!.
  - (* clear *)
    unfold clear, on_base, Base.clear, vmake. unfold lastKey in HL.
    destruct (Z.ltb_spec (Base.lastKey (base s) + 1) 0); [lia|].
    eexists. split; [reflexivity|].
    unfold slotted, lastKey, data, valid, pool in *. simpl.
    rewrite !length_replicate. unfold KeyPool.make.
    destruct (Z.gtb_spec 0 (Base.lastKey (base s))); [lia|]. simpl.
    split_and!; try done; lia.
  - (* disableDynamicResizing *)
    eexists. split; [reflexivity|]. unfold disableDynamicResizing.
    destruct purgeData; unfold purge, slotted, lastKey, data, valid, pool in *;
      simpl; by split_and!.
  - (* continueCopyStep *)
    rewrite continueCopyStep_idle by (by left). by exists s.
  - (* switchToResizedData *)
    rewrite switchToResizedData_not_ready by (by left). by exists s.
  - by eexists.
  - by eexists.
  - by eexists.
  - by eexists.
  - by eexists.
  - (* swap *)
    unfold swap.
    destruct (Hhas key1) as (b1 & -> & Hk1).
    destruct b1; [|eexists; split; [reflexivity | exact Hs]].
    destruct (Hhas key2) as (b2 & -> & Hk2).
    destruct b2; [|eexists; split; [reflexivity | exact Hs]].
    specialize (Hk1 eq_refl). specialize (Hk2 eq_refl).
    destruct (vget_in_range (data s) (key1 - offset s)) as [y1 ->]; [lia|].
    destruct (vget_in_range (data s) (key2 - offset s)) as [y2 ->]; [lia|].
    rewrite (vset_in_range (data s)) by lia.
    rewrite vset_in_range by (rewrite length_insert; lia).
    eexists. split; [reflexivity|].
    unfold slotted, lastKey, data, valid, pool in *. simpl.
    rewrite !length_insert. by split_and!.
Qed.

Lemma run_slotted ops : forall s,
  slotted s -> Forall plain ops ->
  exists s', Run.run T0 ops s = Some s' /\ slotted s'.
Proof.
  induction ops as [|o ops IH]; intros s Hs Hp; simpl.
  - by exists s.
  - apply Forall_cons_1 in Hp as [Hp Hps].
    destruct (step_slotted o s Hs Hp) as (s1 & -> & Hs1).
    by apply IH.
Qed.

Lemma constructed_slotted s : constructed T0 s -> slotted s.
Proof.
  assert (Hof : forall limit b off nm,
            Base.make T0 limit = Some b -> 1 <= limit ->
            slotted (of_base b off nm)).
  { intros limit b off nm Hb Hl.
    destruct (make_filled T0 limit b Hb Hl) as (HL & HP & HD & HV & _).
    unfold slotted, lastKey, data, valid, pool. simpl. rewrite HL, HP. simpl.
    split_and!; try done; lia. }
  unfold constructed, make_named, make_limit, make_range.
  intros [(nm & H) | [(limit & nm & H & Hl) | (a & b & nm & H & Hl)]];
    apply bind_Some in H as (b' & Hb & [= <-]);
    eapply Hof; try exact Hb; lia.
Qed.

Lemma constructed_counted s : constructed T0 s -> offset s = 0 -> counted s.
Proof.
  unfold constructed, make_named, make_limit, make_range.
  intros [(nm & H) | [(limit & nm & H & Hl) | (a & b & nm & H & Hl)]] Hoff;
    apply bind_Some in H as (b' & Hb & [= <-]); simpl in Hoff;
    rewrite ?Hoff; eapply of_base_counted; try exact Hb; lia.
Qed.

(** No key is live exactly when the count of a store in [counted] is
    zero. *)
Lemma counted_empty s :
  counted s -> (empty s = true <-> forall key, hasKey key s = Val false).
Proof.
  intros (Hr & HL & Hd & Hv & Hst & Hn & Hm & Hfree & Hsize & _).
  unfold empty, Base.empty.
  change (Base.elementCount (base s)) with (size s). rewrite Hsize.
  destruct (Z.eqb_spec (count_true (valid s)) 0) as [H0|H0].
  - split; [intros _|done]. intros key.
    unfold hasKey, Base.hasKey. destruct (out_of_range key s) eqn:Ho; [done|].
    unfold out_of_range in Ho.
    destruct (Z.ltb_spec0 key (offset s)); [done|].
    destruct (Z.gtb_spec key (lastKey s + offset s)); [done|].
    unfold lastKey, valid in *.
    destruct (Z.geb_spec (key - offset s) 0); [|lia].
    destruct (Z.leb_spec0 (key - offset s) (Base.lastKey (base s))); [|lia].
    simpl.
    destruct (vget_in_range (Base.valid (base s)) (key - offset s))
      as [b Hb]; [lia|].
    rewrite Hb. destruct b; [|done]. exfalso.
    apply (proj1 (count_true_zero _) H0 (Z.to_nat (key - offset s))).
    unfold vget in Hb. by destruct (key - offset s <? 0).
  - split; [done|]. intros Hall. exfalso. apply H0.
    apply count_true_zero. intros i Hi.
    pose proof (lookup_lt_Some _ _ _ Hi) as Hlt.
    specialize (Hall (Z.of_nat i + offset s)).
    unfold hasKey, out_of_range, Base.hasKey in Hall.
    destruct (Z.ltb_spec0 (Z.of_nat i + offset s) (offset s)); [lia|].
    destruct (Z.gtb_spec (Z.of_nat i + offset s) (lastKey s + offset s)); [lia|].
    simpl in Hall. replace (Z.of_nat i + offset s - offset s) with (Z.of_nat i) in Hall by lia.
    unfold lastKey, valid in *.
    destruct (Z.geb_spec (Z.of_nat i) 0); [|lia].
    destruct (Z.leb_spec0 (Z.of_nat i) (Base.lastKey (base s))); [|lia].
    simpl in Hall. unfold vget in Hall.
    destruct (Z.of_nat i <? 0) eqn:?; [lia|].
    rewrite Nat2Z.id, Hi in Hall. done.
Qed.

End Plain.

(** X17. The keys of a range store.  [KeyArray(a, b)], [a <> b]: the
    first inserts, up to [|a - b|] of them, return [min a b],
    [min a b + 1], ... in order; [getOffset] is [min a b] and
    [getMaxKeyBound] is [max a b - 1]; once [|a - b|] values are in, every
    [insert] throws the exhaustion error and leaves the store as it was. *)
Theorem range_store_issues_keys_in_order :
  forall (T : Type) (T0 : T) (a b : Z) (nm : string) (s : KeyArray.t T)
         (vs : list T),
    KeyArray.make_range T0 a b nm = Some s ->
    a <> b ->
    Z.of_nat (length vs) <= Z.max a b - Z.min a b ->
    exists s',
      Run.insert_all T0 vs s = Ok s' (zrange (Z.min a b) (length vs))
      /\ KeyArray.getOffset s' = Z.min a b
      /\ KeyArray.getMaxKeyBound s' = Z.max a b - 1
      /\ (Z.of_nat (length vs) = Z.max a b - Z.min a b ->
          forall v, KeyArray.insert T0 v s' = Throw PoolExhausted s').
Proof.
  intros T T0 a b nm s vs Hm Hab Hlen.
  unfold KeyArray.make_range in Hm.
  apply bind_Some in Hm as (b0 & Hb0 & [= <-]).
  pose proof (make_filled T0 _ b0 Hb0 ltac:(lia)) as Hf.
  destruct (insert_all_fresh T0 _ vs 0 (KeyArray.of_base b0 (Z.min a b) nm) Hf)
    as (s' & Hall & Hf' & Hs'); [done | lia | lia |].
  simpl in Hall. exists s'. split; [done|].
  destruct Hf' as (HL & HP & _).
  rewrite Hs'. unfold KeyArray.getOffset, KeyArray.getMaxKeyBound,
    KeyArray.lastKey. simpl. rewrite HL.
  split_and!; try done; try lia.
  intros Hfull v. unfold KeyArray.insert, KeyArray.pool. simpl. rewrite HP.
  unfold KeyPool.empty. simpl.
  destruct (Z.gtb_spec (0 + Z.of_nat (length vs)) (Z.max a b - Z.min a b - 1));
    [done | lia].
Qed.

Lemma range_store_issues_keys_in_order_witness :
  exists s',
    Run.insert_all 0 [1; 2; 3] Examples.neg_empty
    = Ok s' (zrange (Z.min 5 (-5)) (length [1; 2; 3]))
    /\ KeyArray.getOffset s' = Z.min 5 (-5)
    /\ KeyArray.getMaxKeyBound s' = Z.max 5 (-5) - 1
    /\ (Z.of_nat (length [1; 2; 3]) = Z.max 5 (-5) - Z.min 5 (-5) ->
        forall v, KeyArray.insert 0 v s' = Throw PoolExhausted s').
Proof.
  apply (range_store_issues_keys_in_order Z 0 5 (-5) EmptyString
           Examples.neg_empty [1; 2; 3]).
  - vm_compute. reflexivity.
  - lia.
  - simpl. lia.
Defined.

(** X18. Without the resizer no operation is undefined.  From a
    constructed store of [1] to [2^31] slots, at any offset, any sequence
    of the operations of [Run.op] other than [enableDynamicResizing]
    (so also without [loadFromFile], which is no operation of [Run.op])
    runs to its end: each call returns or throws, none reads or writes
    outside a vector, and the same holds for any further such
    operation. *)
Theorem runs_without_resizer_stay_defined :
  forall (T : Type) (T0 : T) (s0 : KeyArray.t T) (ops : list (@Run.op T)),
    Run.constructed T0 s0 ->
    Forall Run.plain ops ->
    exists s,
      Run.run T0 ops s0 = Some s
      /\ KeyArray.isDynamicResizingEnabled s = false
      /\ forall o, Run.plain o ->
           match Run.step T0 o s with
           | Ok _ _ | Throw _ _ => True
           | Undefined | OutOfFuel => False
           end.
Proof.
  intros T T0 s0 ops Hc Hp.
  destruct (run_slotted T0 ops s0 (constructed_slotted T0 s0 Hc) Hp)
    as (s & Hrun & Hs).
  exists s. split; [done|]. split; [apply Hs|].
  intros o Ho. destruct (step_slotted T0 o s Hs Ho) as (s' & E & _).
  by destruct (Run.step T0 o s).
Qed.

Lemma runs_without_resizer_stay_defined_witness :
  exists s,
    Run.run 0 [Run.Insert 1; Run.Remove 2; Run.Swap 1 2; Run.Clear;
               Run.Insert 2; Run.Insert 3; Run.Insert 4; Run.Insert 5;
               Run.AssignAt 2 9; Run.SwitchToResizedData]
      Examples.off1 = Some s
    /\ KeyArray.isDynamicResizingEnabled s = false
    /\ forall o, Run.plain o ->
         match Run.step 0 o s with
         | Ok _ _ | Throw _ _ => True
         | Undefined | OutOfFuel => False
         end.
Proof.
  apply (runs_without_resizer_stay_defined Z 0 Examples.off1).
  - right; right. exists 1, 4, EmptyString.
    split; [vm_compute; reflexivity | vm_compute; split; discriminate].
  - repeat constructor.
Defined.

(** X19. [size] and [empty] without the resizer, at offset [0].  After
    any sequence of the operations of [Run.op] other than
    [enableDynamicResizing] (so also without [loadFromFile]) on a
    constructed store of [1] to [2^31] slots at offset [0], [size()] is
    the number of keys in [[getOffset, getMaxKeyBound]] with [hasKey], it
    lies between [0] and the capacity, and [empty()] is true exactly when
    no key has [hasKey]. *)
Theorem size_counts_live_keys_without_resizer :
  forall (T : Type) (T0 : T) (s0 s : KeyArray.t T) (ops : list (@Run.op T)),
    Run.constructed T0 s0 ->
    KeyArray.offset s0 = 0 ->
    Forall Run.plain ops ->
    Run.run T0 ops s0 = Some s ->
    KeyArray.size s
    = Run.count_keys s (KeyArray.getOffset s)
        (Z.to_nat (KeyArray.getMaxKeyBound s - KeyArray.getOffset s + 1))
    /\ 0 <= KeyArray.size s
          <= KeyArray.getMaxKeyBound s - KeyArray.getOffset s + 1
    /\ (KeyArray.empty s = true <->
        forall key, KeyArray.hasKey key s = Val false).
Proof.
  intros T T0 s0 s ops Hc Hoff Hp Hrun.
  destruct (plain_run_size T0 ops s0 s (constructed_counted T0 s0 Hc Hoff)
              Hp Hrun) as [Hs Hsize].
  unfold KeyArray.getMaxKeyBound, KeyArray.getOffset.
  replace (KeyArray.offset s + KeyArray.lastKey s - KeyArray.offset s + 1)
    with (KeyArray.lastKey s + 1) by lia.
  split; [done|]. split; [|by apply counted_empty].
  destruct Hs as (_ & _ & _ & Hv & _ & _ & _ & _ & -> & _).
  pose proof (count_true_bounds (KeyArray.valid s)). lia.
Qed.

Lemma size_counts_live_keys_without_resizer_witness :
  KeyArray.size Examples.full1
  = Run.count_keys Examples.full1 (KeyArray.getOffset Examples.full1)
      (Z.to_nat (KeyArray.getMaxKeyBound Examples.full1
                 - KeyArray.getOffset Examples.full1 + 1)).
Proof.
  apply (size_counts_live_keys_without_resizer Z 0 Examples.fresh1
           Examples.full1 [Run.Insert 7]).
  - right; left. exists 1, EmptyString. split; [vm_compute; reflexivity | lia].
  - reflexivity.
  - repeat constructor.
  - vm_compute. reflexivity.
Defined.

(** ** The snapshot: integers written and read back *)

Section Numerals.
Import Snapshot.
Local Open Scope string_scope.

Lemma append_String c (s r : string) : String c s ++ r = String c (s ++ r).
Proof. reflexivity. Qed.

Lemma append_Empty (r : string) : EmptyString ++ r = r.
Proof. reflexivity. Qed.

Lemma of_uint_cons (d : Decimal.uint) :
  d <> Decimal.Nil ->
  Pos.of_uint d
  = (Unsigned.hd d * 10 ^ Unsigned.usize (Unsigned.tl d)
     + Pos.of_uint (Unsigned.tl d))%N.
Proof.
  destruct d; [done|..]; intros _; cbn [Unsigned.hd Unsigned.tl Pos.of_uint];
    [lia|..];
    rewrite Unsigned.of_uint_acc_rev, Unsigned.of_uint_alt; lia.
Qed.

(** Reading the digits of a printed numeral continues the number read
    so far. *)
Lemma read_digits_uint (d : Decimal.uint) : forall acc seen rest,
  read_digits acc seen (NilEmpty.string_of_uint d ++ rest)
  = read_digits (acc * 10 ^ Z.of_N (Unsigned.usize d) + Z.of_N (Pos.of_uint d))
      (match d with Decimal.Nil => seen | _ => true end) rest.
Proof.
  induction d; intros acc seen rest;
    [cbn [NilEmpty.string_of_uint Unsigned.usize Pos.of_uint];
     rewrite append_Empty; f_equal; change (Z.of_N 0) with 0; lia|..];
    (cbn [NilEmpty.string_of_uint]; rewrite append_String;
     cbn [read_digits];
     match goal with |- context [digit ?c] =>
       let v := eval vm_compute in (digit c) in change (digit c) with v end;
     cbv iota; rewrite IHd;
     match goal with |- read_digits ?a ?b rest = read_digits ?a' ?b' rest =>
       assert (a = a') as ->; [|by destruct d] end;
     match goal with |- context [Pos.of_uint (?f d)] =>
       rewrite (of_uint_cons (f d)) by done end;
     cbn [Unsigned.hd Unsigned.tl Unsigned.usize];
     rewrite N2Z.inj_add, N2Z.inj_mul, N2Z.inj_pow, N2Z.inj_succ,
       Z.pow_succ_r by lia;
     change (Z.of_N 10) with 10; lia).
Qed.

Lemma read_digits_stop acc seen rest :
  match rest with String c _ => digit c = None | EmptyString => True end ->
  read_digits acc seen rest = (acc, seen, rest).
Proof. destruct rest as [|c r]; [done|]. simpl. by intros ->. Qed.

Lemma string_of_uint_digit (d : Decimal.uint) :
  match NilEmpty.string_of_uint d with
  | String c _ => is_space c = false /\ nat_of_ascii c <> 45%nat
                  /\ nat_of_ascii c <> 43%nat
  | EmptyString => d = Decimal.Nil
  end.
Proof. destruct d; cbn; try done; split_and!; by vm_compute. Qed.

Lemma read_int_uint (d : Decimal.uint) rest :
  d <> Decimal.Nil ->
  match rest with String c _ => digit c = None | EmptyString => True end ->
  read_int (Some (NilEmpty.string_of_uint d ++ rest))
  = (Some (Z.of_N (Pos.of_uint d)), Some rest)
  /\ read_int (Some (String "-" (NilEmpty.string_of_uint d ++ rest)))
     = (Some (- Z.of_N (Pos.of_uint d)), Some rest).
Proof.
  intros Hd Hrest.
  assert (Hrd : read_digits 0 false (NilEmpty.string_of_uint d ++ rest)
                = (Z.of_N (Pos.of_uint d), true, rest)).
  { rewrite read_digits_uint. cbn [Z.mul Z.add].
    rewrite read_digits_stop by done. by destruct d. }
  split.
  - pose proof (string_of_uint_digit d) as Hc.
    unfold read_int.
    destruct (NilEmpty.string_of_uint d) as [|c r] eqn:E; [done|].
    destruct Hc as (Hsp & H45 & H43).
    rewrite append_String. cbn [skipws]. rewrite Hsp.
    destruct (Nat.eqb_spec (nat_of_ascii c) 45); [done|].
    destruct (Nat.eqb_spec (nat_of_ascii c) 43); [done|].
    rewrite <- append_String. by rewrite Hrd.
  - unfold read_int. cbn [skipws]. 
    change (is_space "-") with false. cbv iota.
    change (nat_of_ascii "-" =? 45)%nat with true. cbv iota.
    by rewrite Hrd.
Qed.

End Numerals.

(** X20. An [int] written and read back.  What [os << int] writes,
    followed by a character that is no digit or by the end of the input,
    is read by [is >> int] as the same number, and the stream is left at
    what follows. *)
Theorem read_int_of_show_int :
  forall (z : Z) (rest : string),
    match rest with
    | String c _ => Snapshot.digit c = None
    | EmptyString => True
    end ->
    Snapshot.read_int (Some (Snapshot.show_int z ++ rest)%string)
    = (Some z, Some rest).
Proof.
  intros z rest Hrest. unfold Snapshot.show_int.
  destruct z as [|p|p]; cbn [Z.to_int NilEmpty.string_of_int].
  - destruct (read_int_uint Decimal.zero rest) as [-> _]; done.
  - destruct (read_int_uint (Pos.to_uint p) rest) as [-> _];
      [apply Unsigned.to_uint_nonnil | done |].
    by rewrite Unsigned.of_to.
  - destruct (read_int_uint (Pos.to_uint p) rest) as [_ H];
      [apply Unsigned.to_uint_nonnil | done |].
    rewrite append_String, H. by rewrite Unsigned.of_to.
Qed.

Lemma read_int_of_show_int_witness :
  Snapshot.read_int (Some (Snapshot.show_int (-1205) ++ " 7")%string)
  = (Some (-1205), Some " 7"%string).
Proof.
  apply (read_int_of_show_int (-1205) " 7"). vm_compute. reflexivity.
Defined.

(** ** The snapshot: a saved store read back *)

Section Readers.
Import Snapshot.
Local Open Scope string_scope.

Lemma append_assoc (a b c : string) : (a ++ b) ++ c = a ++ (b ++ c).
Proof.
  induction a as [|x a IH]; [done|]. by rewrite !append_String, IH.
Qed.

Lemma length_append (a b : string) :
  String.length (a ++ b) = (String.length a + String.length b)%nat.
Proof.
  induction a as [|x a IH]; [done|]. rewrite append_String. simpl. by rewrite IH.
Qed.

Lemma substring_full (r : string) : String.substring 0 (String.length r) r = r.
Proof. induction r as [|c r IH]; [done|]. simpl. by rewrite IH. Qed.

Lemma read_int_skip c r :
  is_space c = true -> read_int (Some (String c r)) = read_int (Some r).
Proof. intros Hc. unfold read_int. cbn [skipws]. by rewrite Hc. Qed.

(** [os << int] read back by [is >> int], after one blank. *)
Lemma read_int_show z c r :
  is_space c = true ->
  match r with String c' _ => digit c' = None | EmptyString => True end ->
  read_int (Some (String c (show_int z ++ r))) = (Some z, Some r).
Proof.
  intros Hc Hr. rewrite read_int_skip by done. unfold show_int.
  destruct z as [|p|p]; cbn [Z.to_int NilEmpty.string_of_int].
  - destruct (read_int_uint Decimal.zero r) as [-> _]; done.
  - destruct (read_int_uint (Pos.to_uint p) r) as [-> _];
      [apply Unsigned.to_uint_nonnil | done |].
    by rewrite Unsigned.of_to.
  - destruct (read_int_uint (Pos.to_uint p) r) as [_ H];
      [apply Unsigned.to_uint_nonnil | done |].
    rewrite append_String, H. by rewrite Unsigned.of_to.
Qed.

Lemma show_int_length z : (1 <= String.length (show_int z))%nat.
Proof.
  unfold show_int.
  destruct z as [|p|p]; cbn [Z.to_int NilEmpty.string_of_int]; try (simpl; lia);
    pose proof (Unsigned.to_uint_nonnil p);
    destruct (Pos.to_uint p); simpl; try done; lia.
Qed.

(** A word without white space read back by [is >> std::string]. *)
Lemma split_word_no_space (w : string) c r :
  no_space w = true -> is_space c = true ->
  split_word (w ++ String c r) = (w, String c r).
Proof.
  intros Hw Hc. induction w as [|x w IH].
  - rewrite append_Empty. cbn [split_word]. by rewrite Hc.
  - cbn [no_space] in Hw. apply andb_true_iff in Hw as [Hx Hw].
    rewrite append_String. cbn [split_word].
    apply negb_true_iff in Hx. rewrite Hx. by rewrite IH.
Qed.

Lemma read_word_no_space (w : string) c c' r :
  w <> EmptyString -> no_space w = true ->
  is_space c = true -> is_space c' = true ->
  read_word (Some (String c (w ++ String c' r))) = (Some w, Some (String c' r)).
Proof.
  intros Hne Hw Hc Hc'. unfold read_word. cbn [skipws]. rewrite Hc.
  destruct w as [|x w]; [done|].
  pose proof Hw as Hw'. cbn [no_space] in Hw'.
  apply andb_true_iff in Hw' as [Hx _]. apply negb_true_iff in Hx.
  rewrite append_String. cbn [skipws]. rewrite Hx.
  rewrite <- append_String. by rewrite split_word_no_space.
Qed.

Lemma read_bool_show b r :
  read_bool (Some (String " " (show_bool b ++ nl ++ r))) = (Some b, Some (nl ++ r)).
Proof.
  destruct b.
  - change (read_bool (Some (String " " (show_bool true ++ nl ++ r))))
      with (Some true,
            Some (String (ascii_of_nat 10)
                    (String.substring 0 (String.length r) r))).
    by rewrite substring_full.
  - change (read_bool (Some (String " " (show_bool false ++ nl ++ r))))
      with (Some false,
            Some (String (ascii_of_nat 10)
                    (String.substring 0 (String.length r) r))).
    by rewrite substring_full.
Qed.

End Readers.

Section SavedEntries.
Import Snapshot.
Import KeyArray.
Local Open Scope string_scope.

(** The loop over the entries of [loadFromFile] on what the loop of
    [saveToFile] wrote from slot [i] on: the slots written are set, the
    others are left as they were, and the extraction that meets
    [queueEntries:] ends the loop with [failbit] set. *)
Lemma load_saved_entries (s : KeyArray.t Z) (q : string) n :
  forall i ent (u : KeyArray.t Z) value fuel,
  0 <= i -> i + Z.of_nat n <= Z.of_nat (length (valid s)) ->
  save_entries s n i = Val ent ->
  (forall j, vget (valid s) j = Some true -> j + offset s <> -1) ->
  offset u = offset s ->
  length (data u) = length (valid s) ->
  length (valid u) = length (valid s) ->
  (String.length (ent ++ "queueEntries:" ++ q) < fuel)%nat ->
  exists u',
    load_entries fuel (Some (nl ++ ent ++ "queueEntries:" ++ q)) value u
    = Ok u' None
    /\ u' = set_base (base u') u
    /\ lastKey u' = lastKey u /\ pool u' = pool u
    /\ length (data u') = length (valid s)
    /\ length (valid u') = length (valid s)
    /\ (forall j, i <= j < i + Z.of_nat n -> vget (valid s) j = Some true ->
          vget (valid u') j = Some true /\ vget (data u') j = vget (data s) j)
    /\ (forall j, ~ (i <= j < i + Z.of_nat n /\ vget (valid s) j = Some true) ->
          vget (valid u') j = vget (valid u) j
          /\ vget (data u') j = vget (data u) j).
Proof.
  induction n as [|n IH]; intros i ent u value fuel Hi Hn Hsave Hsep Ho Hd Hv Hf.
  - injection Hsave as <-.
    destruct fuel as [|f]; [by apply Nat.nlt_0_r in Hf|].
    cbn [load_entries].
    change (read_int (Some (nl ++ EmptyString ++ "queueEntries:" ++ q)))
      with (Some 0, @None string).
    cbv iota. exists u. rewrite set_base_id. split_and!; try done.
    intros j Hj. lia.
  - rewrite Nat2Z.inj_succ in Hn. cbn [save_entries] in Hsave.
    destruct (vget (valid s) i) as [[|]|] eqn:Evi; [| |done].
    + destruct (vget (data s) i) as [x|] eqn:Edi; [|done].
      destruct (save_entries s n (i + 1)) as [rest| |] eqn:Erest; try done.
      injection Hsave as <-.
      destruct fuel as [|f]; [by apply Nat.nlt_0_r in Hf|].
      assert (Hstream :
        nl ++ (show_int (i + offset s) ++ " " ++ show_int x ++ nl ++ rest)
               ++ "queueEntries:" ++ q
        = String (ascii_of_nat 10)
            (show_int (i + offset s)
             ++ String " " (show_int x ++ (nl ++ rest ++ "queueEntries:" ++ q)))).
      { rewrite !append_assoc. reflexivity. }
      assert (Hlen : (String.length (rest ++ "queueEntries:" ++ q) < f)%nat).
      { revert Hf. rewrite !append_assoc, !length_append.
        pose proof (show_int_length (i + offset s)). lia. }
      rewrite Hstream. cbn [load_entries].
      rewrite read_int_show by done. cbv iota.
      destruct (Z.eqb_spec (i + offset s) (-1)) as [Heq|_];
        [by destruct (Hsep i Evi)|].
      change (nl ++ rest ++ "queueEntries:" ++ q)
        with (String (ascii_of_nat 10) (rest ++ "queueEntries:" ++ q)).
      rewrite read_int_show by done. cbv iota. rewrite Ho.
      replace (i + offset s - offset s) with i by lia.
      destruct (Z.geb_spec i 0); [|lia].
      assert (Hin : 0 <= i < Z.of_nat (length (data u))) by lia.
      destruct (Z.ltb_spec i (Z.of_nat (length (data u)))); [|lia].
      cbn [andb]. rewrite (vset_in_range (data u) i x Hin).
      rewrite (vset_in_range (valid u) i true) by lia.
      match goal with |- context [load_entries f _ _ ?u1] => set (u1' := u1) end.
      destruct (IH (i + 1) rest u1' (Some x) f) as
        (u' & Hload & Hu' & HL' & Hp' & Hd' & Hv' & Hset & Hframe);
        try done; try lia.
      { unfold u1', data. simpl. rewrite length_insert. exact Hd. }
      { unfold u1', valid. simpl. rewrite length_insert. exact Hv. }
      change (String (ascii_of_nat 10) (rest ++ "queueEntries:" ++ q))
        with (nl ++ rest ++ "queueEntries:" ++ q).
      exists u'. rewrite Hload. split_and!; try done.
      * intros j Hj Hlive. destruct (decide (j = i)) as [->|Hne].
        -- destruct (Hframe i) as [-> ->]; [lia|].
           unfold u1', valid, data. simpl.
           rewrite (vget_vset_eq _ _ _ _ (vset_in_range (Base.valid (base u)) i true ltac:(unfold valid in *; lia))).
           rewrite (vget_vset_eq _ _ _ _ (vset_in_range (Base.data (base u)) i x ltac:(unfold data in *; lia))).
           done.
        -- apply Hset; [lia | done].
      * intros j Hj. destruct (Hframe j) as [-> ->]; [intros [? ?]; apply Hj; split; [lia | done]|].
        assert (j <> i) by (intros ->; apply Hj; split; [lia | done]).
        unfold u1', valid, data. simpl.
        rewrite (vget_vset_ne _ _ _ _ _ (vset_in_range (Base.valid (base u)) i true ltac:(unfold valid in *; lia))) by done.
        rewrite (vget_vset_ne _ _ _ _ _ (vset_in_range (Base.data (base u)) i x ltac:(unfold data in *; lia))) by done.
        done.
    + destruct (IH (i + 1) ent u value fuel) as
        (u' & Hload & Hu' & HL' & Hp' & Hd' & Hv' & Hset & Hframe);
        try done; try lia.
      exists u'. split_and!; try done.
      * intros j Hj Hlive. apply Hset; [|done].
        destruct (decide (j = i)) as [->|]; [congruence | lia].
      * intros j Hj. apply Hframe. intros [? ?]. apply Hj. split; [lia | done].
Qed.

End SavedEntries.

Section SavedHeader.
Import Snapshot.
Import KeyArray.
Local Open Scope string_scope.

Lemma getline_version r : getline (Some ("version: 2.0" ++ nl ++ r)) = Some r.
Proof. reflexivity. Qed.

Lemma read_label_name r :
  read_word (Some ("name: " ++ r)) = (Some "name:", Some (String " " r)).
Proof. reflexivity. Qed.

Lemma read_label_offset r :
  read_word (Some (nl ++ "offset: " ++ r)) = (Some "offset:", Some (String " " r)).
Proof. reflexivity. Qed.

Lemma read_label_lastKey r :
  read_word (Some (nl ++ "lastKey: " ++ r))
  = (Some "lastKey:", Some (String " " r)).
Proof. reflexivity. Qed.

Lemma read_label_dynamicResizing r :
  read_word (Some (nl ++ "dynamicResizing: " ++ r))
  = (Some "dynamicResizing:", Some (String " " r)).
Proof. reflexivity. Qed.

Lemma read_label_queueEnabled r :
  read_word (Some (nl ++ "queueEnabled: " ++ r))
  = (Some "queueEnabled:", Some (String " " r)).
Proof. reflexivity. Qed.

Lemma read_label_queueSize r :
  read_word (Some (nl ++ "queueSize: " ++ r))
  = (Some "queueSize:", Some (String " " r)).
Proof. reflexivity. Qed.

Lemma read_label_entries r :
  read_word (Some (nl ++ "entries:" ++ nl ++ r)) = (Some "entries:", Some (nl ++ r)).
Proof. reflexivity. Qed.

Lemma read_word_name (w r : string) :
  w <> EmptyString -> no_space w = true ->
  read_word (Some (String " " (w ++ nl ++ r))) = (Some w, Some (nl ++ r)).
Proof.
  intros Hne Hw. change (nl ++ r) with (String (ascii_of_nat 10) r).
  by apply read_word_no_space.
Qed.

Lemma read_int_show_nl z r :
  read_int (Some (String " " (show_int z ++ nl ++ r))) = (Some z, Some (nl ++ r)).
Proof.
  change (nl ++ r) with (String (ascii_of_nat 10) r).
  by apply read_int_show.
Qed.

Lemma save_entries_defined (s : KeyArray.t Z) n : forall i,
  0 <= i -> i + Z.of_nat n <= Z.of_nat (length (valid s)) ->
  length (data s) = length (valid s) ->
  exists ent, save_entries s n i = Val ent.
Proof.
  induction n as [|n IH]; intros i Hi Hn Hlen; cbn [save_entries].
  - by eexists.
  - rewrite Nat2Z.inj_succ in Hn.
    destruct (vget_in_range (valid s) i) as [b ->]; [lia|].
    destruct (IH (i + 1)) as [ent Hent]; [lia..|done|].
    destruct b; [|by exists ent].
    destruct (vget_in_range (data s) i) as [x ->]; [lia|].
    rewrite Hent. by eexists.
Qed.

(** The validity flags that [resize] leaves in a target without live
    keys. *)
Lemma vresize_no_true (v v' : list bool) n :
  (forall i, vget v i <> Some true) ->
  vresize v n false = Some v' ->
  forall i, 0 <= i < n -> vget v' i = Some false.
Proof.
  intros Hv Hr i Hi. pose proof (vresize_Some _ _ _ _ Hr) as [_ Hlen].
  destruct (vget_in_range v' i) as [b Hb]; [lia|]. rewrite Hb.
  destruct b; [|done]. exfalso.
  revert Hr Hb. unfold vresize. destruct (n <? 0)%Z; [done|]. intros [= <-].
  unfold vget. destruct (i <? 0)%Z eqn:E; [done|].
  intros [Hl|[_ Hl]]%lookup_app_Some.
  - apply lookup_take_Some in Hl as [Hl _]. apply (Hv i). unfold vget.
    by rewrite E.
  - by apply lookup_replicate_1 in Hl as [? _].
Qed.

End SavedHeader.

(** What [loadFromFile] makes of a file written by [saveToFile]. *)
Lemma save_then_load_state :
  forall (s t : KeyArray.t Z),
    Run.shaped s ->
    no_space (KeyArray.name s) = true ->
    (forall key, KeyArray.hasKey key s = Val true -> key <> -1) ->
    exists (file : string) (s' : KeyArray.t Z),
      Snapshot.saveToFile s = Val file
      /\ Snapshot.loadFromFile file t = Ok s' tt
      /\ KeyArray.getOffset s' = KeyArray.getOffset s
      /\ KeyArray.getMaxKeyBound s' = KeyArray.getMaxKeyBound s
      /\ KeyArray.getName s'
         = match KeyArray.name s with
           | EmptyString => "(unnamed)"%string
           | nm => nm
           end
      /\ KeyArray.isDynamicResizingEnabled s'
         = KeyArray.isDynamicResizingEnabled s
      /\ KeyArray.queueEnabled s' = KeyArray.queueEnabled s
      /\ (forall key x,
            KeyArray.hasKey key s = Val true ->
            vget (KeyArray.data s) (key - KeyArray.offset s) = Some x ->
            KeyArray.hasKey key s' = Val true
            /\ vget (KeyArray.data s') (key - KeyArray.offset s') = Some x)
      /\ (KeyArray.offset s = 0 ->
          forall key x,
            KeyArray.at_ key s = Val x -> KeyArray.at_ key s' = Val x)
      /\ ((forall i, vget (KeyArray.valid t) i <> Some true) ->
          forall key, KeyArray.hasKey key s' = KeyArray.hasKey key s)
      /\ KeyArray.getQueue s' = KeyArray.getQueue t
      /\ KeyArray.pool s'
         = KeyPool.make (KeyArray.offset s) (KeyArray.lastKey s).
Proof.
  intros s t (Hd & Hv & _) Hname Hsep.
  assert (Hlen : length (KeyArray.data s) = length (KeyArray.valid s)) by lia.
  assert (HL : 0 <= KeyArray.lastKey s + 1) by lia.
  destruct (save_entries_defined s (Z.to_nat (KeyArray.lastKey s + 1)) 0)
    as [ent Hent]; [lia | lia | done |].
  pose proof (eq_refl (Snapshot.saveToFile s)) as Hsave.
  unfold Snapshot.saveToFile in Hsave at 2. rewrite Hent in Hsave.
  set (w := match KeyArray.name s with
            | EmptyString => "(unnamed)"%string
            | nm => nm
            end) in *.
  assert (Hw : w <> EmptyString /\ no_space w = true)
    by (unfold w; by destruct (KeyArray.name s)).
  destruct Hw as [Hw1 Hw2].
  set (Q := if KeyArray.queueEnabled s
            then Snapshot.save_queue (KeyArray.overflowQueue s)
            else EmptyString) in *.
  destruct (vresize_nonneg (KeyArray.data t) _ 0 HL) as [d0 Hd0].
  destruct (vresize_nonneg (KeyArray.valid t) _ false HL) as [v0 Hv0].
  set (u0 := KeyArray.mk
               {| Base.lastKey := KeyArray.lastKey s; Base.elementCount := 0;
                  Base.data := d0; Base.valid := v0;
                  Base.pool := KeyPool.reset (KeyArray.offset s)
                                 (KeyArray.lastKey s) (KeyArray.pool t) |}
               (KeyArray.offset s) w (KeyArray.resizingEnabled s)
               (KeyArray.copyInProgress t) (KeyArray.copyIndex t)
               (KeyArray.newData t) (KeyArray.newValid t) (KeyArray.newPool t)
               (KeyArray.queueEnabled s) (KeyArray.overflowQueue t)).
  assert (Hsep' : forall j, vget (KeyArray.valid s) j = Some true ->
                            j + KeyArray.offset s <> -1).
  { intros j Hj. apply Hsep. apply hasKey_Val_true.
    - apply vget_Some_range in Hj. lia.
    - by replace (j + KeyArray.offset s - KeyArray.offset s) with j by lia. }
  match type of Hsave with _ = Val ?f => set (file := f) in * end.
  assert (Hrun : exists u',
            Snapshot.loadFromFile file t = Ok u' tt
            /\ u' = KeyArray.set_base (KeyArray.base u') u0
            /\ KeyArray.lastKey u' = KeyArray.lastKey s
            /\ KeyArray.pool u' = KeyArray.pool u0
            /\ (forall j, vget (KeyArray.valid s) j = Some true ->
                  vget (KeyArray.valid u') j = Some true
                  /\ vget (KeyArray.data u') j = vget (KeyArray.data s) j)
            /\ (forall j, vget (KeyArray.valid s) j <> Some true ->
                  vget (KeyArray.valid u') j = vget v0 j)
            /\ length (KeyArray.valid u') = length (KeyArray.valid s)).
  { unfold Snapshot.loadFromFile, file. cbv zeta.
    rewrite getline_version, read_label_name. cbv iota beta.
    rewrite (read_word_name w _ Hw1 Hw2). cbv iota beta.
    rewrite read_label_offset. cbv iota beta.
    rewrite read_int_show_nl. cbv iota beta.
    rewrite read_label_lastKey. cbv iota beta.
    rewrite read_int_show_nl. cbv iota beta.
    match goal with |- context [vresize ?a ?n 0] =>
      change (vresize a n 0)
        with (vresize (KeyArray.data t) (KeyArray.lastKey s + 1) 0) end.
    match goal with |- context [vresize ?a ?n false] =>
      change (vresize a n false)
        with (vresize (KeyArray.valid t) (KeyArray.lastKey s + 1) false) end.
    rewrite Hd0, Hv0.
    rewrite read_label_dynamicResizing. cbv iota beta.
    rewrite read_bool_show. cbv iota beta.
    rewrite read_label_queueEnabled. cbv iota beta.
    rewrite read_bool_show. cbv iota beta.
    rewrite read_label_queueSize. cbv iota beta.
    rewrite read_int_show_nl. cbv iota beta.
    rewrite read_label_entries. cbv iota beta.
    match goal with |- context [Snapshot.load_entries ?f ?st None ?u] =>
      change u with u0; set (fuel := f) end.
    apply vresize_Some in Hd0 as [_ Hd0].
    pose proof Hv0 as Hv0'. apply vresize_Some in Hv0' as [_ Hv0'].
    destruct (load_saved_entries s (Snapshot.nl ++ Q)%string
                (Z.to_nat (KeyArray.lastKey s + 1)) 0 ent u0 None fuel)
      as (u' & Hload & Hu' & HL' & Hp' & Hd' & Hv' & Hset & Hframe);
      try done; try lia.
    { change (length (KeyArray.data u0)) with (length d0). lia. }
    { change (length (KeyArray.valid u0)) with (length v0). lia. }
    { unfold fuel. rewrite !length_append. lia. }
    rewrite Hload. cbv iota beta.
    change (Snapshot.read_word None) with (@None string, @None string).
    cbv iota beta. unfold fuel. cbn [Snapshot.load_queue].
    change (Snapshot.read_int None) with (@None Z, @None string). cbv iota.
    exists u'. split_and!; try done.
    - intros j Hj. apply Hset; [|done]. apply vget_Some_range in Hj. lia.
    - intros j Hj. destruct (Hframe j) as [-> _]; [intros [_ ?]; congruence|].
      done. }
  destruct Hrun as (u' & Hload & Hu' & HLs & Hp' & Hflags & Hother & Hv').
  exists file, u'. split; [exact Hsave|]. split; [exact Hload|].
  assert (Ho' : KeyArray.offset u' = KeyArray.offset s) by (by rewrite Hu').
  unfold KeyArray.getOffset, KeyArray.getMaxKeyBound, KeyArray.getName,
    KeyArray.isDynamicResizingEnabled, KeyArray.getQueue.
  split_and!.
  - done.
  - by rewrite Ho', HLs.
  - by rewrite Hu'.
  - by rewrite Hu'.
  - by rewrite Hu'.
  - intros key x [Hr Hvl]%hasKey_true Hdt.
    destruct (Hflags _ Hvl) as [Hvl' Hdt']. split.
    + apply hasKey_Val_true; rewrite ?Ho', ?HLs; done.
    + rewrite Ho', Hdt'. done.
  - intros Hoff key x (Hr & Hvl & Hdt)%at_Val; [|done].
    apply at_Val; [congruence|].
    rewrite Ho', HLs. destruct (Hflags _ Hvl) as [-> ->]. done.
  - intros Hfresh key. apply hasKey_ext; try done.
    set (j := key - KeyArray.offset s).
    destruct (vget (KeyArray.valid s) j) as [[|]|] eqn:Ej.
    + by destruct (Hflags j Ej) as [-> _].
    + rewrite Hother by congruence.
      apply vget_Some_range in Ej.
      eapply vresize_no_true; [exact Hfresh | exact Hv0 | lia].
    + destruct (vget (KeyArray.valid u') j) as [b|] eqn:Ej'; [|done].
      apply vget_Some_range in Ej'.
      destruct (vget_in_range (KeyArray.valid s) j) as [? ?]; [lia | congruence].
  - by rewrite Hu'.
  - rewrite Hp'. reflexivity.
Qed.

(** X21. A snapshot read back.  For a store whose vectors have
    [lastKey + 1] slots, whose name has no white space and which has no
    live key [-1], [saveToFile] returns and [loadFromFile] of the file
    into any target returns; the target then has the offset, the key
    bound, the name (or [(unnamed)] for the empty name) and the two flags
    of the saved store, and every live key of the saved store is live in
    the target with the same value in its slot.  At offset [0], every
    value that [at] gave on the saved store is given by [at] on the
    target.  If the target had no valid slot, its live keys are exactly
    those saved.  The queue of the target is as it was: the saved queue
    is not read.  The pool is reset to [KeyPool(offset, lastKey)]. *)
Theorem save_then_load_restores_the_store :
  forall (s t : KeyArray.t Z),
    Run.shaped s ->
    no_space (KeyArray.name s) = true ->
    (forall key, KeyArray.hasKey key s = Val true -> key <> -1) ->
    exists (file : string) (s' : KeyArray.t Z),
      Snapshot.saveToFile s = Val file
      /\ Snapshot.loadFromFile file t = Ok s' tt
      /\ KeyArray.getOffset s' = KeyArray.getOffset s
      /\ KeyArray.getMaxKeyBound s' = KeyArray.getMaxKeyBound s
      /\ KeyArray.getName s'
         = match KeyArray.name s with
           | EmptyString => "(unnamed)"%string
           | nm => nm
           end
      /\ KeyArray.isDynamicResizingEnabled s'
         = KeyArray.isDynamicResizingEnabled s
      /\ KeyArray.queueEnabled s' = KeyArray.queueEnabled s
      /\ (forall key x,
            KeyArray.hasKey key s = Val true ->
            vget (KeyArray.data s) (key - KeyArray.offset s) = Some x ->
            KeyArray.hasKey key s' = Val true
            /\ vget (KeyArray.data s') (key - KeyArray.offset s') = Some x)
      /\ (KeyArray.offset s = 0 ->
          forall key x,
            KeyArray.at_ key s = Val x -> KeyArray.at_ key s' = Val x)
      /\ ((forall i, vget (KeyArray.valid t) i <> Some true) ->
          forall key, KeyArray.hasKey key s' = KeyArray.hasKey key s)
      /\ KeyArray.getQueue s' = KeyArray.getQueue t
      /\ KeyArray.pool s'
         = KeyPool.make (KeyArray.offset s) (KeyArray.lastKey s).
Proof. exact save_then_load_state. Qed.

Lemma save_then_load_restores_the_store_witness :
  exists (file : string) (s' : KeyArray.t Z),
    Snapshot.saveToFile Examples.buffered1 = Val file
    /\ Snapshot.loadFromFile file Examples.fresh1 = Ok s' tt
    /\ KeyArray.getOffset s' = KeyArray.getOffset Examples.buffered1
    /\ KeyArray.getMaxKeyBound s' = KeyArray.getMaxKeyBound Examples.buffered1
    /\ KeyArray.getName s'
       = match KeyArray.name Examples.buffered1 with
         | EmptyString => "(unnamed)"%string
         | nm => nm
         end
    /\ KeyArray.isDynamicResizingEnabled s'
       = KeyArray.isDynamicResizingEnabled Examples.buffered1
    /\ KeyArray.queueEnabled s' = KeyArray.queueEnabled Examples.buffered1
    /\ (forall key x,
          KeyArray.hasKey key Examples.buffered1 = Val true ->
          vget (KeyArray.data Examples.buffered1)
            (key - KeyArray.offset Examples.buffered1) = Some x ->
          KeyArray.hasKey key s' = Val true
          /\ vget (KeyArray.data s') (key - KeyArray.offset s') = Some x)
    /\ (KeyArray.offset Examples.buffered1 = 0 ->
        forall key x,
          KeyArray.at_ key Examples.buffered1 = Val x ->
          KeyArray.at_ key s' = Val x)
    /\ ((forall i, vget (KeyArray.valid Examples.fresh1) i <> Some true) ->
        forall key,
          KeyArray.hasKey key s' = KeyArray.hasKey key Examples.buffered1)
    /\ KeyArray.getQueue s' = KeyArray.getQueue Examples.fresh1
    /\ KeyArray.pool s'
       = KeyPool.make (KeyArray.offset Examples.buffered1)
           (KeyArray.lastKey Examples.buffered1).
Proof.
  apply (save_then_load_restores_the_store Examples.buffered1 Examples.fresh1).
  - unfold Run.shaped. vm_compute. repeat apply conj; reflexivity.
  - reflexivity.
  - intros key. unfold KeyArray.hasKey, KeyArray.out_of_range.
    change (KeyArray.offset Examples.buffered1) with 0.
    change (KeyArray.lastKey Examples.buffered1) with 0.
    destruct (Z.ltb_spec key 0); [done|].
    destruct (Z.gtb_spec key (0 + 0)); [done|]. intros _. lia.
Defined.

(** ** [contains], and a direct switch to the resized storage *)

(** X22. [contains] is a search over the live keys.  On a store whose
    vectors have [lastKey + 1] slots, [contains(value)] returns, reading
    no slot outside the vectors, and returns true exactly when some key
    with [hasKey] has [value] in its slot.  At offset [0] that is:
    exactly when [at(key)] is [value] for some key. *)
Theorem contains_iff_some_key_holds :
  forall (T : Type) (E : EqDecision T) (v : T) (s : KeyArray.t T),
    Run.shaped s ->
    exists b,
      KeyArray.contains v s = Val b
      /\ (b = true <->
          exists key,
            KeyArray.hasKey key s = Val true
            /\ vget (KeyArray.data s) (key - KeyArray.offset s) = Some v)
      /\ (KeyArray.offset s = 0 ->
          (b = true <-> exists key, KeyArray.at_ key s = Val v)).
Proof.
  intros T E v s (Hd & Hv & _). unfold KeyArray.contains, Base.contains.
  destruct (contains_from_spec v (KeyArray.base s)
              (Z.to_nat (Base.lastKey (KeyArray.base s) + 1)) 0)
    as (b & Hb & Hiff);
    [lia | unfold KeyArray.valid, KeyArray.lastKey in *; lia
     | unfold KeyArray.data, KeyArray.valid in *; lia |].
  exists b. split; [done|].
  assert (Hslots : b = true <->
            exists key,
              KeyArray.offset s <= key <= KeyArray.lastKey s + KeyArray.offset s
              /\ vget (KeyArray.valid s) (key - KeyArray.offset s) = Some true
              /\ vget (KeyArray.data s) (key - KeyArray.offset s) = Some v).
  { rewrite Hiff. unfold KeyArray.lastKey, KeyArray.valid, KeyArray.data in *.
    split.
    - intros (k & Hk & Hvl & Hdt). exists (k + KeyArray.offset s).
      replace (k + KeyArray.offset s - KeyArray.offset s) with k by lia.
      split; [lia | done].
    - intros (key & Hk & Hvl & Hdt).
      exists (key - KeyArray.offset s). split; [lia | done]. }
  split.
  - rewrite Hslots. split.
    + intros (key & Hk & Hvl & Hdt). exists key.
      split; [by apply hasKey_Val_true | done].
    + intros (key & [Hk Hvl]%hasKey_true & Hdt). by exists key.
  - intros Hoff. rewrite Hslots. split.
    + intros (key & Hk & Hvl & Hdt). exists key. by apply at_Val.
    + intros (key & Hat). apply at_Val in Hat; [|done]. by exists key.
Qed.

Lemma contains_iff_some_key_holds_witness :
  exists b,
    KeyArray.contains 20 Examples.switched2 = Val b
    /\ (b = true <->
        exists key,
          KeyArray.hasKey key Examples.switched2 = Val true
          /\ vget (KeyArray.data Examples.switched2)
               (key - KeyArray.offset Examples.switched2) = Some 20)
    /\ (KeyArray.offset Examples.switched2 = 0 ->
        (b = true <-> exists key, KeyArray.at_ key Examples.switched2 = Val 20)).
Proof.
  apply (contains_iff_some_key_holds Z _ 20 Examples.switched2).
  unfold Run.shaped. vm_compute. repeat apply conj; reflexivity.
Defined.



(** ** The snapshot: a name with a blank *)

Lemma vresize_same {A} (v : list A) n x :
  Z.of_nat (length v) = n -> vresize v n x = Some v.
Proof.
  intros H. unfold vresize. destruct (Z.ltb_spec n 0); [lia|].
  rewrite take_ge by lia. replace (Z.to_nat n - length v)%nat with O by lia.
  simpl. by rewrite app_nil_r.
Qed.

Lemma read_offset_label_as_int r :
  Snapshot.read_int (Some (Snapshot.nl ++ "offset: " ++ r)%string)
  = (Some 0, None).
Proof. reflexivity. Qed.

(** X24. A name with a blank makes the snapshot unreadable.  If the
    name of the saved store is two words separated by a blank,
    [loadFromFile] takes the first word as the name and the second as the
    next label, and the extraction of the offset meets [offset:] and
    fails: the target receives the offset [0], the count [0] and the pool
    [KeyPool(0, lastKey)]; its last key, its slots and validity flags, its
    two flags and its queue stay as they were, and nothing else of the
    file is read. *)
Theorem load_of_name_with_blank_reads_nothing_else :
  forall (s t : KeyArray.t Z) (w1 w2 : string),
    Run.shaped s ->
    Run.shaped t ->
    w1 <> EmptyString -> no_space w1 = true ->
    w2 <> EmptyString -> no_space w2 = true ->
    KeyArray.name s = (w1 ++ " " ++ w2)%string ->
    exists file : string,
      Snapshot.saveToFile s = Val file
      /\ Snapshot.loadFromFile file t
         = Ok (KeyArray.set_base
                 {| Base.lastKey := KeyArray.lastKey t;
                    Base.elementCount := 0;
                    Base.data := KeyArray.data t;
                    Base.valid := KeyArray.valid t;
                    Base.pool := KeyPool.make 0 (KeyArray.lastKey t) |}
                 (KeyArray.set_offset 0 (KeyArray.set_name w1 t))) tt.
Proof.
  intros s t w1 w2 (Hd & Hv & _) (Hdt & Hvt & _) Hw1 Hn1 Hw2 Hn2 Hname.
  destruct (save_entries_defined s (Z.to_nat (KeyArray.lastKey s + 1)) 0)
    as [ent Hent]; [lia | lia | lia |].
  pose proof (eq_refl (Snapshot.saveToFile s)) as Hsave.
  unfold Snapshot.saveToFile in Hsave at 2. rewrite Hent in Hsave.
  set (w := match KeyArray.name s with
            | EmptyString => "(unnamed)"%string
            | nm => nm
            end) in *.
  assert (Hw : w = (w1 ++ " " ++ w2)%string).
  { unfold w. rewrite Hname. by destruct w1. }
  match type of Hsave with _ = Val ?f => set (file := f) in * end.
  exists file. split; [exact Hsave|].
  unfold Snapshot.loadFromFile, file. cbv zeta.
  rewrite getline_version, read_label_name. cbv iota beta.
  match goal with |- context [Snapshot.read_word (Some (String " " (w ++ ?r)%string))] =>
    replace (String " " (w ++ r)%string)
      with (String " " (w1 ++ String " " (w2 ++ r))%string)
      by (rewrite Hw, !append_assoc; reflexivity) end.
  rewrite (read_word_no_space w1) by done. cbv iota beta.
  rewrite (read_word_name w2 _ Hw2 Hn2). cbv iota beta.
  rewrite read_offset_label_as_int. cbv iota beta.
  repeat (first
            [ progress change (Snapshot.read_word None)
                with (@None string, @None string)
            | progress change (Snapshot.read_int None)
                with (@None Z, @None string)
            | progress change (Snapshot.read_bool None)
                with (@None bool, @None string) ];
          cbv iota beta).
  match goal with |- context [vresize ?a ?n 0] =>
    change (vresize a n 0)
      with (vresize (KeyArray.data t) (KeyArray.lastKey t + 1) 0) end.
  match goal with |- context [vresize ?a ?n false] =>
    change (vresize a n false)
      with (vresize (KeyArray.valid t) (KeyArray.lastKey t + 1) false) end.
  rewrite (vresize_same (KeyArray.data t)), (vresize_same (KeyArray.valid t))
    by done.
  cbn [Snapshot.load_entries].
  change (Snapshot.read_int None) with (@None Z, @None string). cbv iota beta.
  change (Snapshot.read_word None) with (@None string, @None string).
  cbv iota beta. cbn [Snapshot.load_queue].
  change (Snapshot.read_int None) with (@None Z, @None string). cbv iota.
  reflexivity.
Qed.

Lemma load_of_name_with_blank_reads_nothing_else_witness :
  exists file : string,
    Snapshot.saveToFile (KeyArray.setName "my array" Examples.full1) = Val file
    /\ Snapshot.loadFromFile file Examples.neg_full
       = Ok (KeyArray.set_base
               {| Base.lastKey := KeyArray.lastKey Examples.neg_full;
                  Base.elementCount := 0;
                  Base.data := KeyArray.data Examples.neg_full;
                  Base.valid := KeyArray.valid Examples.neg_full;
                  Base.pool :=
                    KeyPool.make 0 (KeyArray.lastKey Examples.neg_full) |}
               (KeyArray.set_offset 0
                  (KeyArray.set_name "my" Examples.neg_full))) tt.
Proof.
  apply (load_of_name_with_blank_reads_nothing_else
           (KeyArray.setName "my array" Examples.full1) Examples.neg_full
           "my" "array").
  - unfold Run.shaped. vm_compute. repeat apply conj; reflexivity.
  - unfold Run.shaped. vm_compute. repeat apply conj; reflexivity.
  - discriminate.
  - reflexivity.
  - discriminate.
  - reflexivity.
  - reflexivity.
Defined.

(** ** Stores whose resizer stays enabled: defined runs, the count *)





Section Mirrored.
Context {T : Type} (T0 : T) `{!EqDecision T}.
Implicit Types (s : KeyArray.t T) (v : T).
Import KeyArray.
Import Run.













End Mirrored.



(** ** [clear] without the resizer *)

(** On a store with one valid slot, [hasKey] is false of every key of
    another slot. *)
Lemma hasKey_only_slot {T : Type} (s : KeyArray.t T) (k j : Z) :
  Run.shaped s ->
  (forall i, i <> j -> vget (KeyArray.valid s) i <> Some true) ->
  k - KeyArray.offset s <> j ->
  KeyArray.hasKey k s = Val false.
Proof.
  intros Hs Hone Hk.
  destruct (hasKey_shaped k s Hs) as (b & -> & Hb).
  destruct b; [|done]. exfalso.
  destruct (proj1 Hb eq_refl) as [_ Hvl]. by eapply Hone.
Qed.

(** X26. [clear] without the resizer.  On a store with at least one
    slot and resizing off, [clear] returns; afterwards the size is [0],
    [empty] is true, no key has [hasKey], the queue is empty, and
    offset, key bound and name are as before; the next [insert] returns
    the first key [getOffset] again, [hasKey] of it is true, its slot [0]
    holds the inserted value, and the size is [1].  At offset [0],
    [at(getOffset)] returns the inserted value; at any other offset it
    throws the [out_of_range] of [KeyArrayBase], because the key tested
    is the shifted one. *)
Theorem clear_restarts_the_keys :
  forall (T : Type) (T0 : T) (s : KeyArray.t T) (v : T),
    KeyArray.resizingEnabled s = false ->
    0 <= KeyArray.lastKey s ->
    exists s' s'',
      KeyArray.clear T0 s = Ok s' tt
      /\ KeyArray.size s' = 0
      /\ KeyArray.empty s' = true
      /\ (forall key, KeyArray.hasKey key s' = Val false)
      /\ KeyArray.getOffset s' = KeyArray.getOffset s
      /\ KeyArray.getMaxKeyBound s' = KeyArray.getMaxKeyBound s
      /\ KeyArray.getName s' = KeyArray.getName s
      /\ KeyArray.getQueue s' = []
      /\ KeyArray.insert T0 v s' = Ok s'' (KeyArray.getOffset s)
      /\ KeyArray.hasKey (KeyArray.getOffset s) s'' = Val true
      /\ vget (KeyArray.data s'') 0 = Some v
      /\ KeyArray.at_ (KeyArray.getOffset s) s''
         = (if decide (KeyArray.offset s = 0) then Val v
            else Exn KeyNotFound)
      /\ KeyArray.size s'' = 1.
Proof.
  intros T T0 s v Hr HL.
  unfold KeyArray.clear, KeyArray.on_base, Base.clear, vmake.
  unfold KeyArray.lastKey in HL.
  destruct (Z.ltb_spec (Base.lastKey (KeyArray.base s) + 1) 0); [lia|].
  assert (Hp : KeyPool.make 0 (Base.lastKey (KeyArray.base s))
               = {| KeyPool.nextKey := 0;
                    KeyPool.maxKey := Base.lastKey (KeyArray.base s);
                    KeyPool.pool := [] |}).
  { unfold KeyPool.make.
    by destruct (Z.gtb_spec 0 (Base.lastKey (KeyArray.base s))); [lia|]. }
  assert (He : KeyPool.empty (KeyPool.make 0 (Base.lastKey (KeyArray.base s)))
               = false) by apply make_not_empty.
  set (n := Z.to_nat (Base.lastKey (KeyArray.base s) + 1)).
  assert (Hn : (0 < n)%nat) by (unfold n; lia).
  eexists. eexists. split; [reflexivity|].
  unfold KeyArray.size, KeyArray.empty, KeyArray.getOffset,
    KeyArray.getMaxKeyBound, KeyArray.getName, KeyArray.getQueue,
    KeyArray.lastKey. simpl.
  split_and!; try done.
  - intros key. unfold KeyArray.hasKey, Base.hasKey.
    destruct (KeyArray.out_of_range key _); [done|]. simpl.
    set (j := key - KeyArray.offset s).
    destruct (Z.geb_spec j 0); [|done].
    destruct (Z.leb_spec0 j (Base.lastKey (KeyArray.base s))); [|done].
    simpl.
    destruct (vget_in_range (replicate n false) j) as [b Hb];
      [rewrite length_replicate; lia|].
    rewrite Hb. unfold vget in Hb. destruct (j <? 0); [done|].
    apply lookup_replicate_1 in Hb as [-> _]. done.
  - unfold KeyArray.insert, KeyArray.pool. simpl. rewrite He.
    unfold KeyArray.insert_tail, KeyArray.on_base, Base.insert. simpl.
    rewrite He, Hp. unfold KeyPool.pop. simpl.
    destruct (Z.gtb_spec 0 (Base.lastKey (KeyArray.base s))); [lia|].
    rewrite !vset_in_range by (rewrite length_replicate; lia).
    simpl. rewrite Hr. rewrite Z.add_0_l. reflexivity.
  - apply hasKey_Val_true; simpl; rewrite ?Z.sub_diag.
    + unfold KeyArray.lastKey; simpl; lia.
    + eapply vget_vset_eq; apply vset_in_range; rewrite length_replicate; lia.
  - eapply vget_vset_eq; apply vset_in_range; rewrite length_replicate; lia.
  - case_decide as Hoff.
    + apply at_Val; [done|]. simpl. rewrite Z.sub_diag.
      split; [unfold KeyArray.lastKey; simpl; lia|].
      split; eapply vget_vset_eq; apply vset_in_range; rewrite length_replicate;
        lia.
    + match goal with |- KeyArray.at_ _ ?st = _ => set (s2 := st) end.
      assert (Hs2 : Run.shaped s2).
      { unfold Run.shaped, KeyArray.data, KeyArray.valid, KeyArray.lastKey.
        simpl. rewrite !length_insert, !length_replicate. fold n.
        split_and!; [unfold n; lia | unfold n; lia | done]. }
      assert (Hone : forall i, i <> 0 ->
                vget (KeyArray.valid s2) i <> Some true).
      { intros i Hi. unfold KeyArray.valid. simpl. unfold vget.
        destruct (Z.ltb_spec i 0); [done|].
        rewrite list_lookup_insert_ne by (change (Z.to_nat 0) with O; lia).
        intros [? _]%lookup_replicate_1. done. }
      unfold KeyArray.at_, Base.at_with.
      rewrite (out_of_range_false (KeyArray.offset s) s2)
        by (unfold KeyArray.lastKey; simpl; lia).
      rewrite (hasKey_only_slot s2 _ 0 Hs2 Hone); [done|].
      change (KeyArray.offset s2) with (KeyArray.offset s). lia.
  - reflexivity.
Qed.

Lemma clear_restarts_the_keys_witness :
  exists s' s'',
    KeyArray.clear 0 Examples.neg_full = Ok s' tt
    /\ KeyArray.size s' = 0
    /\ KeyArray.empty s' = true
    /\ (forall key, KeyArray.hasKey key s' = Val false)
    /\ KeyArray.getOffset s' = KeyArray.getOffset Examples.neg_full
    /\ KeyArray.getMaxKeyBound s' = KeyArray.getMaxKeyBound Examples.neg_full
    /\ KeyArray.getName s' = KeyArray.getName Examples.neg_full
    /\ KeyArray.getQueue s' = []
    /\ KeyArray.insert 0 7 s' = Ok s'' (KeyArray.getOffset Examples.neg_full)
    /\ KeyArray.hasKey (KeyArray.getOffset Examples.neg_full) s'' = Val true
    /\ vget (KeyArray.data s'') 0 = Some 7
    /\ KeyArray.at_ (KeyArray.getOffset Examples.neg_full) s''
       = (if decide (KeyArray.offset Examples.neg_full = 0) then Val 7
          else Exn KeyNotFound)
    /\ KeyArray.size s'' = 1.
Proof.
  apply (clear_restarts_the_keys Z 0 Examples.neg_full 7).
  - reflexivity.
  - vm_compute. discriminate.
Defined.

(** ** [remove] on a store with an offset; [insert] after a load *)

Section OffsetRemove.
Context {T : Type}.
Implicit Types (s : KeyArray.t T).
Import KeyArray.
Import Run.

(** [remove] with the resizer off: the test is [hasKey] of the shifted
    key, the slot cleared is the one of the key. *)
Lemma remove_plain_spec key s :
  shaped s -> resizingEnabled s = false ->
  remove key s
  = if out_of_range key s then Throw InvalidKey s
    else match hasKey (key - offset s) s with
         | Val true =>
             Ok (set_base
                   {| Base.lastKey := lastKey s;
                      Base.elementCount :=
                        wrap64 (Base.elementCount (base s) - 1);
                      Base.data := data s;
                      Base.valid :=
                        <[Z.to_nat (key - offset s) := false]> (valid s);
                      Base.pool := KeyPool.push (key - offset s) (pool s) |}
                   s) tt
         | _ => Throw KeyNotFound s
         end.
Proof.
  intros Hs Hr. pose proof Hs as (Hd & Hv & _). unfold remove.
  destruct (out_of_range key s) eqn:Hout; [done|].
  unfold on_base, Base.remove_with.
  destruct (hasKey_shaped (key - offset s) s Hs) as (b & -> & _).
  destruct b; [|by rewrite set_base_id].
  unfold out_of_range in Hout. apply orb_false_elim in Hout as [H1 H2].
  rewrite vset_in_range by (unfold valid in Hv; lia).
  simpl. by rewrite Hr.
Qed.

End OffsetRemove.

(** X27. What [remove] tests.  On a store whose vectors have
    [lastKey + 1] slots, with resizing off, [remove(key)] returns exactly
    when the key is in [[offset, offset + lastKey]] and the virtual
    [hasKey], run on the shifted key, is true, that is
    [KeyArray::hasKey(key - offset)]; otherwise it throws and leaves the
    store as it is.  When it returns, [hasKey(key)] is false, every other
    [hasKey] is as before and the size is one less (modulo [2^64]); if
    the key was not live, the live keys are the same as before and the
    size is one less all the same.  On a store whose offset is beyond its
    last key, [remove] throws for every key. *)
Theorem remove_tests_the_shifted_key :
  forall (T : Type) (s : KeyArray.t T) (key : Z),
    Run.shaped s ->
    KeyArray.resizingEnabled s = false ->
    ((exists s', KeyArray.remove key s = Ok s' tt) <->
     KeyArray.out_of_range key s = false
     /\ KeyArray.hasKey (key - KeyArray.offset s) s = Val true)
    /\ ((exists e, KeyArray.remove key s = Throw e s) <->
        ~ (KeyArray.out_of_range key s = false
           /\ KeyArray.hasKey (key - KeyArray.offset s) s = Val true))
    /\ (forall s', KeyArray.remove key s = Ok s' tt ->
          KeyArray.hasKey key s' = Val false
          /\ (forall j, j <> key -> KeyArray.hasKey j s' = KeyArray.hasKey j s)
          /\ KeyArray.size s' = wrap64 (KeyArray.size s - 1)
          /\ (KeyArray.hasKey key s = Val false ->
              forall j, KeyArray.hasKey j s' = KeyArray.hasKey j s))
    /\ (KeyArray.lastKey s < KeyArray.offset s ->
        exists e, KeyArray.remove key s = Throw e s).
Proof.
  intros T s key Hs Hr. pose proof Hs as (Hd & Hv & Hn).
  rewrite (remove_plain_spec key s Hs Hr).
  destruct (KeyArray.out_of_range key s) eqn:Hout.
  { split; [split; [by intros [? ?] | by intros [? _]]|].
    split; [split; [by intros _ [? _] | by eexists]|].
    split; [done | by eexists]. }
  destruct (hasKey_shaped (key - KeyArray.offset s) s Hs) as (b & Hb & _).
  rewrite Hb. destruct b.
  - split; [split; [done | by eexists]|].
    split; [split; [by intros [? ?] | intros H; by destruct H]|].
    split.
    + intros s' [= <-].
      unfold KeyArray.out_of_range in Hout.
      apply orb_false_elim in Hout as [H1 H2].
      assert (Hin : 0 <= key - KeyArray.offset s
                    < Z.of_nat (length (KeyArray.valid s))) by lia.
      pose proof (vset_in_range _ _ false Hin) as Evl.
      match goal with |- KeyArray.hasKey _ ?st = _ /\ _ => set (s1 := st) end.
      assert (Hother : forall j, j <> key ->
                KeyArray.hasKey j s1 = KeyArray.hasKey j s).
      { intros j Hj. apply hasKey_ext; try done.
        change (KeyArray.valid s1)
          with (<[Z.to_nat (key - KeyArray.offset s) := false]>
                  (KeyArray.valid s)).
        eapply vget_vset_ne; [exact Evl | lia]. }
      assert (Hs1 : Run.shaped s1).
      { unfold Run.shaped, KeyArray.data, KeyArray.valid, KeyArray.lastKey
          in *. simpl. rewrite length_insert. by split_and!. }
      assert (Hkey : KeyArray.hasKey key s1 = Val false).
      { destruct (hasKey_shaped key s1 Hs1) as (b & -> & Hb').
        destruct b; [exfalso|done].
        destruct (proj1 Hb' eq_refl) as [_ Hvl].
        change (KeyArray.offset s1) with (KeyArray.offset s) in Hvl.
        change (KeyArray.valid s1)
          with (<[Z.to_nat (key - KeyArray.offset s) := false]>
                  (KeyArray.valid s)) in Hvl.
        rewrite (vget_vset_eq _ _ _ _ Evl) in Hvl. done. }
      split; [exact Hkey|]. split; [exact Hother|]. split; [done|].
      intros Hk j. destruct (decide (j = key)) as [->|Hne].
      * by rewrite Hkey, Hk.
      * by apply Hother.
    + intros HL. exfalso.
      rewrite (hasKey_shifted_beyond key s HL Hout) in Hb. done.
  - split; [split; [by intros [? ?] | by intros [_ ?]]|].
    split; [split; [by intros _ [_ ?] | by eexists]|].
    split; [done | by eexists].
Qed.

Lemma remove_tests_the_shifted_key_witness :
  exists s',
    KeyArray.remove (-5)
      (Examples.after (KeyArray.remove (-5) Examples.neg_full)
         Examples.neg_full) = Ok s' tt
    /\ KeyArray.size s'
       = wrap64 (KeyArray.size
                   (Examples.after (KeyArray.remove (-5) Examples.neg_full)
                      Examples.neg_full) - 1)
    /\ forall j,
         KeyArray.hasKey j s'
         = KeyArray.hasKey j
             (Examples.after (KeyArray.remove (-5) Examples.neg_full)
                Examples.neg_full).
Proof.
  destruct (remove_tests_the_shifted_key Z
              (Examples.after (KeyArray.remove (-5) Examples.neg_full)
                 Examples.neg_full) (-5)) as (H1 & _ & H3 & _).
  - unfold Run.shaped. vm_compute. repeat apply conj; reflexivity.
  - reflexivity.
  - destruct (proj2 H1) as [s' Hs']; [split; vm_compute; reflexivity|].
    exists s'. split; [exact Hs'|].
    destruct (H3 s' Hs') as (_ & _ & Hsize & Hsame).
    split; [exact Hsize|]. apply Hsame. vm_compute. reflexivity.
Defined.

(** X28. [insert] after a load, at a negative offset.  For a store with a
    negative offset (its vectors of [lastKey + 1] slots, a name without
    white space, no live key [-1]), [saveToFile] and [loadFromFile] into
    any target return, and the pool of the target is reset to the bounds
    [offset] and [lastKey]: its frontier is the negative offset, not a
    slot.  The pool is not empty, and the next [insert] of any value
    writes [data[offset]]: undefined behaviour. *)
Theorem insert_after_load_at_negative_offset_undefined :
  forall (s t : KeyArray.t Z) (v : Z),
    Run.shaped s ->
    no_space (KeyArray.name s) = true ->
    (forall key, KeyArray.hasKey key s = Val true -> key <> -1) ->
    KeyArray.offset s < 0 ->
    exists (file : string) (s' : KeyArray.t Z),
      Snapshot.saveToFile s = Val file
      /\ Snapshot.loadFromFile file t = Ok s' tt
      /\ KeyArray.pool s'
         = {| KeyPool.nextKey := KeyArray.offset s;
              KeyPool.maxKey := KeyArray.lastKey s;
              KeyPool.pool := [] |}
      /\ KeyPool.empty (KeyArray.pool s') = false
      /\ KeyArray.insert 0 v s' = Undefined.
Proof.
  intros s t v Hs Hname Hsep Hoff.
  destruct (save_then_load_state s t Hs Hname Hsep)
    as (file & s' & Hsave & Hload & _ & _ & _ & _ & _ & _ & _ & _ & _ & Hpool).
  destruct Hs as (Hd & _ & _).
  assert (HL : -1 <= KeyArray.lastKey s) by lia.
  assert (Hp : KeyArray.pool s'
               = {| KeyPool.nextKey := KeyArray.offset s;
                    KeyPool.maxKey := KeyArray.lastKey s;
                    KeyPool.pool := [] |}).
  { rewrite Hpool. unfold KeyPool.make.
    destruct (Z.gtb_spec (KeyArray.offset s) (KeyArray.lastKey s)); [lia | done]. }
  assert (He : KeyPool.empty (KeyArray.pool s') = false).
  { rewrite Hp. unfold KeyPool.empty. simpl.
    destruct (Z.gtb_spec (KeyArray.offset s) (KeyArray.lastKey s)); [lia | done]. }
  exists file, s'. split; [exact Hsave|]. split; [exact Hload|].
  split; [exact Hp|]. split; [exact He|].
  unfold KeyArray.insert. rewrite He.
  unfold KeyArray.insert_tail, KeyArray.on_base, Base.insert.
  fold (KeyArray.pool s'). rewrite He, Hp. unfold KeyPool.pop. simpl.
  destruct (Z.gtb_spec (KeyArray.offset s) (KeyArray.lastKey s)); [lia|].
  unfold vset.
  destruct (Z.leb_spec0 0 (KeyArray.offset s)); [lia|]. done.
Qed.

Lemma insert_after_load_at_negative_offset_undefined_witness :
  exists (file : string) (s' : KeyArray.t Z),
    Snapshot.saveToFile Examples.neg_empty = Val file
    /\ Snapshot.loadFromFile file Examples.fresh1 = Ok s' tt
    /\ KeyArray.pool s'
       = {| KeyPool.nextKey := KeyArray.offset Examples.neg_empty;
            KeyPool.maxKey := KeyArray.lastKey Examples.neg_empty;
            KeyPool.pool := [] |}
    /\ KeyPool.empty (KeyArray.pool s') = false
    /\ KeyArray.insert 0 7 s' = Undefined.
Proof.
  apply (insert_after_load_at_negative_offset_undefined
           Examples.neg_empty Examples.fresh1 7).
  - unfold Run.shaped. vm_compute. repeat apply conj; reflexivity.
  - reflexivity.
  - intros key Hk. exfalso. revert Hk.
    unfold KeyArray.hasKey, KeyArray.out_of_range, Base.hasKey.
    destruct (_ || _); [done|].
    destruct (_ && _); [|done].
    change (KeyArray.offset Examples.neg_empty) with (-5).
    destruct (vget _ (key - -5)) as [[|]|] eqn:E; try done.
    exfalso. unfold vget in E. destruct (key - -5 <? 0); [done|].
    change (Base.valid (KeyArray.base Examples.neg_empty))
      with (replicate 10 false) in E.
    by apply lookup_replicate_1 in E as [? _].
  - vm_compute. reflexivity.
Defined.
